(** * FloLang: the tree-walking evaluator and its lexical environment

    A shallow embedding of [flo_lang/ast/nodes.py],
    [flo_lang/interpreter/environment.py] and
    [flo_lang/interpreter/evaluator.py], followed by the properties of the
    evaluator that the design document states, and by further properties
    read off the code.

    Layout:
    - the AST of [nodes.py];
    - run-time values (the Python objects the evaluator manipulates);
    - the store: [Environment] objects live in a heap and are referred to by
      address, because closures, loop scopes and strands alias them;
    - a state-and-exception monad for the evaluator's effects;
    - [Py]: the host operations the evaluator applies to values
      (truth value, [+], [==], indexing, ...);
    - [Env]: the methods of [Environment];
    - the evaluator, one definition per method of [Evaluator];
    - the vocabulary of the properties: evaluation judgements, scope
      chains, the design document's readings, the store invariant, what
      evaluation leaves in place, the scopes the evaluator creates;
    - [Parser]: the two methods of the parser's transformer that compute on
      the text of a token ([flo_lang/parser/parser.py]);
    - the properties: fuel, the environment, truth values, logical
      operators, patterns, options, attempt/rescue/finally, return, await,
      and the invariant of the store;
    - further properties: the store only grows, lookups and writes of
      [Environment], blocks, declarations and assignment, calls, pipelines,
      match, for, rescue, Result values, indexing and maps, division,
      return at module level, strands, string literals and map keys. *)

From Stdlib Require Import ZArith Floats.
From stdpp Require Import gmap strings list.

Set Warnings "-register-all".

Local Open Scope string_scope.
Local Open Scope Z_scope.

(** ** AST ([flo_lang/ast/nodes.py]) *)

Inductive BinaryOp :=
  | ADD | SUB | MUL | DIV | MOD
  | EQ | NEQ | LT | GT | LTE | GTE
  | AND | OR
  | PIPELINE_FORWARD | PIPELINE_BACKWARD.

Inductive UnaryOp := NOT | NEG | POS.

(** [Param]: the type annotation is never read by the evaluator and is left
    out, as are all other [TypeExpr] fields. *)
Record Param := { param_name : string }.

(** The payload of a [LiteralPattern], [Union[int, float, str, bool, None]]. *)
Inductive Literal :=
  | LitInt (z : Z)
  | LitFloat (f : float)
  | LitStr (s : string)
  | LitBool (b : bool)
  | LitNone.

Inductive Pattern :=
  | LiteralPattern (value : Literal)
  | VarPattern (name : string)
  | WildcardPattern
  | OptionPattern (variant : string) (inner : option Pattern)
  | ResultPattern (variant : string) (inner : option Pattern)
  | ListPattern (patterns : list Pattern).

Inductive Statement :=
  | Import (name path : string) (version alias : option string)
  | CapabilityRequest (capability type_name : string)
  | ConstDecl (name : string) (value : Expr)
  | LetDecl (name : string) (value : Expr)
  | VarDecl (name : string) (value : Expr)
  | FnDecl (name : string) (params : list Param) (body : list Statement)
  | ReturnStmt (value : option Expr)
  | ExprStmt (expr : Expr)
with Expr :=
  | IntLiteral (value : Z)
  | FloatLiteral (value : float)
  | StringLiteral (value : string)
  | BoolLiteral (value : bool)
  | NilLiteral
  | VarRef (name : string)
  | BinaryExpr (left : Expr) (op : BinaryOp) (right : Expr)
  | UnaryExpr (op : UnaryOp) (expr : Expr)
  | Assignment (name : string) (value : Expr)
  | Call (func : Expr) (args : list Expr)
  | Index (expr : Expr) (index : Expr)
  | Attr (expr : Expr) (name : string)
  | OptionalChain (expr : Expr) (name : string)
  | ListExpr (elements : list Expr)
  | MapExpr (entries : list (string * Expr))
  | IfExpr (condition : Expr) (then_block : list Statement)
           (elif_clauses : list ElifClause) (else_block : option (list Statement))
  | MatchExpr (expr : Expr) (arms : list MatchArm)
  | ForExpr (var : string) (iterable : Expr) (body : list Statement)
  | WhileExpr (condition : Expr) (body : list Statement)
  | AttemptExpr (body : list Statement) (rescue : option RescueClause)
                (finally_clause : option FinallyClause)
  | FnExpr (params : list Param) (body : list Statement)
  | StrandExpr (body : list Statement)
  | AwaitExpr (expr : Expr)
  | OptionExpr (variant : string) (value : option Expr)
  | ResultExpr (variant : string) (value : Expr)
with ElifClause :=
  | mkElifClause (condition : Expr) (block : list Statement)
with MatchArm :=
  | mkMatchArm (pattern : Pattern) (expr : Expr)
with RescueClause :=
  | mkRescueClause (var : string) (block : list Statement)
with FinallyClause :=
  | mkFinallyClause (block : list Statement).

(** What [Evaluator.eval] can be handed: the root [Module], a statement, an
    expression, or Python's [None] where an optional child is absent
    ([OptionExpr.value] of a [Some] built without payload). *)
Inductive ASTNode :=
  | Module (statements : list Statement)
  | Stmt (s : Statement)
  | Exp (e : Expr)
  | NoNode.

(** ** Run-time values *)

(** Address of an [Environment] object in the heap. *)
Definition addr := nat.

(** [class FloFunction]: name, params, body, closure. *)
Record FloFunction := {
  func_name : string;
  func_params : list Param;
  func_body : list Statement;
  func_closure : addr
}.

(** The callables installed by [Evaluator.setup_builtins]. *)
Inductive Builtin := Bprint | Brange | Blen | Bstr | Bint | Bfloat.

(** Exceptions that Python itself raises from an operator or a builtin. *)
Inductive PyError :=
  | TypeError | ZeroDivisionError | IndexError | KeyError
  | OverflowError | AttributeError | ValueError.

(** The Python objects a Flo program can hold.  Strings are sequences of
    code points below 256.  Lists and dicts are immutable here: the language
    has no operation that updates one in place.

    [exn] lists the exceptions that travel through the evaluator, all of them
    subclasses of Python's [Exception]:
    - [ReturnValue v]: [class ReturnValue(Exception)], raised by [return];
    - [DuplicateDefinition n]:
      [RuntimeError(f"Variable '{n}' already defined in this scope")];
    - [UndefinedVariable n]: [RuntimeError(f"Undefined variable '{n}'")];
    - [ImmutableReassignment n]:
      [RuntimeError(f"Cannot reassign immutable variable '{n}'")];
    - [ArityMismatch f p a]:
      [FloRuntimeError(f"Function {f} expects {p} arguments, got {a}")];
    - [NotCallable v]: [FloRuntimeError(f"Not a function: {v}")];
    - [PipelineNotCallable op]: [FloRuntimeError("Right side of |> must be
      callable")] and its [<|] twin;
    - [NoMatchError v]: [FloRuntimeError(f"No match for value: {v}")];
    - [UnknownNode n]: [FloRuntimeError(f"Unknown node type: {n}")];
    - [PyExc c]: an exception of the host. *)
Inductive Value :=
  | VNone
  | VBool (b : bool)
  | VInt (z : Z)
  | VFloat (f : float)
  | VStr (s : string)
  | VList (items : list Value)
  | VDict (entries : list (string * Value))
  | VTuple (items : list Value)
  | VRange (start stop : Z)
  | VFunc (f : FloFunction)
  | VBuiltin (b : Builtin)
  | VStrand (task : nat)
  | VTask (task : nat)
  | VExn (e : exn)
with exn :=
  | ReturnValue (v : Value)
  | DuplicateDefinition (name : string)
  | UndefinedVariable (name : string)
  | ImmutableReassignment (name : string)
  | ArityMismatch (fname : string) (expected got : nat)
  | NotCallable (func : Value)
  | PipelineNotCallable (op : BinaryOp)
  | NoMatchError (v : Value)
  | UnknownNode (kind : string)
  | PyExc (c : PyError).

(** ** The store *)

(** [class Environment]: [parent], [bindings], [mutable]. *)
Record Environment := {
  parent : option addr;
  bindings : gmap string Value;
  mutable : gmap string bool
}.

(** An [asyncio.Task] created by [eval_strand_expr]: not yet run by the event
    loop (its body and its scope are remembered), or finished with a result
    or with an exception. *)
Inductive Task :=
  | Pending (body : list Statement) (strand_env : addr)
  | Finished (result : Value)
  | Failed (e : exn).

Record state := {
  heap : list Environment;
  tasks : list Task;
  stdout : list (list Value)
}.

Definition with_heap (h : list Environment) (st : state) : state :=
  {| heap := h; tasks := tasks st; stdout := stdout st |}.

Definition with_tasks (ts : list Task) (st : state) : state :=
  {| heap := heap st; tasks := ts; stdout := stdout st |}.

Definition with_stdout (o : list (list Value)) (st : state) : state :=
  {| heap := heap st; tasks := tasks st; stdout := o |}.

(** ** Outcomes and the evaluator's monad *)

(** How a piece of evaluation ends.
    - [Ret a]: it returns [a];
    - [Raise e]: the Python exception [e] propagates;
    - [Suspend t]: the coroutine awaits task [t], which has not finished;
      from here on the event loop decides what runs, and the model stops;
    - [OutOfFuel]: the fuel given to the model ran out;
    - [Unmodelled]: the host does something this development has no
      definition for (an attribute of a host object, the text of a float). *)
Inductive res (A : Type) :=
  | Ret (a : A)
  | Raise (e : exn)
  | Suspend (t : nat)
  | OutOfFuel
  | Unmodelled.
Arguments Ret {A} a.
Arguments Raise {A} e.
Arguments Suspend {A} t.
Arguments OutOfFuel {A}.
Arguments Unmodelled {A}.

Definition M (A : Type) : Type := state -> res A * state.

Definition ret {A} (a : A) : M A := fun st => (Ret a, st).

Definition raise {A} (e : exn) : M A := fun st => (Raise e, st).

Definition lift {A} (r : res A) : M A := fun st => (r, st).

(** Change the type of an outcome that is not [Ret]. *)
Definition cast {A B} (r : res A) : res B :=
  match r with
  | Ret _ => Unmodelled
  | Raise e => Raise e
  | Suspend t => Suspend t
  | OutOfFuel => OutOfFuel
  | Unmodelled => Unmodelled
  end.

Definition bind {A B} (c : M A) (k : A -> M B) : M B :=
  fun st =>
    match c st with
    | (Ret a, st1) => k a st1
    | (r, st1) => (cast r, st1)
    end.

Notation "'let*' x ':=' c 'in' k" := (bind c (fun x => k))
  (at level 10, x name, c at level 200, k at level 200).

(** [try: c  except Exception as e: h e]. *)
Definition try_except {A} (c : M A) (h : exn -> M A) : M A :=
  fun st =>
    match c st with
    | (Raise e, st1) => h e st1
    | other => other
    end.

(** [try: c  finally: f].  The [finally] suite runs once [c] has returned or
    raised; if it completes, the outcome of [c] stands, otherwise its own
    outcome takes over. *)
Definition try_finally {A} (c : M A) (f : M unit) : M A :=
  fun st =>
    match c st with
    | (Ret a, st1) =>
        match f st1 with
        | (Ret _, st2) => (Ret a, st2)
        | (r, st2) => (cast r, st2)
        end
    | (Raise e, st1) =>
        match f st1 with
        | (Ret _, st2) => (Raise e, st2)
        | (r, st2) => (cast r, st2)
        end
    | other => other
    end.

(** The same sequencing for host operations, which touch no state. *)
Definition rbind {A B} (r : res A) (k : A -> res B) : res B :=
  match r with
  | Ret a => k a
  | other => cast other
  end.

Notation "'let+' x ':=' r 'in' k" := (rbind r (fun x => k))
  (at level 10, x name, r at level 200, k at level 200).

(** ** The host: Python's operations on values

    [eval_binary_expr] and its siblings hand their operands to Python's own
    operators.  This module defines those operators on the values above.
    Where the host's answer depends on something the value model does not
    carry (the identity of two function objects, printf-style [%] on strings,
    the remainder of floats, ordering after conversion of text), the result is
    [Unmodelled].  Exhaustion of host resources ([MemoryError],
    [RecursionError]) is not modelled. *)
Module Py.

(** [bool(v)], the test behind [if v:], [while v:], [not v], [v and w]. *)
Definition truthy (v : Value) : bool :=
  match v with
  | VNone => false
  | VBool b => b
  | VInt z => negb (z =? 0)
  | VFloat f => negb (PrimFloat.eqb f PrimFloat.zero)
  | VStr s => negb (String.eqb s "")
  | VList items => negb (Nat.eqb (length items) 0)
  | VDict entries => negb (Nat.eqb (length entries) 0)
  | VTuple items => negb (Nat.eqb (length items) 0)
  | VRange start stop => start <? stop
  | VFunc _ | VBuiltin _ | VStrand _ | VTask _ | VExn _ => true
  end.

(** [v and w], [v or w] on operands already evaluated, and [not v]. *)
Definition and_ (v w : Value) : Value := if truthy v then w else v.
Definition or_ (v w : Value) : Value := if truthy v then v else w.
Definition not_ (v : Value) : Value := VBool (negb (truthy v)).

(** [v is None]. *)
Definition is_none (v : Value) : bool :=
  match v with VNone => true | _ => false end.

(** *** Numbers *)

Inductive num := NInt (z : Z) | NFloat (f : float).

(** [bool] is a subclass of [int]. *)
Definition as_num (v : Value) : option num :=
  match v with
  | VBool b => Some (NInt (if b then 1 else 0))
  | VInt z => Some (NInt z)
  | VFloat f => Some (NFloat f)
  | _ => None
  end.

(** Objects with [__index__]. *)
Definition as_index (v : Value) : option Z :=
  match v with
  | VBool b => Some (if b then 1 else 0)
  | VInt z => Some z
  | _ => None
  end.

(** [float(z)]: round to nearest even, [OverflowError] beyond the range. *)
Definition Z_to_float (z : Z) : res float :=
  let f := SF2Prim (binary_normalize prec emax z 0 false) in
  if PrimFloat.is_infinity f then Raise (PyExc OverflowError) else Ret f.

Definition to_float (a : num) : res float :=
  match a with
  | NInt z => Z_to_float z
  | NFloat f => Ret f
  end.

Definition arith (fi : Z -> Z -> Z) (ff : float -> float -> float)
    (a b : num) : res Value :=
  match a, b with
  | NInt x, NInt y => Ret (VInt (fi x y))
  | _, _ =>
      let+ x := to_float a in
      let+ y := to_float b in
      Ret (VFloat (ff x y))
  end.

Definition Z_to_SF (z : Z) : spec_float :=
  match z with
  | Z0 => S754_zero false
  | Zpos p => S754_finite false p 0
  | Zneg p => S754_finite true p 0
  end.

(** [a / b]: true division always yields a float; for two ints the quotient
    is rounded once. *)
Definition num_truediv (a b : num) : res Value :=
  match a, b with
  | NInt x, NInt y =>
      if y =? 0 then Raise (PyExc ZeroDivisionError)
      else
        let f := SF2Prim (SFdiv prec emax (Z_to_SF x) (Z_to_SF y)) in
        if PrimFloat.is_infinity f then Raise (PyExc OverflowError)
        else Ret (VFloat f)
  | _, _ =>
      let+ x := to_float a in
      let+ y := to_float b in
      if PrimFloat.eqb y PrimFloat.zero then Raise (PyExc ZeroDivisionError)
      else Ret (VFloat (PrimFloat.div x y))
  end.

(** [a % b] on ints is the floored remainder, the sign of the divisor. *)
Definition num_mod (a b : num) : res Value :=
  match a, b with
  | NInt x, NInt y =>
      if y =? 0 then Raise (PyExc ZeroDivisionError) else Ret (VInt (x mod y))
  | _, _ => Unmodelled
  end.

(** Exact comparison of an int with a float; [None] when the float is NaN. *)
Definition Z_float_compare (z : Z) (f : float) : option comparison :=
  match Prim2SF f with
  | S754_nan => None
  | S754_infinity s => Some (if s then Gt else Lt)
  | S754_zero _ => Some (z ?= 0)
  | S754_finite s m e =>
      let mz := if s then Z.neg m else Z.pos m in
      if 0 <=? e then Some (z ?= mz * 2 ^ e)
      else Some (z * 2 ^ (- e) ?= mz)
  end.

Definition num_compare (a b : num) : option comparison :=
  match a, b with
  | NInt x, NInt y => Some (x ?= y)
  | NInt x, NFloat g => Z_float_compare x g
  | NFloat f, NInt y => CompOpp <$> Z_float_compare y f
  | NFloat f, NFloat g =>
      match PrimFloat.compare f g with
      | FEq => Some Eq
      | FLt => Some Lt
      | FGt => Some Gt
      | FNotComparable => None
      end
  end.

(** The four ordering operators. *)
Inductive ordop := OLt | OGt | OLe | OGe.

Definition holds (op : ordop) (c : option comparison) : bool :=
  match op, c with
  | OLt, Some Lt => true
  | OGt, Some Gt => true
  | OLe, Some (Lt | Eq) => true
  | OGe, Some (Gt | Eq) => true
  | _, _ => false
  end.

Definition is_nan (v : Value) : bool :=
  match v with
  | VFloat f => PrimFloat.is_nan f
  | _ => false
  end.

Definition range_len (start stop : Z) : Z := Z.max 0 (stop - start).

(** *** Equality *)

(** [v == w].  Inside a container Python first asks whether the two elements
    are the same object; the only values for which that changes the answer
    are NaN floats, and for them the answer is left open.  Two function
    objects, or two exception objects, compare by identity, which the value
    model does not carry. *)
Fixpoint eq (v w : Value) {struct v} : res bool :=
  match as_num v, as_num w with
  | Some a, Some b => Ret (bool_decide (num_compare a b = Some Eq))
  | _, _ =>
    match v, w with
    | VNone, VNone => Ret true
    | VStr s, VStr t => Ret (String.eqb s t)
    | VList l, VList m =>
        if negb (Nat.eqb (length l) (length m)) then Ret false
        else
          (fix go (l m : list Value) {struct l} : res bool :=
             match l, m with
             | x :: l', y :: m' =>
                 let+ b :=
                   (if is_nan x && is_nan y then Unmodelled else eq x y) in
                 if b then go l' m' else Ret false
             | _, _ => Ret true
             end) l m
    | VTuple l, VTuple m =>
        if negb (Nat.eqb (length l) (length m)) then Ret false
        else
          (fix go (l m : list Value) {struct l} : res bool :=
             match l, m with
             | x :: l', y :: m' =>
                 let+ b :=
                   (if is_nan x && is_nan y then Unmodelled else eq x y) in
                 if b then go l' m' else Ret false
             | _, _ => Ret true
             end) l m
    | VDict d, VDict d' =>
        if negb (Nat.eqb (length d) (length d')) then Ret false
        else
          (fix go (d : list (string * Value)) {struct d} : res bool :=
             match d with
             | (k, x) :: rest =>
                 match list_find (fun kv => String.eqb (fst kv) k) d' with
                 | Some (_, (_, y)) =>
                     let+ b :=
                       (if is_nan x && is_nan y then Unmodelled else eq x y) in
                     if b then go rest else Ret false
                 | None => Ret false
                 end
             | [] => Ret true
             end) d
    | VRange a b, VRange c d =>
        Ret ((range_len a b =? range_len c d)
             && ((range_len a b =? 0) || (a =? c)))
    | VBuiltin b, VBuiltin b' =>
        Ret (match b, b' with
             | Bprint, Bprint | Brange, Brange | Blen, Blen
             | Bstr, Bstr | Bint, Bint | Bfloat, Bfloat => true
             | _, _ => false
             end)
    | VStrand t, VStrand t' => Ret (Nat.eqb t t')
    | VTask t, VTask t' => Ret (Nat.eqb t t')
    | VFunc _, VFunc _ => Unmodelled
    | VExn _, VExn _ => Unmodelled
    | _, _ => Ret false
    end
  end.

Definition ne (v w : Value) : res bool :=
  let+ b := eq v w in Ret (negb b).

(** *** Ordering: [<], [>], [<=], [>=] *)

Fixpoint ord (op : ordop) (v w : Value) {struct v} : res bool :=
  match as_num v, as_num w with
  | Some a, Some b => Ret (holds op (num_compare a b))
  | _, _ =>
    match v, w with
    | VStr s, VStr t => Ret (holds op (Some (String.compare s t)))
    | VList l, VList m =>
        (fix go (l m : list Value) {struct l} : res bool :=
           match l, m with
           | x :: l', y :: m' =>
               let+ b :=
                 (if is_nan x && is_nan y then Unmodelled else eq x y) in
               if b then go l' m' else ord op x y
           | [], [] => Ret (holds op (Some Eq))
           | [], _ :: _ => Ret (holds op (Some Lt))
           | _ :: _, [] => Ret (holds op (Some Gt))
           end) l m
    | VTuple l, VTuple m =>
        (fix go (l m : list Value) {struct l} : res bool :=
           match l, m with
           | x :: l', y :: m' =>
               let+ b :=
                 (if is_nan x && is_nan y then Unmodelled else eq x y) in
               if b then go l' m' else ord op x y
           | [], [] => Ret (holds op (Some Eq))
           | [], _ :: _ => Ret (holds op (Some Lt))
           | _ :: _, [] => Ret (holds op (Some Gt))
           end) l m
    | _, _ => Raise (PyExc TypeError)
    end
  end.

(** *** Arithmetic *)

Fixpoint str_repeat (n : nat) (s : string) : string :=
  match n with
  | O => ""
  | S n' => s +:+ str_repeat n' s
  end.

Fixpoint list_repeat (n : nat) (l : list Value) : list Value :=
  match n with
  | O => []
  | S n' => l ++ list_repeat n' l
  end.

Definition add (v w : Value) : res Value :=
  match as_num v, as_num w with
  | Some a, Some b => arith Z.add PrimFloat.add a b
  | _, _ =>
    match v, w with
    | VStr s, VStr t => Ret (VStr (s +:+ t))
    | VList l, VList m => Ret (VList (l ++ m))
    | VTuple l, VTuple m => Ret (VTuple (l ++ m))
    | _, _ => Raise (PyExc TypeError)
    end
  end.

Definition sub (v w : Value) : res Value :=
  match as_num v, as_num w with
  | Some a, Some b => arith Z.sub PrimFloat.sub a b
  | _, _ => Raise (PyExc TypeError)
  end.

(** A sequence times an int repeats the sequence. *)
Definition repeat_seq (seq : Value) (n : Z) : res Value :=
  match seq with
  | VStr s => Ret (VStr (str_repeat (Z.to_nat n) s))
  | VList l => Ret (VList (list_repeat (Z.to_nat n) l))
  | VTuple l => Ret (VTuple (list_repeat (Z.to_nat n) l))
  | _ => Raise (PyExc TypeError)
  end.

Definition mul (v w : Value) : res Value :=
  match as_num v, as_num w with
  | Some a, Some b => arith Z.mul PrimFloat.mul a b
  | _, _ =>
    match as_index v, as_index w with
    | _, Some n => repeat_seq v n
    | Some n, _ => repeat_seq w n
    | _, _ => Raise (PyExc TypeError)
    end
  end.

Definition truediv (v w : Value) : res Value :=
  match as_num v, as_num w with
  | Some a, Some b => num_truediv a b
  | _, _ => Raise (PyExc TypeError)
  end.

(** [v % w]; on a string left operand [%] is text formatting. *)
Definition mod_ (v w : Value) : res Value :=
  match v with
  | VStr _ => Unmodelled
  | _ =>
    match as_num v, as_num w with
    | Some a, Some b => num_mod a b
    | _, _ => Raise (PyExc TypeError)
    end
  end.

Definition neg (v : Value) : res Value :=
  match as_num v with
  | Some (NInt z) => Ret (VInt (- z))
  | Some (NFloat f) => Ret (VFloat (PrimFloat.opp f))
  | None => Raise (PyExc TypeError)
  end.

Definition pos (v : Value) : res Value :=
  match as_num v with
  | Some (NInt z) => Ret (VInt z)
  | Some (NFloat f) => Ret (VFloat f)
  | None => Raise (PyExc TypeError)
  end.

(** *** Containers *)

Definition chars (s : string) : list Value :=
  (fun c => VStr (String c "")) <$> String.list_ascii_of_string s.

Definition range_items (start stop : Z) : list Value :=
  (fun i => VInt (start + Z.of_nat i)) <$> seq 0 (Z.to_nat (stop - start)).

(** The elements a [for] loop draws from [v]. *)
Definition iter (v : Value) : res (list Value) :=
  match v with
  | VList l => Ret l
  | VTuple l => Ret l
  | VStr s => Ret (chars s)
  | VDict d => Ret ((fun kv => VStr (fst kv)) <$> d)
  | VRange a b => Ret (range_items a b)
  | _ => Raise (PyExc TypeError)
  end.

(** [seq[i]] for a sequence given as the list of its elements. *)
Definition seq_item (l : list Value) (i : Z) : res Value :=
  let n := Z.of_nat (length l) in
  let j := if i <? 0 then i + n else i in
  if (j <? 0) || (n <=? j) then Raise (PyExc IndexError)
  else
    match l !! Z.to_nat j with
    | Some x => Ret x
    | None => Raise (PyExc IndexError)
    end.

Fixpoint hashable (v : Value) : bool :=
  match v with
  | VList _ | VDict _ => false
  | VTuple l =>
      (fix all (l : list Value) : bool :=
         match l with
         | [] => true
         | x :: l' => hashable x && all l'
         end) l
  | _ => true
  end.

(** [d.get(k)] on a dict: the value, or [None]. *)
Definition dict_get (d : list (string * Value)) (k : string) : option Value :=
  (fun r => snd (snd r)) <$> list_find (fun kv => String.eqb (fst kv) k) d.

(** [d[k] = x]: an existing key keeps its place, a new one goes last. *)
Fixpoint dict_set (d : list (string * Value)) (k : string) (x : Value)
    : list (string * Value) :=
  match d with
  | [] => [(k, x)]
  | (k', y) :: rest =>
      if String.eqb k' k then (k', x) :: rest else (k', y) :: dict_set rest k x
  end.

(** [obj[index]]. *)
Definition getitem (obj index : Value) : res Value :=
  match obj with
  | VList l | VTuple l =>
      match as_index index with
      | Some i => seq_item l i
      | None => Raise (PyExc TypeError)
      end
  | VStr s =>
      match as_index index with
      | Some i => seq_item (chars s) i
      | None => Raise (PyExc TypeError)
      end
  | VRange a b =>
      match as_index index with
      | Some i =>
          let n := range_len a b in
          let j := if i <? 0 then i + n else i in
          if (j <? 0) || (n <=? j) then Raise (PyExc IndexError)
          else Ret (VInt (a + j))
      | None => Raise (PyExc TypeError)
      end
  | VDict d =>
      if negb (hashable index) then Raise (PyExc TypeError)
      else
        match index with
        | VStr k =>
            match dict_get d k with
            | Some x => Ret x
            | None => Raise (PyExc KeyError)
            end
        | _ => Raise (PyExc KeyError)
        end
  | _ => Raise (PyExc TypeError)
  end.

(** [getattr(obj, name)] on an object that is not a dict.  The attributes of
    the classes of [evaluator.py] that hold a value are spelled out:
    [FloStrand.task], [FloFunction.name], [ReturnValue.value].  Everything
    else (methods, attributes of host types) is outside the model. *)
Definition getattr (obj : Value) (name : string) : res Value :=
  match obj with
  | VStrand t => if String.eqb name "task" then Ret (VTask t) else Unmodelled
  | VFunc f =>
      if String.eqb name "name" then Ret (VStr (func_name f)) else Unmodelled
  | VExn (ReturnValue v) =>
      if String.eqb name "value" then Ret v else Unmodelled
  | _ => Unmodelled
  end.

(** [callable(v)]: among the values, only the builtins; [FloFunction] and
    [FloStrand] define no [__call__]. *)
Definition callable (v : Value) : bool :=
  match v with
  | VBuiltin _ => true
  | _ => false
  end.

(** [asyncio.iscoroutine(v) or asyncio.isfuture(v)]. *)
Definition awaitable (v : Value) : bool :=
  match v with
  | VTask _ => true
  | _ => false
  end.

(** *** The builtins of [setup_builtins], applied to [args] *)

Definition maxsize : Z := 2 ^ 63 - 1.

Definition len (x : Value) : res Value :=
  match x with
  | VStr s => Ret (VInt (Z.of_nat (String.length s)))
  | VList l | VTuple l => Ret (VInt (Z.of_nat (length l)))
  | VDict d => Ret (VInt (Z.of_nat (length d)))
  | VRange a b =>
      if maxsize <? range_len a b then Raise (PyExc OverflowError)
      else Ret (VInt (range_len a b))
  | _ => Raise (PyExc TypeError)
  end.

Definition range (start stop : Value) : res Value :=
  match as_index start, as_index stop with
  | Some a, Some b => Ret (VRange a b)
  | _, _ => Raise (PyExc TypeError)
  end.

(** [str(x)]: the text Python prints for a number or a container is not
    modelled. *)
Definition str (x : Value) : res Value :=
  match x with
  | VStr s => Ret (VStr s)
  | _ => Unmodelled
  end.

Definition int (x : Value) : res Value :=
  match x with
  | VInt z => Ret (VInt z)
  | VBool b => Ret (VInt (if b then 1 else 0))
  | VFloat _ | VStr _ => Unmodelled
  | _ => Raise (PyExc TypeError)
  end.

Definition float (x : Value) : res Value :=
  match x with
  | VFloat f => Ret (VFloat f)
  | VInt z => let+ f := Z_to_float z in Ret (VFloat f)
  | VBool b => Ret (VFloat (if b then PrimFloat.one else PrimFloat.zero))
  | VStr _ => Unmodelled
  | _ => Raise (PyExc TypeError)
  end.

(** A Python lambda called with the wrong number of arguments raises
    [TypeError]. *)
Definition call_builtin (b : Builtin) (args : list Value) : M Value :=
  match b, args with
  | Bprint, _ =>
      fun st => (Ret VNone, with_stdout (stdout st ++ [args]) st)
  | Brange, [start; stop] => lift (range start stop)
  | Blen, [x] => lift (len x)
  | Bstr, [x] => lift (str x)
  | Bint, [x] => lift (int x)
  | Bfloat, [x] => lift (float x)
  | _, _ => raise (PyExc TypeError)
  end.

End Py.

(** ** [class Environment] ([flo_lang/interpreter/environment.py])

    An [Environment] is a Python object; [self] is its address in the heap.
    The methods that follow the [parent] links recurse once per scope; the
    recursion is bounded by the number of objects in the heap, which is
    enough whenever every parent was allocated before its child. *)
Module Env.

(** [Environment(parent=p)]: a fresh object with empty [bindings] and
    [mutable]. *)
Definition new (p : option addr) : M addr :=
  fun st =>
    (Ret (length (heap st)),
     with_heap (heap st ++ [{| parent := p; bindings := ∅; mutable := ∅ |}]) st).

(** [define(self, name, value, mutable)]. *)
Definition define (self : addr) (name : string) (v : Value) (mut : bool)
    : M unit :=
  fun st =>
    match heap st !! self with
    | None => (Unmodelled, st)
    | Some e =>
        match bindings e !! name with
        | Some _ => (Raise (DuplicateDefinition name), st)
        | None =>
            (Ret tt,
             with_heap
               (<[self := {| parent := parent e;
                             bindings := <[name := v]> (bindings e);
                             mutable := <[name := mut]> (mutable e) |}]>
                  (heap st))
               st)
        end
    end.

Fixpoint get_from (n : nat) (h : list Environment) (self : addr)
    (name : string) : res Value :=
  match n with
  | O => Unmodelled
  | S n' =>
      match h !! self with
      | None => Unmodelled
      | Some e =>
          match bindings e !! name with
          | Some v => Ret v
          | None =>
              match parent e with
              | Some p => get_from n' h p name
              | None => Raise (UndefinedVariable name)
              end
          end
      end
  end.

(** [get(self, name)]. *)
Definition get (self : addr) (name : string) : M Value :=
  fun st => (get_from (length (heap st)) (heap st) self name, st).

Fixpoint set_from (n : nat) (h : list Environment) (self : addr)
    (name : string) (v : Value) : res (list Environment) :=
  match n with
  | O => Unmodelled
  | S n' =>
      match h !! self with
      | None => Unmodelled
      | Some e =>
          match bindings e !! name with
          | Some _ =>
              match mutable e !! name with
              | Some true =>
                  Ret (<[self := {| parent := parent e;
                                    bindings := <[name := v]> (bindings e);
                                    mutable := mutable e |}]> h)
              | Some false => Raise (ImmutableReassignment name)
              | None => Raise (PyExc KeyError)
              end
          | None =>
              match parent e with
              | Some p => set_from n' h p name v
              | None => Raise (UndefinedVariable name)
              end
          end
      end
  end.

(** [set(self, name, value)]. *)
Definition set (self : addr) (name : string) (v : Value) : M unit :=
  fun st =>
    match set_from (length (heap st)) (heap st) self name v with
    | Ret h' => (Ret tt, with_heap h' st)
    | other => (cast other, st)
    end.

Fixpoint has_from (n : nat) (h : list Environment) (self : addr)
    (name : string) : res bool :=
  match n with
  | O => Unmodelled
  | S n' =>
      match h !! self with
      | None => Unmodelled
      | Some e =>
          match bindings e !! name with
          | Some _ => Ret true
          | None =>
              match parent e with
              | Some p => has_from n' h p name
              | None => Ret false
              end
          end
      end
  end.

(** [has(self, name)]. *)
Definition has (self : addr) (name : string) : M bool :=
  fun st => (has_from (length (heap st)) (heap st) self name, st).

End Env.

(** ** [class Evaluator] ([flo_lang/interpreter/evaluator.py])

    Each method is a definition of the same name.  The methods call
    [self.eval] on sub-nodes; here that call is the parameter [ev], which
    [eval] below instantiates with itself at one unit of fuel less. *)

Definition literal_value (l : Literal) : Value :=
  match l with
  | LitInt z => VInt z
  | LitFloat f => VFloat f
  | LitStr s => VStr s
  | LitBool b => VBool b
  | LitNone => VNone
  end.

(** [try: c  except ReturnValue as ret: return ret.value]. *)
Definition catch_return (c : M Value) : M Value :=
  fun st =>
    match c st with
    | (Raise (ReturnValue v), st1) => (Ret v, st1)
    | other => other
    end.

(** [await task]: the result of a finished task, its exception if it failed;
    on a task that has not finished the coroutine suspends. *)
Definition await_task (t : nat) : M Value :=
  fun st =>
    match tasks st !! t with
    | Some (Finished v) => (Ret v, st)
    | Some (Failed e) => (Raise e, st)
    | Some (Pending _ _) => (Suspend t, st)
    | None => (Unmodelled, st)
    end.

(** [asyncio.create_task(strand_body())]. *)
Definition create_task (body : list Statement) (strand_env : addr) : M nat :=
  fun st =>
    (Ret (length (tasks st)),
     with_tasks (tasks st ++ [Pending body strand_env]) st).

(** [match_pattern(pattern, value, env)].  The method returns [True],
    [False], or falls off its end ([None]) for an [OptionPattern] whose
    variant is neither ["None"] nor ["Some"]. *)
Definition match_pattern (pattern : Pattern) (v : Value) (env : addr)
    : M Value :=
  match pattern with
  | LiteralPattern lit =>
      lift (let+ b := Py.eq (literal_value lit) v in Ret (VBool b))
  | VarPattern name =>
      let* _ := Env.define env name v false in
      ret (VBool true)
  | WildcardPattern => ret (VBool true)
  | OptionPattern variant _ =>
      if String.eqb variant "None" then ret (VBool (Py.is_none v))
      else if String.eqb variant "Some" then ret (VBool (negb (Py.is_none v)))
      else ret VNone
  | ResultPattern _ _ => ret (VBool true)
  | ListPattern _ => ret (VBool false)
  end.

Section Methods.

Variable ev : ASTNode -> addr -> M Value.

(** The loop [for stmt in stmts: result = await self.eval(stmt, env)],
    entered with the current value of the local [result]. *)
Fixpoint run_stmts (stmts : list Statement) (env : addr) (result : Value)
    : M Value :=
  match stmts with
  | [] => ret result
  | stmt :: rest =>
      let* r := ev (Stmt stmt) env in
      run_stmts rest env r
  end.

(** [result = None], then the loop. *)
Definition eval_block (stmts : list Statement) (env : addr) : M Value :=
  run_stmts stmts env VNone.

Definition eval_module (statements : list Statement) (env : addr) : M Value :=
  eval_block statements env.

Definition eval_let_decl (name : string) (value : Expr) (env : addr)
    : M Value :=
  let* v := ev (Exp value) env in
  let* _ := Env.define env name v false in
  ret VNone.

Definition eval_var_decl (name : string) (value : Expr) (env : addr)
    : M Value :=
  let* v := ev (Exp value) env in
  let* _ := Env.define env name v true in
  ret VNone.

Definition eval_const_decl (name : string) (value : Expr) (env : addr)
    : M Value :=
  let* v := ev (Exp value) env in
  let* _ := Env.define env name v false in
  ret VNone.

Definition eval_fn_decl (name : string) (params : list Param)
    (body : list Statement) (env : addr) : M Value :=
  let func := {| func_name := name; func_params := params;
                 func_body := body; func_closure := env |} in
  let* _ := Env.define env name (VFunc func) false in
  ret VNone.

Definition eval_return_stmt (value : option Expr) (env : addr) : M Value :=
  let* v := match value with
            | Some e => ev (Exp e) env
            | None => ret VNone
            end in
  raise (ReturnValue v).

Fixpoint bind_params (func_env : addr) (pairs : list (Param * Value))
    : M unit :=
  match pairs with
  | [] => ret tt
  | (param, arg) :: rest =>
      let* _ := Env.define func_env (param_name param) arg false in
      bind_params func_env rest
  end.

Definition call_function (func : Value) (args : list Value) (env : addr)
    : M Value :=
  match func with
  | VFunc f =>
      let* func_env := Env.new (Some (func_closure f)) in
      if negb (Nat.eqb (length args) (length (func_params f))) then
        raise (ArityMismatch (func_name f) (length (func_params f))
                 (length args))
      else
        let* _ := bind_params func_env (zip (func_params f) args) in
        catch_return (eval_block (func_body f) func_env)
  | _ =>
      if Py.callable func then
        match func with
        | VBuiltin b => Py.call_builtin b args
        | _ => lift Unmodelled
        end
      else raise (NotCallable func)
  end.

Definition eval_binary_expr (left : Expr) (op : BinaryOp) (right : Expr)
    (env : addr) : M Value :=
  let* l := ev (Exp left) env in
  let* r := ev (Exp right) env in
  match op with
  | ADD => lift (Py.add l r)
  | SUB => lift (Py.sub l r)
  | MUL => lift (Py.mul l r)
  | DIV => lift (Py.truediv l r)
  | MOD => lift (Py.mod_ l r)
  | EQ => lift (let+ b := Py.eq l r in Ret (VBool b))
  | NEQ => lift (let+ b := Py.ne l r in Ret (VBool b))
  | LT => lift (let+ b := Py.ord Py.OLt l r in Ret (VBool b))
  | GT => lift (let+ b := Py.ord Py.OGt l r in Ret (VBool b))
  | LTE => lift (let+ b := Py.ord Py.OLe l r in Ret (VBool b))
  | GTE => lift (let+ b := Py.ord Py.OGe l r in Ret (VBool b))
  | AND => ret (Py.and_ l r)
  | OR => ret (Py.or_ l r)
  | PIPELINE_FORWARD =>
      if Py.callable r then call_function r [l] env
      else raise (PipelineNotCallable PIPELINE_FORWARD)
  | PIPELINE_BACKWARD =>
      if Py.callable l then call_function l [r] env
      else raise (PipelineNotCallable PIPELINE_BACKWARD)
  end.

Definition eval_unary_expr (op : UnaryOp) (expr : Expr) (env : addr)
    : M Value :=
  let* v := ev (Exp expr) env in
  match op with
  | NEG => lift (Py.neg v)
  | NOT => ret (Py.not_ v)
  | POS => lift (Py.pos v)
  end.

Definition eval_assignment (name : string) (value : Expr) (env : addr)
    : M Value :=
  let* v := ev (Exp value) env in
  let* _ := Env.set env name v in
  ret v.

(** [[await self.eval(e, env) for e in es]]. *)
Fixpoint eval_exprs (es : list Expr) (env : addr) : M (list Value) :=
  match es with
  | [] => ret []
  | e :: rest =>
      let* v := ev (Exp e) env in
      let* vs := eval_exprs rest env in
      ret (v :: vs)
  end.

Definition eval_call (func : Expr) (args : list Expr) (env : addr)
    : M Value :=
  let* f := ev (Exp func) env in
  let* vs := eval_exprs args env in
  call_function f vs env.

Definition eval_list_expr (elements : list Expr) (env : addr) : M Value :=
  let* vs := eval_exprs elements env in
  ret (VList vs).

Fixpoint map_entries (entries : list (string * Expr)) (env : addr)
    (result : list (string * Value)) : M Value :=
  match entries with
  | [] => ret (VDict result)
  | (key, value_expr) :: rest =>
      let* v := ev (Exp value_expr) env in
      map_entries rest env (Py.dict_set result key v)
  end.

Definition eval_map_expr (entries : list (string * Expr)) (env : addr)
    : M Value :=
  map_entries entries env [].

Definition eval_index (expr index : Expr) (env : addr) : M Value :=
  let* obj := ev (Exp expr) env in
  let* i := ev (Exp index) env in
  lift (Py.getitem obj i).

Definition eval_attr (expr : Expr) (name : string) (env : addr) : M Value :=
  let* obj := ev (Exp expr) env in
  match obj with
  | VDict d => ret (default VNone (Py.dict_get d name))
  | _ => lift (Py.getattr obj name)
  end.

(** The [elif] loop and the [else] block of [eval_if_expr];
    [if node.else_block:] is false for [None] and for an empty list. *)
Fixpoint eval_elifs (elif_clauses : list ElifClause)
    (else_block : option (list Statement)) (env : addr) : M Value :=
  match elif_clauses with
  | mkElifClause condition block :: rest =>
      let* cond := ev (Exp condition) env in
      if Py.truthy cond then eval_block block env
      else eval_elifs rest else_block env
  | [] =>
      match else_block with
      | Some (stmt :: stmts) => eval_block (stmt :: stmts) env
      | _ => ret VNone
      end
  end.

Definition eval_if_expr (condition : Expr) (then_block : list Statement)
    (elif_clauses : list ElifClause) (else_block : option (list Statement))
    (env : addr) : M Value :=
  let* cond := ev (Exp condition) env in
  if Py.truthy cond then eval_block then_block env
  else eval_elifs elif_clauses else_block env.

Fixpoint match_arms (arms : list MatchArm) (v : Value) (env : addr)
    : M Value :=
  match arms with
  | mkMatchArm pattern expr :: rest =>
      let* m := match_pattern pattern v env in
      if Py.truthy m then ev (Exp expr) env
      else match_arms rest v env
  | [] => raise (NoMatchError v)
  end.

Definition eval_match_expr (expr : Expr) (arms : list MatchArm) (env : addr)
    : M Value :=
  let* v := ev (Exp expr) env in
  match_arms arms v env.

Fixpoint for_items (var : string) (body : list Statement) (env : addr)
    (items : list Value) (result : Value) : M Value :=
  match items with
  | [] => ret result
  | item :: rest =>
      let* loop_env := Env.new (Some env) in
      let* _ := Env.define loop_env var item false in
      let* r := run_stmts body loop_env result in
      for_items var body env rest r
  end.

Definition eval_for_expr (var : string) (iterable : Expr)
    (body : list Statement) (env : addr) : M Value :=
  let* it := ev (Exp iterable) env in
  let* items := lift (Py.iter it) in
  for_items var body env items VNone.

(** [while True: ...], at most [n] iterations. *)
Fixpoint while_loop (n : nat) (condition : Expr) (body : list Statement)
    (env : addr) (result : Value) : M Value :=
  match n with
  | O => lift OutOfFuel
  | S n' =>
      let* cond := ev (Exp condition) env in
      if negb (Py.truthy cond) then ret result
      else
        let* r := run_stmts body env result in
        while_loop n' condition body env r
  end.

Definition eval_while_expr (n : nat) (condition : Expr)
    (body : list Statement) (env : addr) : M Value :=
  while_loop n condition body env VNone.

(** The [except Exception as e:] suite of [eval_attempt_expr]. *)
Definition rescue_handler (rescue : option RescueClause) (env : addr)
    (e : exn) : M Value :=
  match rescue with
  | Some (mkRescueClause var block) =>
      let* rescue_env := Env.new (Some env) in
      let* _ := Env.define rescue_env var (VExn e) false in
      eval_block block rescue_env
  | None => raise e
  end.

(** The [finally:] suite of [eval_attempt_expr]. *)
Definition finally_suite (finally_clause : option FinallyClause) (env : addr)
    : M unit :=
  match finally_clause with
  | Some (mkFinallyClause block) =>
      let* _ := eval_block block env in
      ret tt
  | None => ret tt
  end.

Definition eval_attempt_expr (body : list Statement)
    (rescue : option RescueClause) (finally_clause : option FinallyClause)
    (env : addr) : M Value :=
  try_finally
    (try_except (eval_block body env) (rescue_handler rescue env))
    (finally_suite finally_clause env).

Definition eval_fn_expr (params : list Param) (body : list Statement)
    (env : addr) : M Value :=
  ret (VFunc {| func_name := "<lambda>"; func_params := params;
                func_body := body; func_closure := env |}).

Definition eval_strand_expr (body : list Statement) (env : addr) : M Value :=
  let* strand_env := Env.new (Some env) in
  let* task := create_task body strand_env in
  ret (VStrand task).

Definition eval_await_expr (expr : Expr) (env : addr) : M Value :=
  let* v := ev (Exp expr) env in
  match v with
  | VStrand task => await_task task
  | _ =>
      if Py.awaitable v then
        match v with
        | VTask task => await_task task
        | _ => lift Unmodelled
        end
      else ret v
  end.

Definition eval_option_expr (variant : string) (value : option Expr)
    (env : addr) : M Value :=
  if String.eqb variant "None" then ret VNone
  else if String.eqb variant "Some" then
    ev (match value with Some e => Exp e | None => NoNode end) env
  else ret VNone.

Definition eval_result_expr (variant : string) (value : Expr) (env : addr)
    : M Value :=
  let* v := ev (Exp value) env in
  if String.eqb variant "Ok" then ret (VTuple [VStr "Ok"; v])
  else if String.eqb variant "Err" then ret (VTuple [VStr "Err"; v])
  else ret VNone.

End Methods.

(** [Evaluator.eval(node, env)]: the dispatch on the class of [node]. *)
Fixpoint eval (fuel : nat) (node : ASTNode) (env : addr) : M Value :=
  match fuel with
  | O => lift OutOfFuel
  | S n =>
      let ev := eval n in
      match node with
      | Module statements => eval_module ev statements env
      | Stmt (LetDecl name value) => eval_let_decl ev name value env
      | Stmt (VarDecl name value) => eval_var_decl ev name value env
      | Stmt (ConstDecl name value) => eval_const_decl ev name value env
      | Stmt (FnDecl name params body) => eval_fn_decl name params body env
      | Stmt (ReturnStmt value) => eval_return_stmt ev value env
      | Stmt (ExprStmt expr) => ev (Exp expr) env
      | Stmt (Import _ _ _ _) => ret VNone
      | Stmt (CapabilityRequest _ _) => ret VNone
      | Exp (IntLiteral value) => ret (VInt value)
      | Exp (FloatLiteral value) => ret (VFloat value)
      | Exp (StringLiteral value) => ret (VStr value)
      | Exp (BoolLiteral value) => ret (VBool value)
      | Exp NilLiteral => ret VNone
      | Exp (VarRef name) => Env.get env name
      | Exp (BinaryExpr lhs op rhs) => eval_binary_expr ev lhs op rhs env
      | Exp (UnaryExpr op expr) => eval_unary_expr ev op expr env
      | Exp (Assignment name value) => eval_assignment ev name value env
      | Exp (Call func args) => eval_call ev func args env
      | Exp (ListExpr elements) => eval_list_expr ev elements env
      | Exp (MapExpr entries) => eval_map_expr ev entries env
      | Exp (Index expr index) => eval_index ev expr index env
      | Exp (Attr expr name) => eval_attr ev expr name env
      | Exp (IfExpr condition then_block elif_clauses else_block) =>
          eval_if_expr ev condition then_block elif_clauses else_block env
      | Exp (MatchExpr expr arms) => eval_match_expr ev expr arms env
      | Exp (ForExpr var iterable body) => eval_for_expr ev var iterable body env
      | Exp (WhileExpr condition body) =>
          eval_while_expr ev n condition body env
      | Exp (AttemptExpr body rescue finally_clause) =>
          eval_attempt_expr ev body rescue finally_clause env
      | Exp (FnExpr params body) => eval_fn_expr params body env
      | Exp (StrandExpr body) => eval_strand_expr body env
      | Exp (AwaitExpr expr) => eval_await_expr ev expr env
      | Exp (OptionExpr variant value) => eval_option_expr ev variant value env
      | Exp (ResultExpr variant value) => eval_result_expr ev variant value env
      | Exp (OptionalChain _ _) => raise (UnknownNode "OptionalChain")
      | NoNode => raise (UnknownNode "NoneType")
      end
  end.

(** [Evaluator.__init__]: the global environment, at address 0, with the
    builtins of [setup_builtins] (each defined with [mutable=False]). *)
Definition global_env : addr := 0%nat.

Definition builtins : list (string * Builtin) :=
  [("print", Bprint); ("range", Brange); ("len", Blen);
   ("str", Bstr); ("int", Bint); ("float", Bfloat)].

Definition global_scope : Environment :=
  {| parent := None;
     bindings :=
       list_to_map ((fun kb => (fst kb, VBuiltin (snd kb))) <$> builtins);
     mutable := list_to_map ((fun kb => (fst kb, false)) <$> builtins) |}.

Definition initial_state : state :=
  {| heap := [global_scope]; tasks := []; stdout := [] |}.

(** The coroutine [evaluator.eval(ast)] of the module-level [eval_module],
    up to its first suspension. *)
Definition run (fuel : nat) (ast : ASTNode) : res Value * state :=
  eval fuel ast global_env initial_state.

(** * The vocabulary of the properties *)

(** ** Fuel and evaluation judgements *)

(** [refines c c']: [c'] agrees with [c] wherever [c] did not run out of
    fuel. *)
Definition refines {A} (c c' : M A) : Prop :=
  ∀ st r st', c st = (r, st') → r ≠ OutOfFuel → c' st = (r, st').

(** The same for two instances of [self.eval]. *)
Definition ev_refines (ev ev' : ASTNode -> addr -> M Value) : Prop :=
  ∀ node env, refines (ev node env) (ev' node env).

(** [converges F st r st']: with enough fuel, the computation [F], which may
    call the evaluator, ends in [r] and leaves the state [st']. *)
Definition converges {A} (F : (ASTNode -> addr -> M Value) -> M A)
    (st : state) (r : res A) (st' : state) : Prop :=
  ∃ fuel, F (eval fuel) st = (r, st') ∧ r ≠ OutOfFuel.

(** [monotone F]: [F] uses its parameter only by calling it. *)
Definition monotone {A} (F : (ASTNode -> addr -> M Value) -> M A) : Prop :=
  ∀ ev ev', ev_refines ev ev' → refines (F ev) (F ev').

(** [node] evaluates in [env], from [st], to [r], leaving [st']. *)
Definition evaluates (node : ASTNode) (env : addr)
    : state -> res Value -> state -> Prop :=
  converges (fun ev => ev node env).

(** The statements of a block evaluate, in order, to [r]. *)
Definition block_evaluates (stmts : list Statement) (env : addr)
    : state -> res Value -> state -> Prop :=
  converges (fun ev => eval_block ev stmts env).

(** The [while True:] loop of [eval_while_expr], entered with [result]. *)
Definition while_converges (c : Expr) (b : list Statement) (env : addr)
    (result : Value) (st : state) (r : res Value) (st' : state) : Prop :=
  ∃ fuel n,
    while_loop (eval fuel) n c b env result st = (r, st') ∧ r ≠ OutOfFuel.

(** The [try:] and [except Exception as e:] suites of [eval_attempt_expr]. *)
Definition try_part (body : list Statement) (rescue : option RescueClause)
    (env : addr) (ev : ASTNode -> addr -> M Value) : M Value :=
  try_except (eval_block ev body env) (rescue_handler ev rescue env).

(** What [try: ... finally: ...] makes of the outcome [r1] of its [try] part
    and the outcome [r2] of its [finally] suite. *)
Definition after_finally {A B} (r1 : res A) (r2 : res B) : res A :=
  match r2 with
  | Ret _ => r1
  | other => cast other
  end.

(** ** Scope chains *)

(** Every scope was allocated after its parent. *)
Definition chain_ok (h : list Environment) : Prop :=
  ∀ a e p, h !! a = Some e → parent e = Some p → (p < a)%nat.

(** [owner h name a o]: walking from scope [a] toward the root, the nearest
    scope whose own [bindings] hold [name] is [o]; [None] when the walk
    reaches the root without finding one. *)
Inductive owner (h : list Environment) (name : string)
    : addr -> option addr -> Prop :=
  | owner_here a e :
      h !! a = Some e → is_Some (bindings e !! name) →
      owner h name a (Some a)
  | owner_up a e p o :
      h !! a = Some e → bindings e !! name = None → parent e = Some p →
      owner h name p o → owner h name a o
  | owner_root a e :
      h !! a = Some e → bindings e !! name = None → parent e = None →
      owner h name a None.

(** The scope [e] with [name] rebound to [v]. *)
Definition rebind (e : Environment) (name : string) (v : Value) : Environment :=
  {| parent := parent e;
     bindings := <[name := v]> (bindings e);
     mutable := mutable e |}.

(** The scope [e] after a successful [define(name, v, mut)]. *)
Definition extend (e : Environment) (name : string) (v : Value) (mut : bool)
    : Environment :=
  {| parent := parent e;
     bindings := <[name := v]> (bindings e);
     mutable := <[name := mut]> (mutable e) |}.

(** ** The design document's readings, and the evaluator's *)

(** The design document's falsy set: [Bool(false)] and [Nil], nothing else. *)
Definition spec_truthy (v : Value) : bool :=
  match v with
  | VBool false | VNone => false
  | _ => true
  end.

(** The values Python's truth test rejects. *)
Inductive falsy : Value -> Prop :=
  | falsy_None : falsy VNone
  | falsy_False : falsy (VBool false)
  | falsy_int_zero : falsy (VInt 0)
  | falsy_float_zero f :
      PrimFloat.eqb f PrimFloat.zero = true → falsy (VFloat f)
  | falsy_empty_str : falsy (VStr "")
  | falsy_empty_list : falsy (VList [])
  | falsy_empty_dict : falsy (VDict [])
  | falsy_empty_tuple : falsy (VTuple [])
  | falsy_empty_range start stop : stop ≤ start → falsy (VRange start stop).

(** [&&] and [||] as the design document has them: the right operand is
    evaluated only when the left one has not settled the result. *)
Definition spec_short_circuits (op : BinaryOp) (left_value : Value) : bool :=
  match op with
  | AND => negb (spec_truthy left_value)
  | OR => spec_truthy left_value
  | _ => false
  end.

(** What [eval_binary_expr] returns for [&&] and [||] from the values of
    both operands. *)
Definition logical (op : BinaryOp) (vl vr : Value) : Value :=
  match op with
  | AND => Py.and_ vl vr
  | _ => Py.or_ vl vr
  end.

(** The tag of a value built by [Ok(e)] or [Err(e)]: [eval_result_expr]
    returns the tuple [("Ok", value)] or [("Err", value)]. *)
Definition result_tag (v : Value) : option string :=
  match v with
  | VTuple [VStr tag; _] =>
      if String.eqb tag "Ok" || String.eqb tag "Err" then Some tag else None
  | _ => None
  end.

(** A Result pattern as the design document has it: it matches the values
    whose tag is the pattern's variant. *)
Definition spec_result_pattern_matches (variant : string) (v : Value) : bool :=
  bool_decide (result_tag v = Some variant).

(** The [finally] clause as the design document has it: an error raised by
    the block takes the place of the exit [r1]; short of an error, whatever
    the block did, the exit stands.  A [ReturnValue] is the signal of a
    [return], not an error. *)
Definition is_error (e : exn) : bool :=
  match e with
  | ReturnValue _ => false
  | _ => true
  end.

Definition spec_after_finally (r1 r2 : res Value) : res Value :=
  match r2 with
  | Raise e => if is_error e then Raise e else r1
  | _ => r1
  end.

(** ** States and programs used as examples *)

(** Two scopes: the global one with [var n := 0] added, at address 0, and a
    child of it, at address 1. *)
Definition two_scopes : state :=
  snd (Env.new (Some global_env)
         (snd (Env.define global_env "n" (VInt 0) true initial_state))).

(** The function [fn f() do attempt do return 1 rescue e do [handler] end end]
    followed by the call [f()]. *)
Definition return_in_attempt (rescue : option RescueClause) : ASTNode :=
  Module
    [FnDecl "f" []
       [ExprStmt (AttemptExpr [ReturnStmt (Some (IntLiteral 1))] rescue None)];
     ExprStmt (Call (VarRef "f") [])].

(** [fn f() do attempt do [body] finally do return 5 end end], then [f()]. *)
Definition return_in_finally (body : list Statement) : ASTNode :=
  Module
    [FnDecl "f" []
       [ExprStmt (AttemptExpr body None
                    (Some (mkFinallyClause [ReturnStmt (Some (IntLiteral 5))])))];
     ExprStmt (Call (VarRef "f") [])].

(** The state after [let s := strand do 1 end] at top level: [s] holds the
    handle of task 0, which the event loop has not run yet. *)
Definition strand_started : state :=
  snd (run 4 (Stmt (LetDecl "s" (StrandExpr [ExprStmt (IntLiteral 1)])))).

(** ** Well-formed stores *)

(** [closed n v]: every closure inside [v] points below [n]. *)
Fixpoint closed (n : nat) (v : Value) {struct v} : Prop :=
  match v with
  | VList l | VTuple l =>
      (fix all (l : list Value) : Prop :=
         match l with
         | [] => True
         | x :: l' => closed n x ∧ all l'
         end) l
  | VDict d =>
      (fix all (d : list (string * Value)) : Prop :=
         match d with
         | [] => True
         | (_, x) :: d' => closed n x ∧ all d'
         end) d
  | VFunc f => (func_closure f < n)%nat
  | VExn e => closed_exn n e
  | _ => True
  end
with closed_exn (n : nat) (e : exn) {struct e} : Prop :=
  match e with
  | ReturnValue v | NotCallable v | NoMatchError v => closed n v
  | _ => True
  end.

(** A task holds a valid scope address, or a closed result. *)
Definition task_ok (n : nat) (t : Task) : Prop :=
  match t with
  | Pending _ strand_env => (strand_env < n)%nat
  | Finished v => closed n v
  | Failed e => closed_exn n e
  end.

(** Every value bound in the scope is closed. *)
Definition scope_ok (n : nat) (e : Environment) : Prop :=
  map_Forall (fun _ v => closed n v) (bindings e).

(** The invariant of the store: parents come first, and every closure held
    in a binding or in a task points into the heap. *)
Record state_ok (st : state) : Prop := {
  ok_chain : chain_ok (heap st);
  ok_scopes : Forall (scope_ok (length (heap st))) (heap st);
  ok_tasks : Forall (task_ok (length (heap st))) (tasks st)
}.

(** An outcome whose value satisfies [P] at heap size [n]. *)
Definition ok_res {A} (P : nat -> A -> Prop) (n : nat) (r : res A) : Prop :=
  match r with
  | Ret a => P n a
  | Raise e => closed_exn n e
  | _ => True
  end.

(** [P] survives the growth of the heap. *)
Definition upward {A} (P : nat -> A -> Prop) : Prop :=
  ∀ n m a, (n ≤ m)%nat → P n a → P m a.

(** [sound n0 c P]: run in a well-formed state whose heap has at least [n0]
    objects, [c] leaves a well-formed state, never shrinks the heap, and its
    outcome satisfies [P]. *)
Definition sound {A} (n0 : nat) (c : M A) (P : nat -> A -> Prop) : Prop :=
  ∀ st r st',
    state_ok st → (n0 ≤ length (heap st))%nat → c st = (r, st') →
    state_ok st' ∧ (length (heap st) ≤ length (heap st'))%nat
    ∧ ok_res P (length (heap st')) r.

(** The postconditions in use: none, a valid address, closed values. *)
Definition anything {A} : nat -> A -> Prop := fun _ _ => True.

Definition below : nat -> addr -> Prop := fun n a => (a < n)%nat.

Definition all_closed : nat -> list Value -> Prop :=
  fun n l => Forall (closed n) l.

(** An outcome that holds no closure at all. *)
Definition plain {A} (P : A -> Prop) (r : res A) : Prop :=
  match r with
  | Ret a => P a
  | Raise e => closed_exn 0 e
  | _ => True
  end.

(** [self.eval] keeps the invariant wherever it is called in a valid scope. *)
Definition ev_sound (ev : ASTNode -> addr -> M Value) : Prop :=
  ∀ node env n0, (env < n0)%nat → sound n0 (ev node env) closed.

(** ** What evaluation leaves in place *)

(** [scope_extends e e']: [e'] is the scope [e] at a later time.  It has the
    same parent; every name bound in [e] is still bound, with the same
    [mutable] flag, and with the same value unless the binding is mutable. *)
Definition scope_extends (e e' : Environment) : Prop :=
  parent e' = parent e ∧
  ∀ name v, bindings e !! name = Some v →
    ∃ v', bindings e' !! name = Some v'
      ∧ mutable e' !! name = mutable e !! name
      ∧ (mutable e !! name ≠ Some true → v' = v).

(** [extends st st']: every scope of [st] is still there, at the same
    address; tasks and printed lines were only added at the end. *)
Record extends (st st' : state) : Prop := {
  ext_heap :
    ∀ (a : addr) e, heap st !! a = Some e →
      ∃ e', heap st' !! a = Some e' ∧ scope_extends e e';
  ext_tasks : tasks st `prefix_of` tasks st';
  ext_stdout : stdout st `prefix_of` stdout st'
}.

(** [grows c]: whatever its outcome, [c] leaves a state that extends the one
    it started from. *)
Definition grows {A} (c : M A) : Prop :=
  ∀ st r st', c st = (r, st') → extends st st'.

Definition ev_grows (ev : ASTNode -> addr -> M Value) : Prop :=
  ∀ node env, grows (ev node env).

(** ** Scopes the evaluator creates *)

(** A fresh child of the scope at [p]. *)
Definition child_scope (p : addr) : Environment :=
  {| parent := Some p; bindings := ∅; mutable := ∅ |}.

(** A child of the scope at [p] with the one immutable binding of [name] to
    [v]: the scope of one iteration of a [for] loop, and of a rescue
    block. *)
Definition scope_with (p : addr) (name : string) (v : Value) : Environment :=
  {| parent := Some p; bindings := {[name := v]}; mutable := {[name := false]} |}.

(** The scope of a call of [f] with [args]: a child of the closure of [f] in
    which every parameter is bound, immutably, to its argument. *)
Definition call_scope (f : FloFunction) (args : list Value) : Environment :=
  let bound : gmap string Value :=
    list_to_map (zip (param_name <$> func_params f) args) in
  {| parent := Some (func_closure f);
     bindings := bound;
     mutable := (fun _ => false) <$> bound |}.

(** The state [st] with one more scope at the end of its heap. *)
Definition allocate (e : Environment) (st : state) : state :=
  with_heap (heap st ++ [e]) st.

(** What a call makes of the outcome of the function's body: [return v]
    inside the body is the value [v] of the call. *)
Definition returned (r : res Value) : res Value :=
  match r with
  | Raise (ReturnValue v) => Ret v
  | other => other
  end.

(** ** Match arms *)

(** The arm's pattern does not accept [v]: [match_pattern] answers with a
    falsy value, and leaves the state as it is. *)
Definition declines (v : Value) (env : addr) (st : state) (arm : MatchArm)
    : Prop :=
  match arm with
  | mkMatchArm p _ =>
      ∃ m, match_pattern p v env st = (Ret m, st) ∧ Py.truthy m = false
  end.

(** ** String tokens in [class FloTransformer] ([flo_lang/parser/parser.py])

    The two methods of the transformer that compute on the text of a token:
    [string_lit], which strips the quotes of a string literal and decodes its
    escape sequences, and [map_entry], which strips the quotes of a map key.
    A token is the string [str(items[0])]. *)
Module Parser.

(** The characters the two methods name (backslash, the letters n and t,
    the double and the single quote), and the newline and the tab that the
    escapes stand for. *)
Definition backslash : Ascii.ascii := Eval cbv in Ascii.ascii_of_nat 92.
Definition letter_n : Ascii.ascii := Eval cbv in Ascii.ascii_of_nat 110.
Definition letter_t : Ascii.ascii := Eval cbv in Ascii.ascii_of_nat 116.
Definition dquote : Ascii.ascii := Eval cbv in Ascii.ascii_of_nat 34.
Definition squote : Ascii.ascii := Eval cbv in Ascii.ascii_of_nat 39.
Definition newline : Ascii.ascii := Eval cbv in Ascii.ascii_of_nat 10.
Definition tab : Ascii.ascii := Eval cbv in Ascii.ascii_of_nat 9.

(** [s[:-1]]. *)
Fixpoint drop_last (s : string) : string :=
  match s with
  | String c (String _ _ as s') => String c (drop_last s')
  | _ => ""
  end.

(** [s[1:-1]]: without its first and its last character; empty for a string
    of fewer than two characters. *)
Definition inner (s : string) : string :=
  match s with
  | String _ s' => drop_last s'
  | "" => ""
  end.

(** [s.startswith(q)] for [q] the double or the single quote. *)
Definition quoted (s : string) : bool :=
  match s with
  | String c _ => Ascii.eqb c dquote || Ascii.eqb c squote
  | "" => false
  end.

(** [s.replace(old, new)] for [old] the two characters [a b]: the
    occurrences of [old] are found from the left, without overlap, and each
    is replaced by [new]. *)
Fixpoint replace (a b : Ascii.ascii) (new : string) (s : string) : string :=
  match s with
  | String c s' =>
      match s' with
      | String d s'' =>
          if Ascii.eqb c a && Ascii.eqb d b then new +:+ replace a b new s''
          else String c (replace a b new s')
      | "" => String c ""
      end
  | "" => ""
  end.

(** The chain of four [replace] calls of [string_lit]. *)
Definition unescape (value : string) : string :=
  replace backslash squote (String squote "")
    (replace backslash dquote (String dquote "")
       (replace backslash letter_t (String tab "")
          (replace backslash letter_n (String newline "") value))).

(** [string_lit(items)] on the token [items[0]]. *)
Definition string_lit (token : string) : Expr :=
  let value := if quoted token then inner token else token in
  StringLiteral (unescape value).

(** [map_entry(items)] on the token [items[0]] and the expression
    [items[1]]. *)
Definition map_entry (token : string) (value : Expr) : string * Expr :=
  let key := if quoted token then inner token else token in
  (key, value).

End Parser.

(** A text without backslash. *)
Fixpoint plain_text (s : string) : bool :=
  match s with
  | String c s' => negb (Ascii.eqb c Parser.backslash) && plain_text s'
  | "" => true
  end.

(** The escape sequences [string_lit] decodes: the character after the
    backslash, and the character the pair stands for. *)
Definition escapes : list (Ascii.ascii * Ascii.ascii) :=
  [(Parser.letter_n, Parser.newline); (Parser.letter_t, Parser.tab);
   (Parser.dquote, Parser.dquote); (Parser.squote, Parser.squote)].

(** * Properties *)

(** ** Fuel

    More fuel never changes an outcome other than [OutOfFuel].  The argument
    is compositional: [refines c c'] says that [c'] agrees with [c] wherever
    [c] did not run out of fuel, every combinator of the monad preserves it,
    and so does every method of the evaluator in its parameter [ev]. *)

Lemma refines_refl {A} (c : M A) : refines c c.
Proof. by intros st r st' H _. Qed.

Lemma refines_bind {A B} (c c' : M A) (k k' : A -> M B) :
  refines c c' → (∀ a, refines (k a) (k' a)) → refines (bind c k) (bind c' k').
Proof.
  intros Hc Hk st r st'. unfold bind.
  destruct (c st) as [rc st1] eqn:E.
  destruct rc; intros H Hr;
    try (rewrite (Hc _ _ _ E) by discriminate; simpl in *; first [by apply Hk | done]).
  simpl in H. by simplify_eq.
Qed.

Lemma refines_try_except {A} (c c' : M A) (h h' : exn -> M A) :
  refines c c' → (∀ e, refines (h e) (h' e)) →
  refines (try_except c h) (try_except c' h').
Proof.
  intros Hc Hh st r st'. unfold try_except.
  destruct (c st) as [rc st1] eqn:E.
  destruct rc; intros H Hr;
    try (rewrite (Hc _ _ _ E) by discriminate; simpl in *; first [by apply Hh | done]).
  by simplify_eq.
Qed.

Lemma refines_catch_return (c c' : M Value) :
  refines c c' → refines (catch_return c) (catch_return c').
Proof.
  intros Hc st r st'. unfold catch_return.
  destruct (c st) as [rc st1] eqn:E.
  destruct rc; intros H Hr;
    try (rewrite (Hc _ _ _ E) by discriminate; done).
  by simplify_eq.
Qed.

Lemma refines_try_finally {A} (c c' : M A) (f f' : M unit) :
  refines c c' → refines f f' →
  refines (try_finally c f) (try_finally c' f').
Proof.
  intros Hc Hf st r st'. unfold try_finally.
  destruct (c st) as [rc st1] eqn:E.
  destruct rc; intros H Hr;
    try (rewrite (Hc _ _ _ E) by discriminate);
    try (by simplify_eq);
    destruct (f st1) as [rf st2] eqn:F;
    destruct rf; simplify_eq; simpl in *;
    try done; by rewrite (Hf _ _ _ F).
Qed.

Create HintDb mono.

#[local] Hint Resolve refines_refl refines_bind refines_try_except
  refines_catch_return refines_try_finally : mono.

(** Unfolds a method and discharges the refinement between its two
    instances by following the monadic structure. *)
Ltac mono_step :=
  match goal with
  | |- refines (bind _ _) (bind _ _) => apply refines_bind; [| intros ?]
  | |- refines (try_except _ _) (try_except _ _) =>
      apply refines_try_except; [| intros ?]
  | |- refines (try_finally _ _) (try_finally _ _) => apply refines_try_finally
  | |- refines (catch_return _) (catch_return _) => apply refines_catch_return
  | |- refines (if ?b then _ else _) (if ?b then _ else _) => destruct b
  | |- refines (match ?x with _ => _ end) (match ?x with _ => _ end) =>
      destruct x
  | |- refines ?c ?c => apply refines_refl
  | H : ev_refines ?ev ?ev' |- refines (?ev _ _) (?ev' _ _) => apply H
  end.

Ltac mono := repeat mono_step; eauto with mono.

Section Mono.

Variables ev ev' : ASTNode -> addr -> M Value.
Hypothesis Hev : ev_refines ev ev'.

Lemma run_stmts_mono stmts env result :
  refines (run_stmts ev stmts env result) (run_stmts ev' stmts env result).
Proof. revert result. induction stmts; intros; simpl; mono. Qed.

Lemma eval_block_mono stmts env :
  refines (eval_block ev stmts env) (eval_block ev' stmts env).
Proof. apply run_stmts_mono. Qed.

Lemma eval_exprs_mono es env :
  refines (eval_exprs ev es env) (eval_exprs ev' es env).
Proof. induction es; simpl; mono. Qed.

Lemma map_entries_mono entries env result :
  refines (map_entries ev entries env result)
          (map_entries ev' entries env result).
Proof.
  revert result. induction entries as [|[k e] rest IH]; intros; simpl; mono.
Qed.

Hint Resolve run_stmts_mono eval_block_mono eval_exprs_mono
  map_entries_mono : mono.

Lemma call_function_mono func args env :
  refines (call_function ev func args env) (call_function ev' func args env).
Proof. unfold call_function. mono. Qed.

Hint Resolve call_function_mono : mono.

Lemma eval_elifs_mono clauses else_block env :
  refines (eval_elifs ev clauses else_block env)
          (eval_elifs ev' clauses else_block env).
Proof. induction clauses as [|[c b] rest IH]; simpl; mono. Qed.

Lemma match_arms_mono arms v env :
  refines (match_arms ev arms v env) (match_arms ev' arms v env).
Proof. induction arms as [|[p e] rest IH]; simpl; mono. Qed.

Lemma for_items_mono var body env items result :
  refines (for_items ev var body env items result)
          (for_items ev' var body env items result).
Proof. revert result. induction items; intros; simpl; mono. Qed.

Lemma while_loop_mono n m condition body env result :
  (n ≤ m)%nat →
  refines (while_loop ev n condition body env result)
          (while_loop ev' m condition body env result).
Proof.
  revert m result. induction n as [|n IH]; intros m result Hle.
  - by intros st r st' [= <- <-].
  - destruct m as [|m]; [lia|]. simpl. mono. apply IH. lia.
Qed.

Hint Resolve eval_elifs_mono match_arms_mono for_items_mono : mono.

Lemma rescue_handler_mono rescue env e :
  refines (rescue_handler ev rescue env e) (rescue_handler ev' rescue env e).
Proof. unfold rescue_handler. mono. Qed.

Lemma finally_suite_mono finally_clause env :
  refines (finally_suite ev finally_clause env)
          (finally_suite ev' finally_clause env).
Proof. unfold finally_suite. mono. Qed.

Hint Resolve rescue_handler_mono finally_suite_mono : mono.

Lemma try_part_mono body rescue env :
  refines (try_except (eval_block ev body env) (rescue_handler ev rescue env))
          (try_except (eval_block ev' body env) (rescue_handler ev' rescue env)).
Proof. mono. Qed.

End Mono.

#[local] Hint Resolve run_stmts_mono eval_block_mono eval_exprs_mono
  map_entries_mono call_function_mono eval_elifs_mono match_arms_mono
  for_items_mono rescue_handler_mono finally_suite_mono try_part_mono : mono.

Lemma eval_mono_S n : ev_refines (eval n) (eval (S n)).
Proof.
  induction n as [|n IH]; intros node env.
  - by intros st r st' [= <- <-].
  - destruct node as [statements|s|e|]; [| destruct s | destruct e |];
      simpl;
      unfold eval_module, eval_let_decl, eval_var_decl, eval_const_decl,
        eval_fn_decl, eval_return_stmt, eval_binary_expr, eval_unary_expr,
        eval_assignment, eval_call, eval_list_expr, eval_map_expr, eval_index,
        eval_attr, eval_if_expr, eval_match_expr, eval_for_expr,
        eval_while_expr, eval_attempt_expr, eval_fn_expr, eval_strand_expr,
        eval_await_expr, eval_option_expr, eval_result_expr;
      mono.
    apply while_loop_mono; [done | lia].
Qed.

Lemma eval_mono n m : (n ≤ m)%nat → ev_refines (eval n) (eval m).
Proof.
  induction 1 as [|m _ IH]; intros node env; [apply refines_refl|].
  intros st r st' H Hr. apply eval_mono_S; [|done]. by apply IH.
Qed.

(** ** Evaluation judgements *)

Lemma converges_more {A} (F : (ASTNode -> addr -> M Value) -> M A)
    n m st r st' :
  monotone F → (n ≤ m)%nat →
  F (eval n) st = (r, st') → r ≠ OutOfFuel → F (eval m) st = (r, st').
Proof. intros HF Hle. by apply HF, eval_mono. Qed.

Lemma converges_det {A} (F : (ASTNode -> addr -> M Value) -> M A)
    st r1 st1 r2 st2 :
  monotone F →
  converges F st r1 st1 → converges F st r2 st2 → r1 = r2 ∧ st1 = st2.
Proof.
  intros HF (n1 & H1 & Hr1) (n2 & H2 & Hr2).
  apply (converges_more F n1 (Nat.max n1 n2)) in H1; [|done|lia|done].
  apply (converges_more F n2 (Nat.max n1 n2)) in H2; [|done|lia|done].
  rewrite H1 in H2. by simplify_eq.
Qed.

Lemma evaluates_monotone node env : monotone (fun ev => ev node env).
Proof. intros ev ev' H. apply H. Qed.

Lemma block_monotone stmts env : monotone (fun ev => eval_block ev stmts env).
Proof. intros ev ev' H. by apply eval_block_mono. Qed.

#[local] Hint Resolve evaluates_monotone block_monotone : mono.

Lemma evaluates_det node env st r1 st1 r2 st2 :
  evaluates node env st r1 st1 → evaluates node env st r2 st2 →
  r1 = r2 ∧ st1 = st2.
Proof. apply converges_det, evaluates_monotone. Qed.

(** A node that evaluates needs at least one unit of fuel. *)
Lemma eval_S_inv fuel node env st r st' :
  eval fuel node env st = (r, st') → r ≠ OutOfFuel →
  ∃ n, fuel = S n.
Proof.
  destruct fuel; [|by eauto]. simpl. unfold lift. intros [= <- _]. done.
Qed.

(** ** The environment *)

Lemma get_from_owner h name a o n :
  chain_ok h → owner h name a o → (a < n)%nat →
  Env.get_from n h a name =
    match o with
    | Some b =>
        match h !! b with
        | Some e => match bindings e !! name with
                    | Some v => Ret v
                    | None => Unmodelled
                    end
        | None => Unmodelled
        end
    | None => Raise (UndefinedVariable name)
    end.
Proof.
  intros Hok Hown. revert n.
  induction Hown as [a e He [v Hv]|a e p o He Hn Hp Hown IH|a e He Hn Hp];
    intros [|n] Hlt; try lia; simpl; rewrite He.
  - by rewrite Hv.
  - rewrite Hn, Hp. apply IH. specialize (Hok _ _ _ He Hp). lia.
  - by rewrite Hn, Hp.
Qed.

Lemma set_from_owner h name a o v n :
  chain_ok h → owner h name a o → (a < n)%nat →
  Env.set_from n h a name v =
    match o with
    | Some b =>
        match h !! b with
        | Some e =>
            match mutable e !! name with
            | Some true => Ret (<[b := rebind e name v]> h)
            | Some false => Raise (ImmutableReassignment name)
            | None => Raise (PyExc KeyError)
            end
        | None => Unmodelled
        end
    | None => Raise (UndefinedVariable name)
    end.
Proof.
  intros Hok Hown. revert n.
  induction Hown as [a e He [w Hw]|a e p o He Hn Hp Hown IH|a e He Hn Hp];
    intros [|n] Hlt; try lia; simpl; rewrite He.
  - by rewrite Hw.
  - rewrite Hn, Hp. apply IH. specialize (Hok _ _ _ He Hp). lia.
  - by rewrite Hn, Hp.
Qed.

(** The owner is at or below the scope the walk started from. *)
Lemma owner_le h name a b :
  chain_ok h → owner h name a (Some b) → (b ≤ a)%nat.
Proof.
  intros Hok Hown. remember (Some b) as o eqn:Ho.
  induction Hown as [a e He Hv|a e p o He Hn Hp Hown IH|a e He Hn Hp];
    simplify_eq; [done|].
  specialize (Hok _ _ _ He Hp). specialize (IH eq_refl). lia.
Qed.

(** In a heap where parents come first, every walk ends. *)
Lemma owner_total h name a :
  chain_ok h → (a < length h)%nat → ∃ o, owner h name a o.
Proof.
  intros Hok. induction (lt_wf a) as [a _ IH]. intros Hlt.
  destruct (lookup_lt_is_Some_2 _ _ Hlt) as [e He].
  destruct (bindings e !! name) as [v|] eqn:Hv.
  - exists (Some a). eapply owner_here; [done|]. by exists v.
  - destruct (parent e) as [p|] eqn:Hp.
    + pose proof (Hok _ _ _ He Hp) as Hpa.
      destruct (IH p Hpa ltac:(lia)) as [o Ho].
      exists o. by eapply owner_up.
    + exists None. by eapply owner_root.
Qed.

Lemma owner_unique h name a o1 o2 :
  owner h name a o1 → owner h name a o2 → o1 = o2.
Proof.
  intros H1. revert o2.
  induction H1 as [a e He [v Hv]|a e p o He Hn Hp _ IH|a e He Hn Hp];
    intros o2 H2; inversion H2 as [? ? ? Hs|? ? ? ? ? ? ? Hup|];
    simplify_eq; try done.
  - rewrite Hn in Hs. by destruct Hs.
  - by apply IH.
  - rewrite Hn in Hs. by destruct Hs.
Qed.

(** Rebinding [name] in its owner leaves the owner where it was. *)
Lemma owner_rebind h name a b e v :
  chain_ok h → owner h name a (Some b) → h !! b = Some e →
  owner (<[b := rebind e name v]> h) name a (Some b).
Proof.
  intros Hok Hown Hb. remember (Some b) as o eqn:Ho.
  induction Hown as [a e' He Hv|a e' p o He Hn Hp Hown IH|a e' He Hn Hp];
    simplify_eq.
  - eapply owner_here.
    + apply list_lookup_insert_eq. by eapply lookup_lt_Some.
    + simpl. rewrite lookup_insert_eq. by eexists.
  - assert (b ≠ a).
    { pose proof (owner_le _ _ _ _ Hok Hown).
      specialize (Hok _ _ _ He Hp). lia. }
    eapply owner_up; [|done|done|by apply IH].
    by rewrite list_lookup_insert_ne.
Qed.

Lemma chain_ok_rebind h b e name v :
  chain_ok h → h !! b = Some e → chain_ok (<[b := rebind e name v]> h).
Proof.
  intros Hok Hb a e' p Ha Hp.
  destruct (decide (a = b)) as [->|Hne].
  - rewrite list_lookup_insert_eq in Ha by by eapply lookup_lt_Some.
    simplify_eq. by eapply Hok.
  - rewrite list_lookup_insert_ne in Ha by done. by eapply Hok.
Qed.

Lemma two_scopes_chain_ok : chain_ok (heap two_scopes).
Proof.
  intros [|[|a]] e p He Hp.
  - vm_compute in He. injection He as <-. discriminate Hp.
  - vm_compute in He. injection He as <-. injection Hp as <-. lia.
  - vm_compute in He. discriminate He.
Qed.

Lemma two_scopes_owner : owner (heap two_scopes) "n" 1%nat (Some 0%nat).
Proof.
  eapply (owner_up _ _ 1%nat _ 0%nat); [reflexivity..|].
  eapply owner_here; [reflexivity|]. by exists (VInt 0).
Qed.

Lemma define_unbound st self e name v mut :
  heap st !! self = Some e → bindings e !! name = None →
  Env.define self name v mut st =
    (Ret tt, with_heap (<[self := extend e name v mut]> (heap st)) st).
Proof. intros He Hn. unfold Env.define. by rewrite He, Hn. Qed.

Lemma define_bound st self e name v mut :
  heap st !! self = Some e → is_Some (bindings e !! name) →
  Env.define self name v mut st = (Raise (DuplicateDefinition name), st).
Proof. intros He [w Hw]. unfold Env.define. by rewrite He, Hw. Qed.

(** C7. [define(name, value, mutable)] on the scope at [self] fails with
    [DuplicateDefinition] exactly when [name] is in that scope's own
    [bindings]; the parent chain plays no part.  Otherwise it succeeds and
    adds the binding.  So a fresh child of [self] accepts [name] whatever
    [self] binds (shadowing), and after a successful [define] of [name] a
    second [define] of [name] in the same scope fails. *)
Theorem define_fails_iff_bound_in_own_scope
    (st : state) (self : addr) (e : Environment) (name : string)
    (v : Value) (mut : bool) :
  heap st !! self = Some e →
  (Env.define self name v mut st = (Raise (DuplicateDefinition name), st)
     ↔ is_Some (bindings e !! name))
  ∧ (bindings e !! name = None →
     Env.define self name v mut st =
       (Ret tt, with_heap (<[self := extend e name v mut]> (heap st)) st))
  ∧ (∀ v' mut', ∃ child st1 st2,
       Env.new (Some self) st = (Ret child, st1)
       ∧ Env.define child name v' mut' st1 = (Ret tt, st2)
       ∧ Env.get child name st2 = (Ret v', st2))
  ∧ (∀ v' mut' st',
       Env.define self name v mut st = (Ret tt, st') →
       Env.define self name v' mut' st' =
         (Raise (DuplicateDefinition name), st')).
Proof.
  intros He. repeat split.
  - intros H. destruct (bindings e !! name) eqn:Hn; [by eexists|].
    by rewrite (define_unbound _ _ _ _ _ _ He Hn) in H.
  - by apply define_bound.
  - by apply define_unbound.
  - intros v' mut'.
    set (fresh := {| parent := Some self; bindings := ∅; mutable := ∅ |}).
    assert (Hc : (heap st ++ [fresh])%list !! length (heap st) = Some fresh).
    { by rewrite lookup_app_r, Nat.sub_diag. }
    eexists _, _, _. split; [done|]. split.
    + by apply (define_unbound _ _ fresh).
    + unfold Env.get. simpl. rewrite length_insert, length_app. simpl.
      rewrite Nat.add_1_r. simpl.
      rewrite list_lookup_insert_eq by (rewrite length_app; simpl; lia).
      simpl. by rewrite lookup_insert_eq.
  - intros v' mut' st' H.
    destruct (bindings e !! name) eqn:Hn.
    + rewrite (define_bound _ _ _ _ _ _ He) in H by by eexists. done.
    + rewrite (define_unbound _ _ _ _ _ _ He Hn) in H. simplify_eq.
      eapply define_bound.
      * simpl. apply list_lookup_insert_eq. by eapply lookup_lt_Some.
      * simpl. rewrite lookup_insert_eq. by eexists.
Qed.

Lemma define_fails_iff_bound_in_own_scope_witness :
  Env.define global_env "print" VNone true initial_state
  = (Raise (DuplicateDefinition "print"), initial_state).
Proof.
  apply (proj1 (define_fails_iff_bound_in_own_scope
                  initial_state global_env global_scope "print" VNone true
                  eq_refl)).
  exists (VBuiltin Bprint). reflexivity.
Defined.

(** C8. In a heap where every scope was allocated after its parent, the walk
    from the scope at [self] toward the root finds the nearest scope that
    owns [name], or none.  [set(name, value)] rebinds [name] in that scope,
    and nowhere else.  It fails with [ImmutableReassignment] if the binding
    there was defined with [mutable=False], and with [UndefinedVariable] if
    no scope of the chain owns [name]; a failed [set] changes nothing.  After
    a successful [set], [get(name)] from the same scope returns the new
    value.  (The last case of the statement does not arise in scopes filled
    by [define], which writes [bindings] and [mutable] together.) *)
Theorem set_rebinds_nearest_owner
    (st : state) (self : addr) (name : string) (v : Value) :
  chain_ok (heap st) → (self < length (heap st))%nat →
  ∃ o, owner (heap st) name self o ∧
    match o with
    | None => Env.set self name v st = (Raise (UndefinedVariable name), st)
    | Some b =>
        ∃ e, heap st !! b = Some e ∧
          match mutable e !! name with
          | Some true =>
              let st' := with_heap (<[b := rebind e name v]> (heap st)) st in
              Env.set self name v st = (Ret tt, st')
              ∧ Env.get self name st' = (Ret v, st')
          | Some false =>
              Env.set self name v st
              = (Raise (ImmutableReassignment name), st)
          | None => Env.set self name v st = (Raise (PyExc KeyError), st)
          end
    end.
Proof.
  intros Hok Hlt.
  destruct (owner_total _ name _ Hok Hlt) as [o Hown].
  exists o. split; [done|].
  unfold Env.set. rewrite (set_from_owner _ _ _ _ _ _ Hok Hown Hlt).
  destruct o as [b|]; [|done].
  assert (Hb : is_Some (heap st !! b)).
  { apply lookup_lt_is_Some. pose proof (owner_le _ _ _ _ Hok Hown). lia. }
  destruct Hb as [e Hb]. exists e. split; [done|]. rewrite Hb.
  destruct (mutable e !! name) as [[|]|]; try done.
  split; [done|]. unfold Env.get. simpl.
  rewrite (get_from_owner _ name self (Some b));
    [|by apply chain_ok_rebind|by apply owner_rebind|by rewrite length_insert].
  rewrite list_lookup_insert_eq by by eapply lookup_lt_Some.
  simpl. by rewrite lookup_insert_eq.
Qed.

Lemma set_rebinds_nearest_owner_witness :
  ∃ e, heap two_scopes !! 0%nat = Some e
    ∧ Env.set 1%nat "n" (VInt 5) two_scopes
      = (Ret tt, with_heap (<[0%nat := rebind e "n" (VInt 5)]> (heap two_scopes))
                   two_scopes)
    ∧ Env.get 1%nat "n"
        (with_heap (<[0%nat := rebind e "n" (VInt 5)]> (heap two_scopes))
           two_scopes)
      = (Ret (VInt 5),
         with_heap (<[0%nat := rebind e "n" (VInt 5)]> (heap two_scopes))
           two_scopes).
Proof.
  destruct (set_rebinds_nearest_owner two_scopes 1%nat "n" (VInt 5)
              two_scopes_chain_ok ltac:(vm_compute; lia))
    as (o & Ho & H).
  rewrite (owner_unique _ _ _ _ _ Ho two_scopes_owner) in H.
  destruct H as (e & He & H).
  exists e. split; [exact He|].
  assert (Hm : mutable e !! "n" = Some true).
  { injection He as <-. reflexivity. }
  rewrite Hm in H. exact H.
Defined.

(** ** Evaluation judgements, compositionally *)

Section Converges.

Context {A B : Type}.
Implicit Types F : (ASTNode -> addr -> M Value) -> M A.

Lemma converges_bind F (K : A -> (ASTNode -> addr -> M Value) -> M B)
    st r st' :
  monotone F → (∀ a, monotone (K a)) →
  converges (fun ev => bind (F ev) (fun a => K a ev)) st r st' ↔
  ∃ ra st1, converges F st ra st1 ∧
    match ra with
    | Ret a => converges (K a) st1 r st'
    | other => r = cast other ∧ st' = st1
    end.
Proof.
  intros HF HK. split.
  - intros (n & H & Hr). unfold bind in H.
    destruct (F (eval n) st) as [ra st1] eqn:E.
    exists ra, st1.
    destruct ra; simplify_eq; simpl in *;
      (split; [by exists n|]); first [by exists n | done].
  - intros (ra & st1 & (n1 & H1 & Hr1) & H2).
    destruct ra; try (destruct H2 as [-> ->]; exists n1; unfold bind;
                      by rewrite H1); try done.
    destruct H2 as (n2 & H2 & Hr2).
    exists (Nat.max n1 n2). split; [|done]. unfold bind.
    rewrite (converges_more F n1 (Nat.max n1 n2) _ _ _ HF ltac:(lia) H1 Hr1).
    apply (converges_more (K a) n2); [done|lia|done|done].
Qed.

End Converges.

Lemma converges_const {A} (c : M A) st r st' :
  converges (fun _ => c) st r st' ↔ c st = (r, st') ∧ r ≠ OutOfFuel.
Proof.
  split; [by intros (_ & H)|]. intros H. by exists 0%nat.
Qed.

Lemma monotone_const {A} (c : M A) : monotone (fun _ => c).
Proof. intros ev ev' _. apply refines_refl. Qed.

#[local] Hint Resolve monotone_const : mono.

(** One unit of fuel is spent on the dispatch in [eval]. *)
Lemma evaluates_unfold node env
    (F : (ASTNode -> addr -> M Value) -> M Value) st r st' :
  (∀ n, eval (S n) node env = F (eval n)) →
  evaluates node env st r st' ↔ converges F st r st'.
Proof.
  intros HF. split.
  - intros (fuel & H & Hr).
    destruct (eval_S_inv _ _ _ _ _ _ H Hr) as [n ->].
    exists n. by rewrite <- HF.
  - intros (n & H & Hr). exists (S n). by rewrite HF.
Qed.

(** An outcome of [evaluates] fixes every other. *)
Lemma evaluates_agree node env st r1 st1 r2 st2 :
  evaluates node env st r1 st1 → evaluates node env st r2 st2 →
  (r2, st2) = (r1, st1).
Proof. intros H1 H2. by destruct (evaluates_det _ _ _ _ _ _ _ H1 H2) as [-> ->]. Qed.

(** ** Truth values in condition positions *)

Lemma truthy_false_iff v : Py.truthy v = false ↔ falsy v.
Proof.
  split.
  - destruct v as [|[]|z|f|s|l|d|l|a b|?|?|?|?|?]; simpl; try done;
      try by constructor.
    + intros H. apply negb_false_iff, Z.eqb_eq in H. subst. constructor.
    + intros H. apply negb_false_iff in H. by constructor.
    + destruct s; [constructor|done].
    + destruct l; [constructor|done].
    + destruct d; [constructor|done].
    + destruct l; [constructor|done].
    + intros H. apply Z.ltb_ge in H. by constructor.
  - destruct 1; simpl; try done.
    + by rewrite H.
    + by apply Z.ltb_ge.
Qed.

Lemma monotone_elifs elifs els env :
  monotone (fun ev => eval_elifs ev elifs els env).
Proof. intros ev ev' H. by apply eval_elifs_mono. Qed.

Lemma monotone_run_stmts stmts env result :
  monotone (fun ev => run_stmts ev stmts env result).
Proof. intros ev ev' H. by apply run_stmts_mono. Qed.

#[local] Hint Resolve monotone_elifs monotone_run_stmts : mono.

(** Once the value of a sub-node is known, a computation that starts by
    evaluating it continues from that value. *)
Lemma converges_after {A} node env
    (K : Value -> (ASTNode -> addr -> M Value) -> M A) st v st1 :
  (∀ a, monotone (K a)) →
  evaluates node env st (Ret v) st1 →
  ∀ r st',
  converges (fun ev => bind (ev node env) (fun a => K a ev)) st r st' ↔
  converges (K v) st1 r st'.
Proof.
  intros HK Hv r st'.
  rewrite (converges_bind (fun ev => ev node env) K) by eauto with mono.
  split.
  - intros (ra & st2 & Hra & H).
    pose proof (evaluates_agree _ _ _ _ _ _ _ Hv Hra) as [= -> ->]. done.
  - intros H. by exists (Ret v), st1.
Qed.

Lemma monotone_if {A} (b : bool)
    (F G : (ASTNode -> addr -> M Value) -> M A) :
  monotone F → monotone G → monotone (fun ev => if b then F ev else G ev).
Proof. by destruct b. Qed.

#[local] Hint Resolve monotone_if : mono.

Lemma if_expr_branch c thn elifs els env st v st1 r st' :
  evaluates (Exp c) env st (Ret v) st1 →
  evaluates (Exp (IfExpr c thn elifs els)) env st r st' ↔
  if Py.truthy v then block_evaluates thn env st1 r st'
  else converges (fun ev => eval_elifs ev elifs els env) st1 r st'.
Proof.
  intros Hv.
  rewrite (evaluates_unfold _ _
             (fun ev => eval_if_expr ev c thn elifs els env)) by done.
  unfold eval_if_expr.
  rewrite (converges_after _ _
             (fun cond ev => if Py.truthy cond then eval_block ev thn env
                             else eval_elifs ev elifs els env) st v st1);
    [|by eauto with mono|done].
  by destruct (Py.truthy v).
Qed.

Lemma elif_branch c blk rest els env st v st1 r st' :
  evaluates (Exp c) env st (Ret v) st1 →
  converges (fun ev => eval_elifs ev (mkElifClause c blk :: rest) els env)
    st r st' ↔
  if Py.truthy v then block_evaluates blk env st1 r st'
  else converges (fun ev => eval_elifs ev rest els env) st1 r st'.
Proof.
  intros Hv. simpl.
  rewrite (converges_after _ _
             (fun cond ev => if Py.truthy cond then eval_block ev blk env
                             else eval_elifs ev rest els env) st v st1);
    [|by eauto with mono|done].
  by destruct (Py.truthy v).
Qed.

Lemma not_expr_value e env st v st1 :
  evaluates (Exp e) env st (Ret v) st1 →
  evaluates (Exp (UnaryExpr NOT e)) env st
    (Ret (VBool (negb (Py.truthy v)))) st1.
Proof.
  intros Hv.
  rewrite (evaluates_unfold _ _
             (fun ev => eval_unary_expr ev NOT e env)) by done.
  unfold eval_unary_expr.
  rewrite (converges_after _ _ (fun v _ => ret (Py.not_ v)) st v st1);
    [|by eauto with mono|done].
  by apply converges_const.
Qed.

Lemma evaluates_while c b env st r st' :
  evaluates (Exp (WhileExpr c b)) env st r st' ↔
  while_converges c b env VNone st r st'.
Proof.
  split.
  - intros (fuel & H & Hr).
    destruct (eval_S_inv _ _ _ _ _ _ H Hr) as [n ->]. by exists n, n.
  - intros (fuel & n & H & Hr). exists (S (Nat.max fuel n)).
    split; [|done]. simpl. unfold eval_while_expr.
    refine (while_loop_mono (eval fuel) _ _ n _ c b env VNone _ st r st' H Hr);
      [apply eval_mono|]; lia.
Qed.

Lemma while_step c b env result st v st1 r st' :
  evaluates (Exp c) env st (Ret v) st1 →
  while_converges c b env result st r st' ↔
  if Py.truthy v then
    ∃ rb st2,
      converges (fun ev => run_stmts ev b env result) st1 rb st2 ∧
      match rb with
      | Ret result' => while_converges c b env result' st2 r st'
      | other => r = cast other ∧ st' = st2
      end
  else r = Ret result ∧ st' = st1.
Proof.
  intros Hv. split.
  - intros (fuel & [|n] & H & Hr); [by injection H as <- _|].
    simpl in H. unfold bind in H.
    destruct (eval fuel (Exp c) env st) as [rc stc] eqn:E.
    assert (Hrc : rc ≠ OutOfFuel) by (intros ->; by simplify_eq).
    assert (Hc : evaluates (Exp c) env st rc stc) by by exists fuel.
    pose proof (evaluates_agree _ _ _ _ _ _ _ Hv Hc) as [= -> ->].
    destruct (Py.truthy v); simpl in H; [|by injection H as <- <-].
    destruct (run_stmts (eval fuel) b env result st1) as [rb st2] eqn:Eb.
    exists rb, st2.
    assert (Hrb : rb ≠ OutOfFuel) by (intros ->; by simplify_eq).
    split; [by exists fuel|].
    destruct rb; simplify_eq; try done. by exists fuel, n.
  - destruct Hv as (m & Hm & _).
    destruct (Py.truthy v) eqn:Ht.
    + intros (rb & st2 & (mb & Hb & Hrb) & Hrest).
      assert (Hloop : ∃ fuel n,
                 (m ≤ fuel)%nat ∧ (mb ≤ fuel)%nat ∧
                 match rb with
                 | Ret result' =>
                     while_loop (eval fuel) n c b env result' st2 = (r, st')
                 | other => r = cast other ∧ st' = st2
                 end ∧ r ≠ OutOfFuel).
      { destruct rb; try (destruct Hrest as [-> ->];
                          by exists (Nat.max m mb), 0%nat; repeat split; try lia).
        destruct Hrest as (mr & n & Hr & Hne).
        exists (Nat.max (Nat.max m mb) mr), n. repeat split; try lia; [|done].
        refine (while_loop_mono (eval mr) _ _ n _ c b env a _ st2 r st' Hr Hne);
          [apply eval_mono|]; lia. }
      destruct Hloop as (fuel & n & Hle1 & Hle2 & Hloop & Hne).
      exists fuel, (S n). split; [|done]. simpl. unfold bind.
      rewrite (eval_mono m fuel Hle1 _ _ _ _ _ Hm) by done.
      rewrite Ht. simpl.
      rewrite (run_stmts_mono (eval mb) (eval fuel) (eval_mono _ _ Hle2)
                 _ _ _ _ _ _ Hb Hrb).
      destruct rb; try done; by destruct Hloop as [-> ->].
    + intros [-> ->]. exists m, 1%nat. split; [|done]. simpl. unfold bind.
      by rewrite Hm, Ht.
Qed.

(** C1, as the evaluator has it.  The conditions of [if], [elif] and [while]
    and the operand of [!] are put to Python's truth test: the falsy values
    are [None], [False], the int 0, a float equal to zero, and the empty
    string, list, dict, tuple and range; every other value is truthy.
    - an [if] whose condition has the value [v] runs its then-block when [v]
      is truthy, and otherwise goes on to its [elif] clauses and [else];
    - an [elif] clause does the same with the clauses after it;
    - a [while] whose condition has the value [v] runs its body once more
      when [v] is truthy, and otherwise ends with the last [result];
    - [!e] is [True] exactly when the value of [e] is falsy. *)
Theorem conditions_use_host_truth_test :
  (∀ v, Py.truthy v = false ↔ falsy v)
  ∧ (∀ c thn elifs els env st v st1 r st',
       evaluates (Exp c) env st (Ret v) st1 →
       evaluates (Exp (IfExpr c thn elifs els)) env st r st' ↔
       if Py.truthy v then block_evaluates thn env st1 r st'
       else converges (fun ev => eval_elifs ev elifs els env) st1 r st')
  ∧ (∀ c blk rest els env st v st1 r st',
       evaluates (Exp c) env st (Ret v) st1 →
       converges (fun ev => eval_elifs ev (mkElifClause c blk :: rest) els env)
         st r st' ↔
       if Py.truthy v then block_evaluates blk env st1 r st'
       else converges (fun ev => eval_elifs ev rest els env) st1 r st')
  ∧ (∀ c b env st r st',
       evaluates (Exp (WhileExpr c b)) env st r st' ↔
       while_converges c b env VNone st r st')
  ∧ (∀ c b env result st v st1 r st',
       evaluates (Exp c) env st (Ret v) st1 →
       while_converges c b env result st r st' ↔
       if Py.truthy v then
         ∃ rb st2,
           converges (fun ev => run_stmts ev b env result) st1 rb st2 ∧
           match rb with
           | Ret result' => while_converges c b env result' st2 r st'
           | other => r = cast other ∧ st' = st2
           end
       else r = Ret result ∧ st' = st1)
  ∧ (∀ e env st v st1,
       evaluates (Exp e) env st (Ret v) st1 →
       evaluates (Exp (UnaryExpr NOT e)) env st
         (Ret (VBool (negb (Py.truthy v)))) st1).
Proof.
  split; [exact truthy_false_iff|].
  split; [intros; by apply if_expr_branch|].
  split; [intros; by apply elif_branch|].
  split; [intros; by apply evaluates_while|].
  split; [intros; by apply while_step|].
  intros; by apply not_expr_value.
Qed.

Lemma conditions_use_host_truth_test_witness :
  evaluates
    (Exp (IfExpr (IntLiteral 0) [ExprStmt (IntLiteral 1)] []
            (Some [ExprStmt (IntLiteral 2)])))
    global_env initial_state (Ret (VInt 2)) initial_state.
Proof.
  apply (proj1 (proj2 conditions_use_host_truth_test)
           (IntLiteral 0) [ExprStmt (IntLiteral 1)] []
           (Some [ExprStmt (IntLiteral 2)]) global_env initial_state
           (VInt 0) initial_state).
  - exists 1%nat. split; [reflexivity|discriminate].
  - exists 2%nat. split; [reflexivity|discriminate].
Defined.

(** C1 as the design document has it fails: [Int(0)], the empty string and
    the empty list are truthy there, yet an [if] on each of them skips its
    then-block, and [!0] is [True]. *)
Lemma zero_and_empty_are_falsy :
  spec_truthy (VInt 0) = true
  ∧ run 3 (Exp (IfExpr (IntLiteral 0) [ExprStmt (IntLiteral 1)] []
                  (Some [ExprStmt (IntLiteral 2)])))
    = (Ret (VInt 2), initial_state)
  ∧ spec_truthy (VStr "") = true
  ∧ run 3 (Exp (IfExpr (StringLiteral "") [ExprStmt (IntLiteral 1)] []
                  (Some [ExprStmt (IntLiteral 2)])))
    = (Ret (VInt 2), initial_state)
  ∧ spec_truthy (VList []) = true
  ∧ run 3 (Exp (IfExpr (ListExpr []) [ExprStmt (IntLiteral 1)] []
                  (Some [ExprStmt (IntLiteral 2)])))
    = (Ret (VInt 2), initial_state)
  ∧ run 2 (Exp (UnaryExpr NOT (IntLiteral 0)))
    = (Ret (VBool true), initial_state).
Proof. repeat split. Qed.

(** ** Logical operators *)

Lemma both_operands (f : Value -> Value -> Value) l r env st res st' :
  converges (fun ev => bind (ev (Exp l) env) (fun vl =>
                       bind (ev (Exp r) env) (fun vr => ret (f vl vr))))
    st res st' ↔
  ∃ rl st1, evaluates (Exp l) env st rl st1 ∧
    match rl with
    | Ret vl =>
        ∃ rr, evaluates (Exp r) env st1 rr st' ∧
          res = match rr with
                | Ret vr => Ret (f vl vr)
                | other => other
                end
    | other => res = cast other ∧ st' = st1
    end.
Proof.
  rewrite (converges_bind (fun ev => ev (Exp l) env)
             (fun vl ev => bind (ev (Exp r) env) (fun vr => ret (f vl vr)))).
  - split; intros (rl & st1 & Hl & H); exists rl, st1; (split; [done|]);
      destruct rl as [vl| | | |]; try done.
    + apply (converges_bind (fun ev => ev (Exp r) env)
               (fun vr _ => ret (f vl vr))) in H;
        [|by eauto with mono..].
      destruct H as (rr & st2 & Hr & H). exists rr.
      destruct rr; try (destruct H as [-> ->]; by split).
      apply converges_const in H as [[= <- <-] _]. by split.
    + destruct H as (rr & Hr & ->).
      apply (converges_bind (fun ev => ev (Exp r) env)
               (fun vr _ => ret (f vl vr)));
        [by eauto with mono..|].
      exists rr, st'. split; [done|].
      destruct rr; first [done | by apply converges_const].
  - apply evaluates_monotone.
  - intros vl ev ev' Hev. mono.
Qed.

Lemma logical_expr_evaluates_both l op r env st res st' :
  op = AND ∨ op = OR →
  evaluates (Exp (BinaryExpr l op r)) env st res st' ↔
  ∃ rl st1, evaluates (Exp l) env st rl st1 ∧
    match rl with
    | Ret vl =>
        ∃ rr, evaluates (Exp r) env st1 rr st' ∧
          res = match rr with
                | Ret vr => Ret (logical op vl vr)
                | other => other
                end
    | other => res = cast other ∧ st' = st1
    end.
Proof.
  intros Hop.
  rewrite (evaluates_unfold _ _
             (fun ev => eval_binary_expr ev l op r env)) by done.
  unfold eval_binary_expr.
  destruct Hop as [-> | ->]; apply both_operands.
Qed.

(** C2, as the evaluator has it.  [eval_binary_expr] evaluates the left
    operand and then the right operand of every binary expression before it
    looks at the operator.  For [&&] and [||]: if the left operand does not
    return, neither does the expression; otherwise the right operand is
    evaluated in the state the left one left, its effects stay, and whatever
    it raises propagates; when both return, [&&] yields the left value if it
    is falsy and the right value otherwise, [||] the left value if it is
    truthy and the right value otherwise. *)
Theorem logical_operators_evaluate_both_operands
    (l : Expr) (op : BinaryOp) (r : Expr) (env : addr)
    (st : state) (res : res Value) (st' : state) :
  op = AND ∨ op = OR →
  evaluates (Exp (BinaryExpr l op r)) env st res st' ↔
  ∃ rl st1, evaluates (Exp l) env st rl st1 ∧
    match rl with
    | Ret vl =>
        ∃ rr, evaluates (Exp r) env st1 rr st' ∧
          res = match rr with
                | Ret vr =>
                    Ret (match op with
                         | AND => if Py.truthy vl then vr else vl
                         | _ => if Py.truthy vl then vl else vr
                         end)
                | other => other
                end
    | other => res = cast other ∧ st' = st1
    end.
Proof. apply logical_expr_evaluates_both. Qed.

Lemma logical_operators_evaluate_both_operands_witness :
  evaluates (Exp (BinaryExpr (BoolLiteral false) AND (VarRef "undefined")))
    global_env initial_state
    (Raise (UndefinedVariable "undefined")) initial_state.
Proof.
  apply (logical_operators_evaluate_both_operands
           (BoolLiteral false) AND (VarRef "undefined")
           global_env initial_state _ initial_state (or_introl eq_refl)).
  exists (Ret (VBool false)), initial_state. split.
  - exists 1%nat. split; [reflexivity|discriminate].
  - exists (Raise (UndefinedVariable "undefined")). split; [|reflexivity].
    exists 1%nat. split; [reflexivity|discriminate].
Defined.

(** C2 as the design document has it fails.  With a left operand that the
    document says settles the result, the right operand is evaluated all the
    same: [false && undefined] and [true || undefined] raise
    [UndefinedVariable] instead of succeeding, and [false && print(1)]
    prints. *)
Lemma right_operand_is_always_evaluated :
  spec_short_circuits AND (VBool false) = true
  ∧ run 3 (Exp (BinaryExpr (BoolLiteral false) AND (VarRef "undefined")))
    = (Raise (UndefinedVariable "undefined"), initial_state)
  ∧ spec_short_circuits OR (VBool true) = true
  ∧ run 3 (Exp (BinaryExpr (BoolLiteral true) OR (VarRef "undefined")))
    = (Raise (UndefinedVariable "undefined"), initial_state)
  ∧ run 4 (Exp (BinaryExpr (BoolLiteral false) AND
                  (Call (VarRef "print") [IntLiteral 1])))
    = (Ret (VBool false), with_stdout [[VInt 1]] initial_state).
Proof. repeat split. Qed.

(** ** Pattern matching *)

Lemma monotone_match_arms arms v env :
  monotone (fun ev => match_arms ev arms v env).
Proof. intros ev ev' H. by apply match_arms_mono. Qed.

#[local] Hint Resolve monotone_match_arms : mono.

(** The first arm of a list of arms: taken if [match_pattern] answers with a
    truthy value, skipped otherwise. *)
Lemma match_arms_first p body rest v env st m st1 r st' :
  match_pattern p v env st = (Ret m, st1) →
  converges (fun ev => match_arms ev (mkMatchArm p body :: rest) v env)
    st r st' ↔
  if Py.truthy m then evaluates (Exp body) env st1 r st'
  else converges (fun ev => match_arms ev rest v env) st1 r st'.
Proof.
  intros Hm. simpl.
  rewrite (converges_bind (fun _ => match_pattern p v env)
             (fun m ev => if Py.truthy m then ev (Exp body) env
                          else match_arms ev rest v env));
    [|by eauto with mono|by intros; apply monotone_if; eauto with mono].
  split.
  - intros (rm & st2 & Hc & H). apply converges_const in Hc as [Hc _].
    rewrite Hm in Hc. simplify_eq. by destruct (Py.truthy m).
  - intros H. exists (Ret m), st1. split; [by apply converges_const|].
    by destruct (Py.truthy m).
Qed.

Lemma match_expr_first e p body rest env st v st1 m st2 r st' :
  evaluates (Exp e) env st (Ret v) st1 →
  match_pattern p v env st1 = (Ret m, st2) →
  evaluates (Exp (MatchExpr e (mkMatchArm p body :: rest))) env st r st' ↔
  if Py.truthy m then evaluates (Exp body) env st2 r st'
  else converges (fun ev => match_arms ev rest v env) st2 r st'.
Proof.
  intros Hv Hm.
  rewrite (evaluates_unfold _ _
             (fun ev => eval_match_expr ev e (mkMatchArm p body :: rest) env))
    by done.
  unfold eval_match_expr.
  rewrite (converges_after _ _
             (fun v ev => match_arms ev (mkMatchArm p body :: rest) v env)
             st v st1); [|by eauto with mono|done].
  by apply match_arms_first.
Qed.

(** C4, as the evaluator has it.  [match_pattern] answers [True] to a Result
    pattern whatever its variant and whatever the value, and touches
    nothing; so in a [match] an arm with a Result pattern is taken by every
    scrutinee that reaches it. *)
Theorem result_pattern_matches_every_value :
  (∀ variant inner v env st,
     match_pattern (ResultPattern variant inner) v env st
     = (Ret (VBool true), st))
  ∧ (∀ e variant inner body rest env st v st1 r st',
       evaluates (Exp e) env st (Ret v) st1 →
       evaluates
         (Exp (MatchExpr e (mkMatchArm (ResultPattern variant inner) body :: rest)))
         env st r st' ↔
       evaluates (Exp body) env st1 r st').
Proof.
  split; [done|]. intros * Hv.
  by rewrite (match_expr_first _ _ _ _ _ _ _ _ (VBool true) st1 _ _ Hv).
Qed.

Lemma result_pattern_matches_every_value_witness :
  evaluates
    (Exp (MatchExpr (ResultExpr "Err" (IntLiteral 1))
            [mkMatchArm (ResultPattern "Ok" None) (IntLiteral 7)]))
    global_env initial_state (Ret (VInt 7)) initial_state.
Proof.
  apply (proj2 result_pattern_matches_every_value
           (ResultExpr "Err" (IntLiteral 1)) "Ok" None (IntLiteral 7) []
           global_env initial_state (VTuple [VStr "Err"; VInt 1])
           initial_state).
  - exists 2%nat. split; [reflexivity|discriminate].
  - exists 1%nat. split; [reflexivity|discriminate].
Defined.

(** C4 as the design document has it fails: an [Ok] pattern matches an [Err]
    value and a value that is no Result at all, and [match Err(1)] takes its
    [Ok] arm. *)
Lemma ok_pattern_matches_err_value :
  spec_result_pattern_matches "Ok" (VTuple [VStr "Err"; VInt 1]) = false
  ∧ match_pattern (ResultPattern "Ok" None) (VTuple [VStr "Err"; VInt 1])
      global_env initial_state
    = (Ret (VBool true), initial_state)
  ∧ spec_result_pattern_matches "Err" (VInt 5) = false
  ∧ match_pattern (ResultPattern "Err" None) (VInt 5) global_env initial_state
    = (Ret (VBool true), initial_state)
  ∧ run 4 (Exp (MatchExpr (ResultExpr "Err" (IntLiteral 1))
                  [mkMatchArm (ResultPattern "Ok" None) (IntLiteral 7)]))
    = (Ret (VInt 7), initial_state).
Proof. repeat split. Qed.

(** C5: what the evaluator does with a list pattern.  [match_pattern] has no
    case for [ListPattern], which falls to the final [else: return False]:
    no value is matched, not even the list [[1]] by the pattern [[1]], and a
    [match] whose only arm is that pattern raises [NoMatchError]. *)
Theorem list_pattern_never_matches :
  (∀ patterns v env st,
     match_pattern (ListPattern patterns) v env st = (Ret (VBool false), st))
  ∧ run 4 (Exp (MatchExpr (ListExpr [IntLiteral 1])
                  [mkMatchArm (ListPattern [LiteralPattern (LitInt 1)])
                     (IntLiteral 7)]))
    = (Raise (NoMatchError (VList [VInt 1])), initial_state).
Proof. repeat split. Qed.

(** ** Option values *)

Lemma is_none_iff v : Py.is_none v = true ↔ v = VNone.
Proof. by destruct v. Qed.

Lemma some_expr_is_payload e env st r st' :
  evaluates (Exp (OptionExpr "Some" (Some e))) env st r st' ↔
  evaluates (Exp e) env st r st'.
Proof.
  by rewrite (evaluates_unfold _ _ (fun ev => ev (Exp e) env)).
Qed.

Lemma none_expr_is_nil value env st :
  evaluates (Exp (OptionExpr "None" value)) env st (Ret VNone) st.
Proof. exists 1%nat. split; [reflexivity|discriminate]. Qed.

(** C10.  [Some(e)] evaluates as [e] does, to the bare payload, and [None]
    evaluates to [nil]; a [None] pattern matches exactly [nil] and a [Some]
    pattern exactly the values other than [nil].  So [Some(nil)] is [nil]:
    a [match] on it skips a [Some] arm and takes the [None] arm. *)
Theorem option_values_carry_no_tag :
  (∀ e env st r st',
     evaluates (Exp (OptionExpr "Some" (Some e))) env st r st' ↔
     evaluates (Exp e) env st r st')
  ∧ (∀ value env st,
       evaluates (Exp (OptionExpr "None" value)) env st (Ret VNone) st)
  ∧ (∀ inner v env st,
       match_pattern (OptionPattern "None" inner) v env st
       = (Ret (VBool (Py.is_none v)), st))
  ∧ (∀ inner v env st,
       match_pattern (OptionPattern "Some" inner) v env st
       = (Ret (VBool (negb (Py.is_none v))), st))
  ∧ (∀ v, Py.is_none v = true ↔ v = VNone)
  ∧ (∀ env st,
       evaluates (Exp (OptionExpr "Some" (Some NilLiteral))) env st
         (Ret VNone) st)
  ∧ (∀ inner inner' a b env st r st',
       evaluates
         (Exp (MatchExpr (OptionExpr "Some" (Some NilLiteral))
                 [mkMatchArm (OptionPattern "Some" inner) a;
                  mkMatchArm (OptionPattern "None" inner') b]))
         env st r st' ↔
       evaluates (Exp b) env st r st').
Proof.
  split; [exact some_expr_is_payload|].
  split; [exact none_expr_is_nil|].
  split; [done|]. split; [done|]. split; [exact is_none_iff|].
  assert (Hnil : ∀ env st,
            evaluates (Exp (OptionExpr "Some" (Some NilLiteral))) env st
              (Ret VNone) st).
  { intros. exists 2%nat. split; [reflexivity|discriminate]. }
  split; [exact Hnil|]. intros.
  rewrite (match_expr_first _ (OptionPattern "Some" inner) _ _ _ _ _ _
             (VBool false) st _ _ (Hnil env st) eq_refl). cbn [Py.truthy].
  by rewrite (match_arms_first (OptionPattern "None" inner') _ _ VNone env st
                (VBool true) st _ _ eq_refl).
Qed.

Lemma option_values_carry_no_tag_witness :
  evaluates
    (Exp (MatchExpr (OptionExpr "Some" (Some NilLiteral))
            [mkMatchArm (OptionPattern "Some" None) (IntLiteral 1);
             mkMatchArm (OptionPattern "None" None) (IntLiteral 2)]))
    global_env initial_state (Ret (VInt 2)) initial_state.
Proof.
  apply (proj2 (proj2 (proj2 (proj2 (proj2 (proj2 option_values_carry_no_tag)))))
           None None (IntLiteral 1) (IntLiteral 2) global_env initial_state).
  exists 1%nat. split; [reflexivity|discriminate].
Defined.

(** ** Attempt, rescue, finally *)

Lemma monotone_try_part body rescue env : monotone (try_part body rescue env).
Proof. intros ev ev' H. by apply try_part_mono. Qed.

#[local] Hint Resolve monotone_try_part : mono.

Lemma converges_try_finally {A}
    (C : (ASTNode -> addr -> M Value) -> M A)
    (F : (ASTNode -> addr -> M Value) -> M unit) st r st' :
  monotone C → monotone F →
  converges (fun ev => try_finally (C ev) (F ev)) st r st' ↔
  ∃ r1 st1, converges C st r1 st1 ∧
    match r1 with
    | Ret _ | Raise _ =>
        ∃ r2, converges F st1 r2 st' ∧ r = after_finally r1 r2
    | _ => r = r1 ∧ st' = st1
    end.
Proof.
  intros HC HF. split.
  - intros (n & H & Hr). unfold try_finally in H.
    destruct (C (eval n) st) as [r1 st1] eqn:E.
    exists r1, st1.
    destruct r1; simplify_eq;
      try (split; [by exists n|done]);
      destruct (F (eval n) st1) as [r2 st2] eqn:E2;
      (assert (r2 ≠ OutOfFuel) by (intros ->; by simplify_eq));
      (split; [by exists n|]); exists r2;
      (split; [exists n; by destruct r2; simplify_eq|]);
      by destruct r2; simplify_eq.
  - intros (r1 & st1 & (n1 & H1 & Hr1) & H).
    assert (Hcase : (∃ r2 n2, F (eval n2) st1 = (r2, st') ∧ r2 ≠ OutOfFuel
                      ∧ r = after_finally r1 r2
                      ∧ ((∃ a, r1 = Ret a) ∨ (∃ e, r1 = Raise e)))
                    ∨ (r = r1 ∧ st' = st1
                       ∧ (∀ a, r1 ≠ Ret a) ∧ (∀ e, r1 ≠ Raise e))).
    { destruct r1; try (right; by destruct H as [-> ->]);
        destruct H as (r2 & (n2 & H2 & Hr2) & ->); left; exists r2, n2;
        repeat split; eauto. }
    destruct Hcase as [(r2 & n2 & H2 & Hr2 & -> & Hk)|(-> & -> & Hn1 & Hn2)].
    + exists (Nat.max n1 n2). unfold try_finally.
      rewrite (converges_more C n1 (Nat.max n1 n2) _ _ _ HC ltac:(lia) H1 Hr1).
      rewrite (converges_more F n2 (Nat.max n1 n2) _ _ _ HF ltac:(lia) H2 Hr2).
      destruct Hk as [[a ->]|[e ->]]; destruct r2; done.
    + exists n1. unfold try_finally. rewrite H1.
      destruct r1; try done; [by destruct (Hn1 a)|by destruct (Hn2 e)].
Qed.

Lemma attempt_without_finally body rescue env st r st' :
  evaluates (Exp (AttemptExpr body rescue None)) env st r st' ↔
  converges (try_part body rescue env) st r st'.
Proof.
  rewrite (evaluates_unfold _ _
             (fun ev => eval_attempt_expr ev body rescue None env)) by done.
  unfold eval_attempt_expr, finally_suite.
  rewrite (converges_try_finally (try_part body rescue env) (fun _ => ret tt))
    by eauto with mono.
  split.
  - intros (r1 & st1 & H1 & H).
    destruct r1; try (by destruct H as [-> ->]);
      destruct H as (r2 & [[= <- <-] _]%converges_const & ->); done.
  - intros H. exists r, st'. split; [done|].
    destruct r; try done; exists (Ret tt); by rewrite converges_const.
Qed.

Lemma finally_suite_block fin env st r2 st' :
  converges (fun ev => finally_suite ev (Some (mkFinallyClause fin)) env)
    st r2 st' ↔
  ∃ rb, block_evaluates fin env st rb st' ∧
    r2 = match rb with Ret _ => Ret tt | other => cast other end.
Proof.
  unfold finally_suite.
  rewrite (converges_bind (fun ev => eval_block ev fin env)
             (fun _ _ => ret tt)) by eauto with mono.
  split.
  - intros (rb & st1 & Hb & H). exists rb.
    destruct rb; try (by destruct H as [-> ->]).
    by apply converges_const in H as [[= <- <-] _].
  - intros (rb & Hb & ->). exists rb, st'. split; [done|].
    destruct rb; first [done | by apply converges_const].
Qed.

Lemma attempt_with_finally body rescue fin env st r st' :
  evaluates (Exp (AttemptExpr body rescue (Some (mkFinallyClause fin))))
    env st r st' ↔
  ∃ r1 st1,
    evaluates (Exp (AttemptExpr body rescue None)) env st r1 st1 ∧
    match r1 with
    | Ret _ | Raise _ =>
        ∃ r2, block_evaluates fin env st1 r2 st' ∧ r = after_finally r1 r2
    | _ => r = r1 ∧ st' = st1
    end.
Proof.
  rewrite (evaluates_unfold _ _
             (fun ev => eval_attempt_expr ev body rescue
                          (Some (mkFinallyClause fin)) env)) by done.
  unfold eval_attempt_expr.
  rewrite (converges_try_finally (try_part body rescue env)
             (fun ev => finally_suite ev (Some (mkFinallyClause fin)) env));
    [|by eauto with mono|by intros ev ev' H; apply finally_suite_mono].
  split; intros (r1 & st1 & H1 & H); exists r1, st1;
    (split; [by apply attempt_without_finally|]);
    destruct r1; try done.
  all: destruct H as (r2 & H2 & ->).
  1,2: apply finally_suite_block in H2 as (rb & Hb & ->); exists rb;
       (split; [done|]); by destruct rb.
  all: exists (match r2 with Ret _ => Ret tt | other => cast other end);
       (split; [apply finally_suite_block; by exists r2|]); by destruct r2.
Qed.

Lemma converges_try_except {A}
    (C : (ASTNode -> addr -> M Value) -> M A)
    (H : exn -> (ASTNode -> addr -> M Value) -> M A) st r st' :
  monotone C → (∀ e, monotone (H e)) →
  converges (fun ev => try_except (C ev) (fun e => H e ev)) st r st' ↔
  ∃ r1 st1, converges C st r1 st1 ∧
    match r1 with
    | Raise e => converges (H e) st1 r st'
    | other => r = other ∧ st' = st1
    end.
Proof.
  intros HC HH. split.
  - intros (n & Hn & Hr). unfold try_except in Hn.
    destruct (C (eval n) st) as [r1 st1] eqn:E. exists r1, st1.
    destruct r1; simplify_eq; (split; [by exists n|]);
      first [done | by exists n].
  - intros (r1 & st1 & (n1 & H1 & Hr1) & Hk).
    destruct r1;
      try (destruct Hk as [-> ->]; exists n1; unfold try_except;
           by rewrite H1).
    destruct Hk as (n2 & H2 & Hr2). exists (Nat.max n1 n2). split; [|done].
    unfold try_except.
    rewrite (converges_more C n1 (Nat.max n1 n2) _ _ _ HC ltac:(lia) H1 Hr1).
    apply (converges_more (H e) n2); [done|lia|done|done].
Qed.

Lemma try_part_outcome body rescue env st r st' :
  converges (try_part body rescue env) st r st' ↔
  ∃ rb stb, block_evaluates body env st rb stb ∧
    match rb with
    | Raise e => converges (fun ev => rescue_handler ev rescue env e) stb r st'
    | other => r = other ∧ st' = stb
    end.
Proof.
  unfold try_part.
  apply (converges_try_except (fun ev => eval_block ev body env)
           (fun e ev => rescue_handler ev rescue env e));
    [by eauto with mono|].
  intros e ev ev' H. by apply rescue_handler_mono.
Qed.

(** C6, as the evaluator has it.  An attempt with a [finally] clause
    evaluates as the same attempt without it, followed by one evaluation of
    the [finally] block in the state that left behind.  The attempt without
    [finally] ends by returning a value (the body's, or the rescue block's
    after an error) or by raising (an error with no rescue clause, an error
    of the rescue block, or the [ReturnValue] of a [return]); on each of
    these exits the [finally] block runs, once.  If the block runs to its
    end, its value is dropped and the exit stands as it was; if the block
    raises, be it an error or the [ReturnValue] of a [return] inside it,
    that exception replaces the exit. *)
Theorem finally_runs_once_on_every_exit
    (body : list Statement) (rescue : option RescueClause)
    (fin : list Statement) (env : addr)
    (st : state) (r : res Value) (st' : state) :
  (evaluates (Exp (AttemptExpr body rescue (Some (mkFinallyClause fin))))
     env st r st' ↔
   ∃ r1 st1,
     evaluates (Exp (AttemptExpr body rescue None)) env st r1 st1 ∧
     match r1 with
     | Ret _ | Raise _ =>
         ∃ r2, block_evaluates fin env st1 r2 st' ∧
           r = match r2 with
               | Ret _ => r1
               | other => cast other
               end
     | _ => r = r1 ∧ st' = st1
     end)
  ∧ (evaluates (Exp (AttemptExpr body rescue None)) env st r st' ↔
     ∃ rb stb, block_evaluates body env st rb stb ∧
       match rb with
       | Raise e =>
           converges (fun ev => rescue_handler ev rescue env e) stb r st'
       | other => r = other ∧ st' = stb
       end).
Proof.
  split; [apply attempt_with_finally|].
  rewrite attempt_without_finally. apply try_part_outcome.
Qed.

Lemma finally_runs_once_on_every_exit_witness :
  evaluates
    (Exp (AttemptExpr [ExprStmt (VarRef "x")] None
            (Some (mkFinallyClause
                     [ExprStmt (Call (VarRef "print") [StringLiteral "f"])]))))
    global_env initial_state
    (Raise (UndefinedVariable "x")) (with_stdout [[VStr "f"]] initial_state).
Proof.
  apply (proj1 (finally_runs_once_on_every_exit
                  [ExprStmt (VarRef "x")] None
                  [ExprStmt (Call (VarRef "print") [StringLiteral "f"])]
                  global_env initial_state _ _)).
  exists (Raise (UndefinedVariable "x")), initial_state. split.
  - exists 4%nat. split; [reflexivity|discriminate].
  - exists (Ret VNone). split; [|reflexivity].
    exists 4%nat. split; [reflexivity|discriminate].
Defined.

(** C6 as the design document has it fails.  A [finally] block that raises
    no error but executes [return] suppresses the error on its way out of
    the attempt: the body's [UndefinedVariable] is replaced by the return,
    and the enclosing call yields 5.  It replaces a result as well: with the
    body [1] the call yields 5, not 1. *)
Lemma return_in_finally_replaces_the_exit :
  let fin := Some (mkFinallyClause [ReturnStmt (Some (IntLiteral 5))]) in
  eval 4 (Exp (AttemptExpr [ExprStmt (VarRef "x")] None None))
    global_env initial_state
  = (Raise (UndefinedVariable "x"), initial_state)
  ∧ eval_block (eval 3) [ReturnStmt (Some (IntLiteral 5))]
      global_env initial_state
    = (Raise (ReturnValue (VInt 5)), initial_state)
  ∧ spec_after_finally (Raise (UndefinedVariable "x"))
      (Raise (ReturnValue (VInt 5)))
    = Raise (UndefinedVariable "x")
  ∧ eval 4 (Exp (AttemptExpr [ExprStmt (VarRef "x")] None fin))
      global_env initial_state
    = (Raise (ReturnValue (VInt 5)), initial_state)
  ∧ fst (run 10 (return_in_finally [ExprStmt (VarRef "x")])) = Ret (VInt 5)
  ∧ fst (run 10 (return_in_finally [ExprStmt (IntLiteral 1)])) = Ret (VInt 5).
Proof. repeat split. Qed.

(** The four exits, each with a [finally] block that prints: the body
    returns; the body fails and is rescued; the body fails with no rescue
    clause; the body executes [return].  One line is printed every time. *)
Example finally_prints_once :
  let fin := Some (mkFinallyClause
                     [ExprStmt (Call (VarRef "print") [StringLiteral "f"])]) in
  let printed := with_stdout [[VStr "f"]] initial_state in
  let rescue := Some (mkRescueClause "e" [ExprStmt (IntLiteral 2)]) in
  let rescued :=
    with_heap (heap initial_state ++
               [{| parent := Some global_env;
                   bindings := {["e" := VExn (UndefinedVariable "x")]};
                   mutable := {["e" := false]} |}]) printed in
  run 6 (Exp (AttemptExpr [ExprStmt (IntLiteral 1)] rescue fin))
    = (Ret (VInt 1), printed)
  ∧ run 6 (Exp (AttemptExpr [ExprStmt (VarRef "x")] rescue fin))
    = (Ret (VInt 2), rescued)
  ∧ run 6 (Exp (AttemptExpr [ExprStmt (VarRef "x")] None fin))
    = (Raise (UndefinedVariable "x"), printed)
  ∧ run 6 (Exp (AttemptExpr [ReturnStmt (Some (IntLiteral 1))] None fin))
    = (Raise (ReturnValue (VInt 1)), printed)
  ∧ run 6 (Exp (AttemptExpr [ExprStmt (VarRef "x")] None
                  (Some (mkFinallyClause [ExprStmt (VarRef "y")]))))
    = (Raise (UndefinedVariable "y"), initial_state).
Proof. repeat split. Qed.

(** ** Return inside an attempt *)

(** A [ReturnValue] that leaves the body of an attempt with a rescue clause
    is handled by that clause, like any other exception. *)
Lemma rescue_handles_return body var block env st v st1 r st' :
  block_evaluates body env st (Raise (ReturnValue v)) st1 →
  evaluates (Exp (AttemptExpr body (Some (mkRescueClause var block)) None))
    env st r st' ↔
  converges
    (fun ev => rescue_handler ev (Some (mkRescueClause var block)) env
                 (ReturnValue v))
    st1 r st'.
Proof.
  intros Hb. rewrite attempt_without_finally, try_part_outcome. split.
  - intros (rb & stb & Hrb & H).
    destruct (converges_det _ _ _ _ _ _ (block_monotone body env) Hb Hrb)
      as [<- <-]. done.
  - intros H. by exists (Raise (ReturnValue v)), st1.
Qed.

(** Without a rescue clause it passes through. *)
Lemma return_passes_attempt_without_rescue body env st v st1 :
  block_evaluates body env st (Raise (ReturnValue v)) st1 →
  evaluates (Exp (AttemptExpr body None None)) env st
    (Raise (ReturnValue v)) st1.
Proof.
  intros Hb. rewrite attempt_without_finally, try_part_outcome.
  exists (Raise (ReturnValue v)), st1. split; [done|].
  by apply converges_const.
Qed.

(** C3: what the evaluator does at the failing input.  [f()] with
    [return 1] inside [attempt ... rescue e do 2 end] evaluates to 2: the
    rescue clause caught the [ReturnValue] and its block supplied the
    result.  Inside the rescue block [e] is the [ReturnValue] object itself,
    as [e.value] shows.  The same function without the rescue clause
    returns 1. *)
Theorem return_in_attempt_is_rescued :
  fst (run 10 (return_in_attempt
                (Some (mkRescueClause "e" [ExprStmt (IntLiteral 2)]))))
  = Ret (VInt 2)
  ∧ fst (run 10 (return_in_attempt
                  (Some (mkRescueClause "e"
                           [ExprStmt (BinaryExpr (Attr (VarRef "e") "value")
                                        ADD (IntLiteral 100))]))))
    = Ret (VInt 101)
  ∧ fst (run 10 (return_in_attempt None)) = Ret (VInt 1).
Proof. repeat split. Qed.

(** ** Await *)

(** C9, as the evaluator has it.  [await e] returns the value of [e]
    unchanged when that value is neither a strand handle nor an awaitable of
    the host (the [asyncio.Task] inside a handle, which [eval_await_expr]
    awaits as well). *)
Theorem await_is_identity_on_non_awaitables
    (e : Expr) (env : addr) (st : state) (v : Value) (st1 : state) :
  evaluates (Exp e) env st (Ret v) st1 →
  (∀ t, v ≠ VStrand t) → (∀ t, v ≠ VTask t) →
  evaluates (Exp (AwaitExpr e)) env st (Ret v) st1.
Proof.
  intros Hv Hs Ht.
  rewrite (evaluates_unfold _ _ (fun ev => eval_await_expr ev e env)) by done.
  unfold eval_await_expr.
  rewrite (converges_after _ _
             (fun v _ => match v with
                         | VStrand task => await_task task
                         | _ =>
                             if Py.awaitable v then
                               match v with
                               | VTask task => await_task task
                               | _ => lift Unmodelled
                               end
                             else ret v
                         end) st v st1); [|by eauto with mono|done].
  apply converges_const. split; [|done].
  destruct v; try done; [by destruct (Hs task)|by destruct (Ht task)].
Qed.

Lemma await_is_identity_on_non_awaitables_witness :
  evaluates (Exp (AwaitExpr (IntLiteral 5))) global_env initial_state
    (Ret (VInt 5)) initial_state.
Proof.
  apply (await_is_identity_on_non_awaitables
           (IntLiteral 5) global_env initial_state (VInt 5) initial_state).
  - exists 1%nat. split; [reflexivity|discriminate].
  - discriminate.
  - discriminate.
Defined.

(** C9 as the design document has it fails.  In [strand_started] the
    expression [s.task] has a value that is not a strand handle, the task
    object; [await s.task] does not return it: it suspends on the task, and
    once the task has finished it returns the task's result. *)
Lemma await_on_task_object_is_not_identity :
  let e := Attr (VarRef "s") "task" in
  let finished := with_tasks [Finished (VInt 1)] strand_started in
  eval 3 (Exp e) global_env strand_started = (Ret (VTask 0), strand_started)
  ∧ (∀ t, VTask 0 ≠ VStrand t)
  ∧ eval 4 (Exp (AwaitExpr e)) global_env strand_started
    = (Suspend 0, strand_started)
  ∧ ¬ evaluates (Exp (AwaitExpr e)) global_env strand_started
        (Ret (VTask 0)) strand_started
  ∧ eval 3 (Exp e) global_env finished = (Ret (VTask 0), finished)
  ∧ eval 4 (Exp (AwaitExpr e)) global_env finished
    = (Ret (VInt 1), finished).
Proof.
  split_and!; try reflexivity; try discriminate.
  intros H.
  assert (H' : evaluates (Exp (AwaitExpr (Attr (VarRef "s") "task")))
                 global_env strand_started (Suspend 0) strand_started).
  { exists 4%nat. split; [reflexivity|discriminate]. }
  by pose proof (evaluates_agree _ _ _ _ _ _ _ H H').
Qed.

(** ** The heap stays well formed *)

Lemma closed_list n l : closed n (VList l) ↔ Forall (closed n) l.
Proof.
  induction l as [|x l IH]; simpl; [by split|].
  rewrite Forall_cons. simpl in IH. by rewrite IH.
Qed.

Lemma closed_tuple n l : closed n (VTuple l) ↔ Forall (closed n) l.
Proof. apply closed_list. Qed.

Lemma closed_dict n d : closed n (VDict d) ↔ Forall (fun kv => closed n (snd kv)) d.
Proof.
  induction d as [|[k x] d IH]; simpl; [by split|].
  rewrite Forall_cons. simpl in IH. by rewrite IH.
Qed.

Lemma closed_mono n m :
  (n ≤ m)%nat → ∀ v, closed n v → closed m v
with closed_exn_mono n m :
  (n ≤ m)%nat → ∀ e, closed_exn n e → closed_exn m e.
Proof.
  - intros Hle v. destruct v; simpl; try done.
    + induction items as [|x l IH]; [done|].
      intros [Hx Hl]. split; [by apply (closed_mono n m)|by apply IH].
    + induction entries as [|[k x] l IH]; [done|].
      intros [Hx Hl]. split; [by apply (closed_mono n m)|by apply IH].
    + induction items as [|x l IH]; [done|].
      intros [Hx Hl]. split; [by apply (closed_mono n m)|by apply IH].
    + lia.
    + by apply closed_exn_mono.
  - intros Hle e. destruct e; simpl; try done; by apply closed_mono.
Qed.

Lemma scope_ok_mono n m e : (n ≤ m)%nat → scope_ok n e → scope_ok m e.
Proof.
  intros Hle H. eapply map_Forall_impl; [exact H|].
  intros k v. by apply closed_mono.
Qed.

Lemma task_ok_mono n m t : (n ≤ m)%nat → task_ok n t → task_ok m t.
Proof.
  intros Hle. destruct t; simpl; [lia|by apply closed_mono|by apply closed_exn_mono].
Qed.

Lemma upward_closed : upward closed.
Proof. intros n m v Hle. by apply closed_mono. Qed.
Lemma upward_anything {A} : upward (@anything A).
Proof. done. Qed.
Lemma upward_below : upward below.
Proof. unfold below. intros n m a. lia. Qed.
Lemma upward_all_closed : upward all_closed.
Proof.
  intros n m l Hle H. eapply Forall_impl; [exact H|].
  intros v. by apply closed_mono.
Qed.

Create HintDb snd.
#[local] Hint Resolve upward_closed upward_anything upward_below upward_all_closed : snd.

Lemma ok_res_mono {A} (P : nat -> A -> Prop) n m r :
  upward P → (n ≤ m)%nat → ok_res P n r → ok_res P m r.
Proof.
  intros HP Hle. destruct r; simpl; try done; [by apply HP|by apply closed_exn_mono].
Qed.

Lemma sound_weaken {A} n0 n1 (c : M A) P :
  sound n0 c P → (n0 ≤ n1)%nat → sound n1 c P.
Proof. intros Hc Hle st r st' Hok Hn. apply Hc; [done|lia]. Qed.

Lemma sound_lift {A} n0 (r : res A) P :
  upward P → ok_res P n0 r → sound n0 (lift r) P.
Proof.
  intros HP Hr st r' st' Hok Hn [= <- <-]. split_and!; try done.
  by eapply ok_res_mono.
Qed.

Lemma sound_ret {A} n0 (a : A) P : upward P → P n0 a → sound n0 (ret a) P.
Proof. intros HP Ha. by apply (sound_lift n0 (Ret a)). Qed.

Lemma sound_raise {A} n0 e (P : nat -> A -> Prop) :
  closed_exn n0 e → sound n0 (raise e) P.
Proof.
  intros He st r' st' Hok Hn [= <- <-]. split_and!; try done.
  simpl. by eapply closed_exn_mono.
Qed.

Lemma sound_bind {A B} n0 (c : M A) (k : A -> M B) P Q :
  sound n0 c P →
  (∀ a n1, (n0 ≤ n1)%nat → P n1 a → sound n1 (k a) Q) →
  sound n0 (bind c k) Q.
Proof.
  intros Hc Hk st r st' Hok Hn. unfold bind.
  destruct (c st) as [ra st1] eqn:E.
  destruct (Hc _ _ _ Hok Hn E) as (Hok1 & Hle1 & Hra).
  destruct ra; try (intros [= <- <-]; split_and!; done).
  intros H.
  destruct (Hk a (length (heap st1)) ltac:(lia) Hra _ _ _ Hok1 ltac:(lia) H)
    as (Hok2 & Hle2 & Hr).
  split_and!; try done. lia.
Qed.

Lemma sound_try_except {A} n0 (c : M A) (h : exn -> M A) P :
  sound n0 c P →
  (∀ e n1, (n0 ≤ n1)%nat → closed_exn n1 e → sound n1 (h e) P) →
  sound n0 (try_except c h) P.
Proof.
  intros Hc Hh st r st' Hok Hn. unfold try_except.
  destruct (c st) as [ra st1] eqn:E.
  destruct (Hc _ _ _ Hok Hn E) as (Hok1 & Hle1 & Hra).
  destruct ra; try (intros [= <- <-]; split_and!; done).
  intros H.
  destruct (Hh e (length (heap st1)) ltac:(lia) Hra _ _ _ Hok1 ltac:(lia) H)
    as (Hok2 & Hle2 & Hr).
  split_and!; try done. lia.
Qed.

Lemma sound_catch_return n0 (c : M Value) :
  sound n0 c closed → sound n0 (catch_return c) closed.
Proof.
  intros Hc st r st' Hok Hn. unfold catch_return.
  destruct (c st) as [ra st1] eqn:E.
  destruct (Hc _ _ _ Hok Hn E) as (Hok1 & Hle1 & Hra).
  destruct ra as [|[]| | |]; intros [= <- <-]; split_and!; done.
Qed.

Lemma sound_try_finally {A} n0 (c : M A) (f : M unit) P :
  upward P → sound n0 c P → (∀ n1, (n0 ≤ n1)%nat → sound n1 f anything) →
  sound n0 (try_finally c f) P.
Proof.
  intros HP Hc Hf st r st' Hok Hn. unfold try_finally.
  destruct (c st) as [ra st1] eqn:E.
  destruct (Hc _ _ _ Hok Hn E) as (Hok1 & Hle1 & Hra).
  destruct ra; try (intros [= <- <-]; split_and!; done);
    destruct (f st1) as [rf st2] eqn:F;
    destruct (Hf (length (heap st1)) ltac:(lia) _ _ _ Hok1 ltac:(lia) F)
      as (Hok2 & Hle2 & Hrf);
    destruct rf; intros [= <- <-]; split_and!; try done; try lia;
    simpl in *; first [by eapply HP | by eapply closed_exn_mono].
Qed.

(** *** The host operations create no closure *)

Lemma plain_ok_res n (r : res Value) : plain (closed 0) r → ok_res closed n r.
Proof.
  destruct r; simpl; try done;
    [apply closed_mono|apply closed_exn_mono]; lia.
Qed.

Lemma plain_rbind {A B} (P : A -> Prop) (Q : B -> Prop) (r : res A)
    (k : A -> res B) :
  plain P r → (∀ a, P a → plain Q (k a)) → plain Q (rbind r k).
Proof. destruct r; simpl; try done. intros Ha Hk. by apply Hk. Qed.

Lemma Z_to_float_plain z : plain (fun _ => True) (Py.Z_to_float z).
Proof. unfold Py.Z_to_float. by destruct (PrimFloat.is_infinity _). Qed.

Lemma to_float_plain a : plain (fun _ => True) (Py.to_float a).
Proof. destruct a; [apply Z_to_float_plain|done]. Qed.

Lemma arith_plain fi ff a b : plain (closed 0) (Py.arith fi ff a b).
Proof.
  destruct a, b; simpl; try done;
    repeat (eapply plain_rbind; [apply to_float_plain || apply Z_to_float_plain|intros ? _]);
    done.
Qed.

Lemma num_truediv_plain a b : plain (closed 0) (Py.num_truediv a b).
Proof.
  destruct a, b; simpl;
    try (repeat (eapply plain_rbind;
                 [apply to_float_plain || apply Z_to_float_plain|intros ? _]);
         by destruct (PrimFloat.eqb _ _)).
  destruct (_ =? _); [done|]. by destruct (PrimFloat.is_infinity _).
Qed.

Lemma num_mod_plain a b : plain (closed 0) (Py.num_mod a b).
Proof. destruct a, b; simpl; try done. by destruct (_ =? _). Qed.

Lemma sub_plain v w : plain (closed 0) (Py.sub v w).
Proof.
  unfold Py.sub. destruct (Py.as_num v), (Py.as_num w); try done.
  apply arith_plain.
Qed.

Lemma truediv_plain v w : plain (closed 0) (Py.truediv v w).
Proof.
  unfold Py.truediv. destruct (Py.as_num v), (Py.as_num w); try done.
  apply num_truediv_plain.
Qed.

Lemma mod_plain v w : plain (closed 0) (Py.mod_ v w).
Proof.
  unfold Py.mod_.
  destruct v; try done;
    destruct (Py.as_num _), (Py.as_num w); try done; apply num_mod_plain.
Qed.

Lemma neg_plain v : plain (closed 0) (Py.neg v).
Proof. unfold Py.neg. by destruct (Py.as_num v) as [[]|]. Qed.

Lemma pos_plain v : plain (closed 0) (Py.pos v).
Proof. unfold Py.pos. by destruct (Py.as_num v) as [[]|]. Qed.

Lemma as_num_closed n v a : Py.as_num v = Some a → closed n v.
Proof. by destruct v. Qed.

Lemma add_closed n v w :
  closed n v → closed n w → ok_res closed n (Py.add v w).
Proof.
  intros Hv Hw. unfold Py.add.
  destruct (Py.as_num v) eqn:Ev, (Py.as_num w) eqn:Ew;
    try (by apply plain_ok_res, arith_plain);
    destruct v, w; try done; simpl;
    apply closed_list; apply Forall_app;
    split; by apply closed_list.
Qed.

Lemma list_repeat_closed n k l :
  Forall (closed n) l → Forall (closed n) (Py.list_repeat k l).
Proof. intros Hl. induction k; simpl; [done|]. by apply Forall_app. Qed.

Lemma repeat_seq_closed n v k : closed n v → ok_res closed n (Py.repeat_seq v k).
Proof.
  intros Hv. destruct v; simpl; try done;
    apply closed_list, list_repeat_closed; by apply closed_list.
Qed.

Lemma mul_closed n v w :
  closed n v → closed n w → ok_res closed n (Py.mul v w).
Proof.
  intros Hv Hw. unfold Py.mul.
  destruct (Py.as_num v) eqn:Ev, (Py.as_num w) eqn:Ew;
    try (by apply plain_ok_res, arith_plain);
    destruct (Py.as_index v), (Py.as_index w); try done;
    by apply repeat_seq_closed.
Qed.

(** [==] never raises, and the ordering operators raise [TypeError] only. *)
Lemma eq_plain : ∀ v w, plain (fun _ : bool => True) (Py.eq v w).
Proof.
  fix IH 1. intros v w.
  destruct v, w; simpl; try done;
    try (by destruct (negb _)).
  - destruct (negb _); [done|]. revert items0.
    induction items as [|x l IHl]; intros [|y m]; try done.
    eapply plain_rbind; [|intros b _; destruct b; [apply IHl|done]].
    destruct (_ && _); [done|apply IH].
  - destruct (negb _); [done|].
    induction entries as [|[k x] l IHl]; try done.
    destruct (list_find _ _) as [[? [? y]]|]; [|done].
    eapply plain_rbind; [|intros b _; destruct b; [apply IHl|done]].
    destruct (_ && _); [done|apply IH].
  - destruct (negb _); [done|]. revert items0.
    induction items as [|x l IHl]; intros [|y m]; try done.
    eapply plain_rbind; [|intros b _; destruct b; [apply IHl|done]].
    destruct (_ && _); [done|apply IH].
Qed.

Lemma ord_plain op : ∀ v w, plain (fun _ : bool => True) (Py.ord op v w).
Proof.
  fix IH 1. intros v w.
  destruct v, w; simpl; try done.
  - revert items0.
    induction items as [|x l IHl]; intros [|y m]; try done.
    eapply plain_rbind; [|intros b _; destruct b; [apply IHl|apply IH]].
    destruct (_ && _); [done|apply eq_plain].
  - revert items0.
    induction items as [|x l IHl]; intros [|y m]; try done.
    eapply plain_rbind; [|intros b _; destruct b; [apply IHl|apply IH]].
    destruct (_ && _); [done|apply eq_plain].
Qed.

Lemma as_bool_plain (r : res bool) :
  plain (fun _ => True) r → plain (closed 0) (let+ b := r in Ret (VBool b)).
Proof. intros Hr. by eapply plain_rbind. Qed.

Lemma ne_plain v w : plain (fun _ : bool => True) (Py.ne v w).
Proof. unfold Py.ne. eapply plain_rbind; [apply eq_plain|done]. Qed.

Lemma seq_item_closed n l i :
  Forall (closed n) l → ok_res closed n (Py.seq_item l i).
Proof.
  intros Hl. unfold Py.seq_item.
  destruct (_ || _); [done|].
  destruct (l !! _) eqn:E; [|done]. simpl.
  by eapply Forall_lookup_1.
Qed.

Lemma chars_closed n s : Forall (closed n) (Py.chars s).
Proof. unfold Py.chars. apply Forall_fmap, Forall_true. done. Qed.

Lemma dict_get_closed n d k v :
  closed n (VDict d) → Py.dict_get d k = Some v → closed n v.
Proof.
  rewrite closed_dict. unfold Py.dict_get. intros Hd.
  destruct (list_find _ d) as [[i [k' x]]|] eqn:E; [|done].
  intros [= <-]. apply list_find_Some in E as (Hi & _).
  by apply (Forall_lookup_1 _ _ _ _ Hd Hi).
Qed.

Lemma dict_set_closed n d k v :
  closed n (VDict d) → closed n v → closed n (VDict (Py.dict_set d k v)).
Proof.
  rewrite !closed_dict. intros Hd Hv.
  induction d as [|[k' y] d IH]; simpl.
  - by constructor.
  - apply Forall_cons in Hd as [Hy Hd].
    destruct (String.eqb k' k); constructor; auto.
Qed.

Lemma getitem_closed n obj index :
  closed n obj → ok_res closed n (Py.getitem obj index).
Proof.
  intros Hobj. destruct obj; simpl; try done.
  - destruct (Py.as_index index); [|done]. apply seq_item_closed, chars_closed.
  - destruct (Py.as_index index); [|done]. by apply seq_item_closed, closed_list.
  - destruct (negb _); [done|]. destruct index; try done.
    destruct (Py.dict_get _ _) eqn:E; [|done]. by eapply dict_get_closed.
  - destruct (Py.as_index index); [|done]. by apply seq_item_closed, closed_list.
  - destruct (Py.as_index index); [|done]. by destruct (_ || _).
Qed.

Lemma iter_closed n v : closed n v → ok_res all_closed n (Py.iter v).
Proof.
  intros Hv. destruct v; simpl; try done.
  - apply chars_closed.
  - by apply closed_list.
  - apply Forall_fmap, Forall_true. done.
  - by apply closed_list.
  - apply Forall_fmap, Forall_true. done.
Qed.

Lemma getattr_closed n obj name :
  closed n obj → ok_res closed n (Py.getattr obj name).
Proof.
  intros Hobj. destruct obj as [| | | | | | | | | | | | |[]]; simpl; try done;
    by destruct (String.eqb _ _).
Qed.

Lemma call_builtin_sound n0 b args :
  sound n0 (Py.call_builtin b args) closed.
Proof.
  destruct b, args as [|x [|y [|z args]]]; simpl;
    try (by apply sound_raise);
    try (intros st r st' Hok Hn [= <- <-]; split_and!; try done;
         by destruct Hok);
    apply sound_lift; auto with snd; apply plain_ok_res.
  - unfold Py.range. by destruct (Py.as_index x), (Py.as_index y).
  - destruct x; simpl; try done. by destruct (_ <? _).
  - by destruct x.
  - by destruct x.
  - destruct x; simpl; try done.
    eapply plain_rbind; [apply Z_to_float_plain|done].
Qed.

(** *** The methods of [Environment] keep the invariant *)

Lemma chain_ok_insert h b e e' :
  chain_ok h → h !! b = Some e → parent e' = parent e →
  chain_ok (<[b := e']> h).
Proof.
  intros Hok Hb Hp a e0 p Ha Hq.
  destruct (decide (a = b)) as [->|Hne].
  - rewrite list_lookup_insert_eq in Ha by by eapply lookup_lt_Some.
    simplify_eq. rewrite Hp in Hq. by eapply Hok.
  - rewrite list_lookup_insert_ne in Ha by done. by eapply Hok.
Qed.

Lemma state_ok_insert st b e e' :
  state_ok st → heap st !! b = Some e → parent e' = parent e →
  scope_ok (length (heap st)) e' →
  state_ok (with_heap (<[b := e']> (heap st)) st).
Proof.
  intros [Hc Hs Ht] Hb Hp He'. split; simpl.
  - by eapply chain_ok_insert.
  - rewrite length_insert. by apply Forall_insert.
  - by rewrite length_insert.
Qed.

Lemma new_sound n0 p : (p < n0)%nat → sound n0 (Env.new (Some p)) below.
Proof.
  intros Hp st r st' [Hc Hs Ht] Hn [= <- <-]. simpl.
  rewrite length_app. simpl. split_and!; [|lia|unfold below; lia].
  split; simpl.
  - intros a e q Ha Hq.
    destruct (decide (a < length (heap st))%nat) as [Hlt|Hge].
    + rewrite lookup_app_l in Ha by done. by eapply Hc.
    + rewrite lookup_app_r in Ha by lia.
      destruct (a - length (heap st))%nat eqn:E; [|by destruct n].
      simpl in Ha. simplify_eq. simpl in Hq. simplify_eq. lia.
  - rewrite length_app. simpl. apply Forall_app. split.
    + eapply Forall_impl; [exact Hs|]. intros e. apply scope_ok_mono. lia.
    + constructor; [|done]. apply map_Forall_empty.
  - rewrite length_app. simpl.
    eapply Forall_impl; [exact Ht|]. intros t. apply task_ok_mono. lia.
Qed.

Lemma define_sound n0 self name v mut :
  closed n0 v → sound n0 (Env.define self name v mut) anything.
Proof.
  intros Hv st r st' Hok Hn. unfold Env.define.
  destruct (heap st !! self) as [e|] eqn:He; [|by intros [= <- <-]].
  destruct (bindings e !! name); intros [= <- <-]; [done|].
  split_and!; [|by simpl; rewrite length_insert|done].
  eapply state_ok_insert; [done..|].
  apply map_Forall_insert_2.
  - eapply closed_mono; [|done]. lia.
  - destruct Hok as [_ Hs _]. by eapply (Forall_lookup_1 _ _ _ _ Hs He).
Qed.

Lemma get_from_closed m n h self name :
  Forall (scope_ok m) h → ok_res closed m (Env.get_from n h self name).
Proof.
  intros Hs. revert self. induction n as [|n IH]; intros self; simpl; [done|].
  destruct (h !! self) as [e|] eqn:He; [|done].
  destruct (bindings e !! name) as [v|] eqn:Hv.
  - simpl. by eapply (Forall_lookup_1 _ _ _ _ Hs He).
  - destruct (parent e); [apply IH|done].
Qed.

Lemma get_sound n0 self name : sound n0 (Env.get self name) closed.
Proof.
  intros st r st' Hok Hn [= <- <-]. split_and!; try done.
  apply get_from_closed. by destruct Hok.
Qed.

Lemma set_from_shape n h self name v :
  match Env.set_from n h self name v with
  | Ret h' => ∃ b e, h !! b = Some e ∧ h' = <[b := rebind e name v]> h
  | Raise e => closed_exn 0 e
  | _ => True
  end.
Proof.
  revert self. induction n as [|n IH]; intros self; simpl; [done|].
  destruct (h !! self) as [e|] eqn:He; [|done].
  destruct (bindings e !! name) as [w|] eqn:Hw.
  - destruct (mutable e !! name) as [[]|]; try done. by exists self, e.
  - destruct (parent e); [apply IH|done].
Qed.

Lemma set_sound n0 self name v :
  closed n0 v → sound n0 (Env.set self name v) anything.
Proof.
  intros Hv st r st' Hok Hn. unfold Env.set.
  pose proof (set_from_shape (length (heap st)) (heap st) self name v) as H.
  destruct (Env.set_from _ _ _ _ _) as [h'| | | |]; intros [= <- <-];
    try done.
  - destruct H as (b & e & Hb & ->).
    split_and!; [|by simpl; rewrite length_insert|done].
    eapply state_ok_insert; [done..|].
    apply map_Forall_insert_2.
    + eapply closed_mono; [|done]. lia.
    + destruct Hok as [_ Hs _]. by eapply (Forall_lookup_1 _ _ _ _ Hs Hb).
  - split_and!; try done. simpl. eapply closed_exn_mono; [|done]. lia.
Qed.

Lemma create_task_sound n0 body strand_env :
  (strand_env < n0)%nat → sound n0 (create_task body strand_env) anything.
Proof.
  intros Hlt st r st' [Hc Hs Ht] Hn [= <- <-]. split_and!; try done.
  split; simpl; try done.
  apply Forall_app. split; [done|]. constructor; [simpl; lia|done].
Qed.

Lemma await_task_sound n0 t : sound n0 (await_task t) closed.
Proof.
  intros st r st' Hok Hn. unfold await_task.
  destruct (tasks st !! t) as [[]|] eqn:E; intros [= <- <-];
    split_and!; try done;
    destruct Hok as [_ _ Ht]; by apply (Forall_lookup_1 _ _ _ _ Ht E).
Qed.

(** *** The evaluator keeps the invariant *)

(** Facts established at a smaller heap still hold. *)
Ltac up :=
  first
    [ assumption
    | by (eapply closed_mono; [|eassumption]; lia)
    | by (eapply closed_exn_mono; [|eassumption]; lia)
    | by (eapply upward_all_closed; [|eassumption]; lia)
    | by (unfold below in *; lia)
    | lia
    | done ].

Ltac snd_bind := eapply sound_bind; [|intros ? ? ? ?].

Section Sound.

Variable ev : ASTNode -> addr -> M Value.
Hypothesis Hev : ev_sound ev.

Lemma run_stmts_sound stmts env result n0 :
  (env < n0)%nat → closed n0 result →
  sound n0 (run_stmts ev stmts env result) closed.
Proof.
  revert result n0. induction stmts as [|s rest IH]; intros result n0 He Hr;
    simpl.
  - apply sound_ret; auto with snd.
  - snd_bind; [by apply Hev|]. apply IH; up.
Qed.

Lemma eval_block_sound stmts env n0 :
  (env < n0)%nat → sound n0 (eval_block ev stmts env) closed.
Proof. intros He. by apply run_stmts_sound. Qed.

Lemma eval_exprs_sound es env n0 :
  (env < n0)%nat → sound n0 (eval_exprs ev es env) all_closed.
Proof.
  revert n0. induction es as [|e rest IH]; intros n0 He; simpl.
  - apply sound_ret; auto with snd. constructor.
  - snd_bind; [by apply Hev|].
    snd_bind; [apply IH; up|].
    apply sound_ret; auto with snd. constructor; up.
Qed.

Lemma map_entries_sound entries env result n0 :
  (env < n0)%nat → closed n0 (VDict result) →
  sound n0 (map_entries ev entries env result) closed.
Proof.
  revert result n0.
  induction entries as [|[k e] rest IH]; intros result n0 He Hr; simpl.
  - apply sound_ret; auto with snd.
  - snd_bind; [by apply Hev|]. apply IH; [up|].
    apply dict_set_closed; up.
Qed.

Lemma bind_params_sound func_env pairs n0 :
  Forall (fun pa : Param * Value => closed n0 (snd pa)) pairs →
  sound n0 (bind_params func_env pairs) anything.
Proof.
  revert n0. induction pairs as [|[p a] rest IH]; intros n0 Hp; simpl.
  - by apply sound_ret.
  - apply Forall_cons in Hp as [Ha Hrest].
    snd_bind; [by apply define_sound|]. apply IH.
    eapply Forall_impl; [exact Hrest|]. intros pa Hpa. simpl in *. up.
Qed.

Lemma zip_closed n (ps : list Param) args :
  Forall (closed n) args →
  Forall (fun pa : Param * Value => closed n (snd pa)) (zip ps args).
Proof.
  intros Ha. revert ps. induction Ha as [|a args Ha _ IH]; intros [|p ps];
    simpl; try constructor; auto.
Qed.

Lemma call_function_sound func args env n0 :
  closed n0 func → Forall (closed n0) args →
  sound n0 (call_function ev func args env) closed.
Proof.
  intros Hf Ha. unfold call_function.
  destruct func; try (by apply sound_raise); simpl in *.
  - snd_bind; [by apply new_sound|].
    destruct (negb _); [by apply sound_raise|].
    snd_bind.
    { apply bind_params_sound, zip_closed.
      eapply Forall_impl; [exact Ha|]. intros v Hv. up. }
    apply sound_catch_return, eval_block_sound. up.
  - apply call_builtin_sound.
Qed.

Lemma as_value_sound n0 (r : res bool) :
  plain (fun _ => True) r →
  sound n0 (lift (let+ b := r in Ret (VBool b))) closed.
Proof.
  intros Hr. apply sound_lift; auto with snd.
  by apply plain_ok_res, as_bool_plain.
Qed.

Lemma eval_binary_expr_sound l op r env n0 :
  (env < n0)%nat → sound n0 (eval_binary_expr ev l op r env) closed.
Proof.
  intros He. unfold eval_binary_expr.
  snd_bind; [by apply Hev|]. snd_bind; [apply Hev; up|].
  destruct op;
    try (apply as_value_sound;
         first [apply eq_plain | apply ne_plain | apply ord_plain]);
    try (apply sound_lift; auto with snd;
         first [ apply add_closed; up
               | apply mul_closed; up
               | apply plain_ok_res;
                 first [apply sub_plain | apply truediv_plain | apply mod_plain] ]).
  - apply sound_ret; auto with snd. unfold Py.and_.
    destruct (Py.truthy _); up.
  - apply sound_ret; auto with snd. unfold Py.or_.
    destruct (Py.truthy _); up.
  - destruct (Py.callable _); [|by apply sound_raise].
    apply call_function_sound; [up|]. constructor; [up|done].
  - destruct (Py.callable _); [|by apply sound_raise].
    apply call_function_sound; [up|]. constructor; [up|done].
Qed.

Lemma eval_elifs_sound clauses els env n0 :
  (env < n0)%nat → sound n0 (eval_elifs ev clauses els env) closed.
Proof.
  revert n0. induction clauses as [|[c b] rest IH]; intros n0 He; simpl.
  - destruct els as [[|s ss]|]; try (by apply sound_ret; auto with snd).
    by apply eval_block_sound.
  - snd_bind; [by apply Hev|].
    destruct (Py.truthy _); [apply eval_block_sound|apply IH]; up.
Qed.

Lemma match_pattern_sound p v env n0 :
  closed n0 v → sound n0 (match_pattern p v env) closed.
Proof.
  intros Hv. destruct p; simpl; try (by apply sound_ret; auto with snd).
  - apply as_value_sound, eq_plain.
  - snd_bind; [by apply define_sound|]. by apply sound_ret; auto with snd.
  - repeat (destruct (String.eqb _ _)); by apply sound_ret; auto with snd.
Qed.

Lemma match_arms_sound arms v env n0 :
  (env < n0)%nat → closed n0 v → sound n0 (match_arms ev arms v env) closed.
Proof.
  revert n0. induction arms as [|[p e] rest IH]; intros n0 He Hv; simpl.
  - by apply sound_raise.
  - snd_bind; [by apply match_pattern_sound|].
    destruct (Py.truthy _); [apply Hev|apply IH]; up.
Qed.

Lemma for_items_sound var body env items result n0 :
  (env < n0)%nat → Forall (closed n0) items → closed n0 result →
  sound n0 (for_items ev var body env items result) closed.
Proof.
  revert result n0.
  induction items as [|item rest IH]; intros result n0 He Hi Hr; simpl.
  - apply sound_ret; auto with snd.
  - apply Forall_cons in Hi as [Hitem Hrest].
    snd_bind; [by apply new_sound|].
    snd_bind; [apply define_sound; up|].
    snd_bind; [apply run_stmts_sound; up|].
    apply IH; [up| |up].
    eapply Forall_impl; [exact Hrest|]. intros v Hv. up.
Qed.

Lemma while_loop_sound n condition body env result n0 :
  (env < n0)%nat → closed n0 result →
  sound n0 (while_loop ev n condition body env result) closed.
Proof.
  revert result n0. induction n as [|n IH]; intros result n0 He Hr; simpl.
  - by apply sound_lift; auto with snd.
  - snd_bind; [by apply Hev|].
    destruct (negb _); [apply sound_ret; auto with snd; up|].
    snd_bind; [apply run_stmts_sound; up|]. apply IH; up.
Qed.

Lemma rescue_handler_sound rescue env e n0 :
  (env < n0)%nat → closed_exn n0 e →
  sound n0 (rescue_handler ev rescue env e) closed.
Proof.
  intros He Hexn. destruct rescue as [[var block]|]; simpl;
    [|by apply sound_raise].
  snd_bind; [by apply new_sound|].
  snd_bind; [apply define_sound; simpl; up|].
  apply eval_block_sound. up.
Qed.

Lemma finally_suite_sound finally_clause env n0 :
  (env < n0)%nat → sound n0 (finally_suite ev finally_clause env) anything.
Proof.
  intros He. destruct finally_clause as [[block]|]; simpl;
    [|by apply sound_ret].
  snd_bind; [by apply eval_block_sound|]. by apply sound_ret.
Qed.

Lemma eval_attempt_expr_sound body rescue finally_clause env n0 :
  (env < n0)%nat →
  sound n0 (eval_attempt_expr ev body rescue finally_clause env) closed.
Proof.
  intros He. unfold eval_attempt_expr.
  apply sound_try_finally; auto with snd.
  - apply sound_try_except; [by apply eval_block_sound|].
    intros e n1 Hn1 Hexn. apply rescue_handler_sound; up.
  - intros n1 Hn1. apply finally_suite_sound. up.
Qed.

Lemma eval_await_expr_sound expr env n0 :
  (env < n0)%nat → sound n0 (eval_await_expr ev expr env) closed.
Proof.
  intros He. unfold eval_await_expr. snd_bind; [by apply Hev|].
  destruct a; simpl; try (apply sound_ret; auto with snd; up);
    apply await_task_sound.
Qed.

Lemma dispatch_sound n node env n0 :
  (env < n0)%nat →
  sound n0
    (match node with
     | Module statements => eval_module ev statements env
     | Stmt (LetDecl name value) => eval_let_decl ev name value env
     | Stmt (VarDecl name value) => eval_var_decl ev name value env
     | Stmt (ConstDecl name value) => eval_const_decl ev name value env
     | Stmt (FnDecl name params body) => eval_fn_decl name params body env
     | Stmt (ReturnStmt value) => eval_return_stmt ev value env
     | Stmt (ExprStmt expr) => ev (Exp expr) env
     | Stmt (Import _ _ _ _) => ret VNone
     | Stmt (CapabilityRequest _ _) => ret VNone
     | Exp (IntLiteral value) => ret (VInt value)
     | Exp (FloatLiteral value) => ret (VFloat value)
     | Exp (StringLiteral value) => ret (VStr value)
     | Exp (BoolLiteral value) => ret (VBool value)
     | Exp NilLiteral => ret VNone
     | Exp (VarRef name) => Env.get env name
     | Exp (BinaryExpr lhs op rhs) => eval_binary_expr ev lhs op rhs env
     | Exp (UnaryExpr op expr) => eval_unary_expr ev op expr env
     | Exp (Assignment name value) => eval_assignment ev name value env
     | Exp (Call func args) => eval_call ev func args env
     | Exp (ListExpr elements) => eval_list_expr ev elements env
     | Exp (MapExpr entries) => eval_map_expr ev entries env
     | Exp (Index expr index) => eval_index ev expr index env
     | Exp (Attr expr name) => eval_attr ev expr name env
     | Exp (IfExpr condition then_block elif_clauses else_block) =>
         eval_if_expr ev condition then_block elif_clauses else_block env
     | Exp (MatchExpr expr arms) => eval_match_expr ev expr arms env
     | Exp (ForExpr var iterable body) => eval_for_expr ev var iterable body env
     | Exp (WhileExpr condition body) =>
         eval_while_expr ev n condition body env
     | Exp (AttemptExpr body rescue finally_clause) =>
         eval_attempt_expr ev body rescue finally_clause env
     | Exp (FnExpr params body) => eval_fn_expr params body env
     | Exp (StrandExpr body) => eval_strand_expr body env
     | Exp (AwaitExpr expr) => eval_await_expr ev expr env
     | Exp (OptionExpr variant value) => eval_option_expr ev variant value env
     | Exp (ResultExpr variant value) => eval_result_expr ev variant value env
     | Exp (OptionalChain _ _) => raise (UnknownNode "OptionalChain")
     | NoNode => raise (UnknownNode "NoneType")
     end)
    closed.
Proof.
  intros He.
  destruct node as [statements|s|e|]; [| destruct s | destruct e |];
    try (by apply sound_ret; auto with snd);
    try (by apply sound_raise).
  - by apply eval_block_sound.
  - unfold eval_const_decl. snd_bind; [by apply Hev|].
    snd_bind; [apply define_sound; up|]. by apply sound_ret; auto with snd.
  - unfold eval_let_decl. snd_bind; [by apply Hev|].
    snd_bind; [apply define_sound; up|]. by apply sound_ret; auto with snd.
  - unfold eval_var_decl. snd_bind; [by apply Hev|].
    snd_bind; [apply define_sound; up|]. by apply sound_ret; auto with snd.
  - unfold eval_fn_decl. snd_bind; [apply define_sound; simpl; up|].
    by apply sound_ret; auto with snd.
  - unfold eval_return_stmt. snd_bind.
    { destruct value; [by apply Hev|by apply sound_ret; auto with snd]. }
    apply sound_raise. simpl. up.
  - by apply Hev.
  - apply get_sound.
  - by apply eval_binary_expr_sound.
  - unfold eval_unary_expr. snd_bind; [by apply Hev|].
    destruct op; try (apply sound_lift; auto with snd; apply plain_ok_res;
                      first [apply neg_plain | apply pos_plain]).
    by apply sound_ret; auto with snd.
  - unfold eval_assignment. snd_bind; [by apply Hev|].
    snd_bind; [apply define_sound || apply set_sound; up|].
    apply sound_ret; auto with snd. up.
  - unfold eval_call. snd_bind; [by apply Hev|].
    snd_bind; [apply eval_exprs_sound; up|].
    apply call_function_sound; up.
  - unfold eval_index. snd_bind; [by apply Hev|].
    snd_bind; [apply Hev; up|].
    apply sound_lift; auto with snd. apply getitem_closed. up.
  - unfold eval_attr. snd_bind; [by apply Hev|].
    destruct a; try (apply sound_lift; auto with snd; by apply getattr_closed).
    apply sound_ret; auto with snd.
    destruct (Py.dict_get _ _) eqn:E; [|done]. simpl. by eapply dict_get_closed.
  - unfold eval_list_expr. snd_bind; [by apply eval_exprs_sound|].
    apply sound_ret; auto with snd. by apply closed_list.
  - unfold eval_map_expr. by apply map_entries_sound.
  - unfold eval_if_expr. snd_bind; [by apply Hev|].
    destruct (Py.truthy _); [apply eval_block_sound|apply eval_elifs_sound]; up.
  - unfold eval_match_expr. snd_bind; [by apply Hev|].
    apply match_arms_sound; up.
  - unfold eval_for_expr. snd_bind; [by apply Hev|].
    snd_bind; [apply sound_lift; auto with snd; by apply iter_closed|].
    apply for_items_sound; up.
  - by apply while_loop_sound.
  - by apply eval_attempt_expr_sound.
  - unfold eval_strand_expr. snd_bind; [by apply new_sound|].
    snd_bind; [apply create_task_sound; up|]. by apply sound_ret; auto with snd.
  - by apply eval_await_expr_sound.
  - unfold eval_option_expr.
    repeat (destruct (String.eqb _ _));
      try (by apply sound_ret; auto with snd). by apply Hev.
  - unfold eval_result_expr. snd_bind; [by apply Hev|].
    repeat (destruct (String.eqb _ _));
      apply sound_ret; auto with snd; simpl; split_and?; up.
Qed.

End Sound.

Lemma eval_sound fuel : ev_sound (eval fuel).
Proof.
  induction fuel as [|n IH]; intros node env n0 He.
  - by apply sound_lift; auto with snd.
  - by apply (dispatch_sound (eval n) IH n).
Qed.

Lemma initial_state_ok : state_ok initial_state.
Proof.
  split; simpl.
  - intros [|a] e p He Hp; [|done]. injection He as <-. discriminate Hp.
  - constructor; [|done]. intros k v Hkv. simpl in Hkv.
    repeat (apply lookup_insert_Some in Hkv as [[_ <-]|[_ Hkv]]; [done|]).
    by rewrite lookup_empty in Hkv.
  - done.
Qed.

(** Every state the evaluator reaches from the initial one is well formed:
    in particular its heap satisfies [chain_ok], and the scope returned to
    is still a valid address. *)
Theorem reachable_states_are_ok fuel node r st' :
  run fuel node = (r, st') →
  state_ok st' ∧ ok_res closed (length (heap st')) r.
Proof.
  intros H.
  destruct (eval_sound fuel node global_env 1%nat ltac:(unfold global_env; lia)
              initial_state r st' initial_state_ok ltac:(simpl; lia) H)
    as (Hok & _ & Hr).
  done.
Qed.

(** * Further properties, read off the code *)

(** ** Evaluation only adds to the store

    No method of the evaluator removes a scope, a binding, a task or a
    printed line, and none changes a binding that was defined with
    [mutable=False].  As for the store invariant the argument follows the
    structure of the monad. *)

Lemma scope_extends_refl e : scope_extends e e.
Proof. split; [done|]. intros name v Hv. by exists v. Qed.

Lemma scope_extends_trans e1 e2 e3 :
  scope_extends e1 e2 → scope_extends e2 e3 → scope_extends e1 e3.
Proof.
  intros [Hp1 H1] [Hp2 H2]. split; [congruence|].
  intros name v Hv.
  destruct (H1 _ _ Hv) as (v2 & Hv2 & Hm2 & Hc2).
  destruct (H2 _ _ Hv2) as (v3 & Hv3 & Hm3 & Hc3).
  exists v3. split_and!; [done|congruence|].
  intros Hm. rewrite Hc3, Hc2; [done|done|congruence].
Qed.

Lemma extends_refl st : extends st st.
Proof.
  split; [|done|done]. intros a e He. exists e. split; [done|].
  apply scope_extends_refl.
Qed.

Lemma extends_trans st1 st2 st3 :
  extends st1 st2 → extends st2 st3 → extends st1 st3.
Proof.
  intros [Hh1 Ht1 Ho1] [Hh2 Ht2 Ho2]. split.
  - intros a e He.
    destruct (Hh1 _ _ He) as (e2 & He2 & Hx2).
    destruct (Hh2 _ _ He2) as (e3 & He3 & Hx3).
    exists e3. split; [done|]. by eapply scope_extends_trans.
  - by etrans.
  - by etrans.
Qed.

(** Replacing the scope at [b] by a later version of itself. *)
Lemma extends_insert st (b : addr) e e' :
  heap st !! b = Some e → scope_extends e e' →
  extends st (with_heap (<[b := e']> (heap st)) st).
Proof.
  intros Hb Hx. split; [|done|done]. simpl. intros a e0 Ha.
  destruct (decide (a = b)) as [->|Hne].
  - exists e'. rewrite list_lookup_insert_eq by by eapply lookup_lt_Some.
    by simplify_eq.
  - exists e0. rewrite list_lookup_insert_ne by done.
    split; [done|apply scope_extends_refl].
Qed.

Lemma scope_extends_extend e name v mut :
  bindings e !! name = None → scope_extends e (extend e name v mut).
Proof.
  intros Hn. split; [done|]. intros name' w Hw. exists w.
  assert (name ≠ name') by (intros ->; congruence).
  simpl. by rewrite !lookup_insert_ne.
Qed.

Lemma scope_extends_rebind e name v :
  mutable e !! name = Some true → scope_extends e (rebind e name v).
Proof.
  intros Hm. split; [done|]. intros name' w Hw. simpl.
  destruct (decide (name = name')) as [<-|Hne].
  - exists v. rewrite lookup_insert_eq. split_and!; [done|done|].
    by rewrite Hm.
  - exists w. by rewrite lookup_insert_ne.
Qed.

Lemma grows_ret {A} (a : A) : grows (ret a).
Proof. intros st r st' [= <- <-]. apply extends_refl. Qed.

Lemma grows_raise {A} e : grows (@raise A e).
Proof. intros st r st' [= <- <-]. apply extends_refl. Qed.

Lemma grows_lift {A} (r : res A) : grows (lift r).
Proof. intros st r' st' [= <- <-]. apply extends_refl. Qed.

Lemma grows_bind {A B} (c : M A) (k : A -> M B) :
  grows c → (∀ a, grows (k a)) → grows (bind c k).
Proof.
  intros Hc Hk st r st'. unfold bind.
  destruct (c st) as [rc st1] eqn:E. pose proof (Hc _ _ _ E) as H1.
  destruct rc; intros H; simplify_eq; try done.
  eapply extends_trans; [done|]. by eapply Hk.
Qed.

Lemma grows_try_except {A} (c : M A) (h : exn -> M A) :
  grows c → (∀ e, grows (h e)) → grows (try_except c h).
Proof.
  intros Hc Hh st r st'. unfold try_except.
  destruct (c st) as [rc st1] eqn:E. pose proof (Hc _ _ _ E) as H1.
  destruct rc; intros H; simplify_eq; try done.
  eapply extends_trans; [done|]. by eapply Hh.
Qed.

Lemma grows_catch_return (c : M Value) : grows c → grows (catch_return c).
Proof.
  intros Hc st r st'. unfold catch_return.
  destruct (c st) as [rc st1] eqn:E. pose proof (Hc _ _ _ E) as H1.
  destruct rc as [| [] | | |]; intros H; by simplify_eq.
Qed.

Lemma grows_try_finally {A} (c : M A) (f : M unit) :
  grows c → grows f → grows (try_finally c f).
Proof.
  intros Hc Hf st r st'. unfold try_finally.
  destruct (c st) as [rc st1] eqn:E. pose proof (Hc _ _ _ E) as H1.
  destruct rc; intros H; simplify_eq; try done;
    destruct (f st1) as [rf st2] eqn:F; pose proof (Hf _ _ _ F);
    (eapply extends_trans; [done|]); by destruct rf; simplify_eq.
Qed.

Lemma new_grows p : grows (Env.new p).
Proof.
  intros st r st' [= <- <-]. split; [|done|done]. simpl. intros a e Ha.
  exists e. split; [|apply scope_extends_refl].
  by apply lookup_app_l_Some.
Qed.

Lemma define_grows self name v mut : grows (Env.define self name v mut).
Proof.
  intros st r st'. unfold Env.define.
  destruct (heap st !! self) as [e|] eqn:He;
    [|intros [= <- <-]; apply extends_refl].
  destruct (bindings e !! name) eqn:Hn; intros [= <- <-];
    [apply extends_refl|].
  eapply extends_insert; [done|]. by apply (scope_extends_extend e).
Qed.

Lemma get_grows self name : grows (Env.get self name).
Proof. intros st r st' [= <- <-]. apply extends_refl. Qed.

(** A successful [set] rebinds a mutable binding of one scope. *)
Lemma set_from_rebinds n h self name v h' :
  Env.set_from n h self name v = Ret h' →
  ∃ b e, h !! b = Some e ∧ is_Some (bindings e !! name)
    ∧ mutable e !! name = Some true ∧ h' = <[b := rebind e name v]> h.
Proof.
  revert self. induction n as [|n IH]; intros self; simpl; [done|].
  destruct (h !! self) as [e|] eqn:He; [|done].
  destruct (bindings e !! name) as [w|] eqn:Hw.
  - destruct (mutable e !! name) as [[]|] eqn:Hm; try done.
    intros [= <-]. exists self, e. by rewrite Hw.
  - destruct (parent e); [apply IH|done].
Qed.

Lemma set_grows self name v : grows (Env.set self name v).
Proof.
  intros st r st'. unfold Env.set.
  destruct (Env.set_from _ _ _ _ _) as [h'| | | |] eqn:E; intros [= <- <-];
    try apply extends_refl.
  apply set_from_rebinds in E as (b & e & Hb & _ & Hm & ->).
  eapply extends_insert; [done|]. by apply scope_extends_rebind.
Qed.

Lemma create_task_grows body strand_env : grows (create_task body strand_env).
Proof.
  intros st r st' [= <- <-]. split; [|by apply prefix_app_r|done].
  intros a e He. exists e. split; [done|apply scope_extends_refl].
Qed.

Lemma await_task_grows t : grows (await_task t).
Proof.
  intros st r st'. unfold await_task.
  destruct (tasks st !! t) as [[]|]; intros [= <- <-]; apply extends_refl.
Qed.

Lemma call_builtin_grows b args : grows (Py.call_builtin b args).
Proof.
  assert (Hprint : grows (fun st =>
            (Ret VNone, with_stdout (stdout st ++ [args]) st))).
  { intros st r st' [= <- <-]. split; [|done|by apply prefix_app_r].
    intros a e He. exists e. split; [done|apply scope_extends_refl]. }
  destruct b; simpl; [done|..];
    repeat (destruct args as [|? args]; try apply grows_raise;
            try apply grows_lift).
Qed.

Lemma match_pattern_grows p v env : grows (match_pattern p v env).
Proof.
  destruct p; simpl; try apply grows_ret; try apply grows_lift.
  - apply grows_bind; [apply define_grows|intros; apply grows_ret].
  - repeat (destruct (String.eqb _ _)); apply grows_ret.
Qed.

Create HintDb grw.

#[local] Hint Resolve grows_ret grows_raise grows_lift new_grows define_grows
  get_grows set_grows create_task_grows await_task_grows call_builtin_grows
  match_pattern_grows : grw.

(** Follows the monadic structure of a method. *)
Ltac grows_step :=
  match goal with
  | |- grows (bind _ _) => apply grows_bind; [| intros ?]
  | |- grows (try_except _ _) => apply grows_try_except; [| intros ?]
  | |- grows (try_finally _ _) => apply grows_try_finally
  | |- grows (catch_return _) => apply grows_catch_return
  | H : ev_grows ?ev |- grows (?ev _ _) => apply H
  | |- grows (if ?b then _ else _) => destruct b
  | |- grows (match ?x with _ => _ end) => destruct x
  end.

Ltac grw := repeat grows_step; eauto with grw.

Section Grows.

Variable ev : ASTNode -> addr -> M Value.
Hypothesis Hev : ev_grows ev.

Lemma run_stmts_grows stmts env result : grows (run_stmts ev stmts env result).
Proof. revert result. induction stmts; intros; simpl; grw. Qed.

Lemma eval_block_grows stmts env : grows (eval_block ev stmts env).
Proof. apply run_stmts_grows. Qed.

Lemma eval_exprs_grows es env : grows (eval_exprs ev es env).
Proof. induction es; simpl; grw. Qed.

Lemma map_entries_grows entries env result :
  grows (map_entries ev entries env result).
Proof.
  revert result. induction entries as [|[k e] rest IH]; intros; simpl; grw.
Qed.

Lemma bind_params_grows func_env pairs : grows (bind_params func_env pairs).
Proof. induction pairs as [|[p a] rest IH]; simpl; grw. Qed.

Hint Resolve run_stmts_grows eval_block_grows eval_exprs_grows
  map_entries_grows bind_params_grows : grw.

Lemma call_function_grows func args env :
  grows (call_function ev func args env).
Proof. unfold call_function. grw. Qed.

Hint Resolve call_function_grows : grw.

Lemma eval_elifs_grows clauses els env : grows (eval_elifs ev clauses els env).
Proof. induction clauses as [|[c b] rest IH]; simpl; grw. Qed.

Lemma match_arms_grows arms v env : grows (match_arms ev arms v env).
Proof. induction arms as [|[p e] rest IH]; simpl; grw. Qed.

Lemma for_items_grows var body env items result :
  grows (for_items ev var body env items result).
Proof. revert result. induction items; intros; simpl; grw. Qed.

Lemma while_loop_grows n condition body env result :
  grows (while_loop ev n condition body env result).
Proof. revert result. induction n; intros; simpl; grw. Qed.

Hint Resolve eval_elifs_grows match_arms_grows for_items_grows
  while_loop_grows : grw.

Lemma dispatch_grows n node env :
  grows
    (match node with
     | Module statements => eval_module ev statements env
     | Stmt (LetDecl name value) => eval_let_decl ev name value env
     | Stmt (VarDecl name value) => eval_var_decl ev name value env
     | Stmt (ConstDecl name value) => eval_const_decl ev name value env
     | Stmt (FnDecl name params body) => eval_fn_decl name params body env
     | Stmt (ReturnStmt value) => eval_return_stmt ev value env
     | Stmt (ExprStmt expr) => ev (Exp expr) env
     | Stmt (Import _ _ _ _) => ret VNone
     | Stmt (CapabilityRequest _ _) => ret VNone
     | Exp (IntLiteral value) => ret (VInt value)
     | Exp (FloatLiteral value) => ret (VFloat value)
     | Exp (StringLiteral value) => ret (VStr value)
     | Exp (BoolLiteral value) => ret (VBool value)
     | Exp NilLiteral => ret VNone
     | Exp (VarRef name) => Env.get env name
     | Exp (BinaryExpr lhs op rhs) => eval_binary_expr ev lhs op rhs env
     | Exp (UnaryExpr op expr) => eval_unary_expr ev op expr env
     | Exp (Assignment name value) => eval_assignment ev name value env
     | Exp (Call func args) => eval_call ev func args env
     | Exp (ListExpr elements) => eval_list_expr ev elements env
     | Exp (MapExpr entries) => eval_map_expr ev entries env
     | Exp (Index expr index) => eval_index ev expr index env
     | Exp (Attr expr name) => eval_attr ev expr name env
     | Exp (IfExpr condition then_block elif_clauses else_block) =>
         eval_if_expr ev condition then_block elif_clauses else_block env
     | Exp (MatchExpr expr arms) => eval_match_expr ev expr arms env
     | Exp (ForExpr var iterable body) => eval_for_expr ev var iterable body env
     | Exp (WhileExpr condition body) =>
         eval_while_expr ev n condition body env
     | Exp (AttemptExpr body rescue finally_clause) =>
         eval_attempt_expr ev body rescue finally_clause env
     | Exp (FnExpr params body) => eval_fn_expr params body env
     | Exp (StrandExpr body) => eval_strand_expr body env
     | Exp (AwaitExpr expr) => eval_await_expr ev expr env
     | Exp (OptionExpr variant value) => eval_option_expr ev variant value env
     | Exp (ResultExpr variant value) => eval_result_expr ev variant value env
     | Exp (OptionalChain _ _) => raise (UnknownNode "OptionalChain")
     | NoNode => raise (UnknownNode "NoneType")
     end).
Proof.
  destruct node as [statements|s|e|]; [| destruct s | destruct e |];
    unfold eval_module, eval_let_decl, eval_var_decl, eval_const_decl,
      eval_fn_decl, eval_return_stmt, eval_binary_expr, eval_unary_expr,
      eval_assignment, eval_call, eval_list_expr, eval_map_expr, eval_index,
      eval_attr, eval_if_expr, eval_match_expr, eval_for_expr,
      eval_while_expr, eval_attempt_expr, eval_fn_expr, eval_strand_expr,
      eval_await_expr, eval_option_expr, eval_result_expr, rescue_handler,
      finally_suite;
    grw.
Qed.

End Grows.

Lemma eval_grows fuel : ev_grows (eval fuel).
Proof.
  induction fuel as [|n IH]; intros node env; [apply grows_lift|].
  by apply (dispatch_grows (eval n) IH n).
Qed.

Lemma converges_grows {A} (F : (ASTNode -> addr -> M Value) -> M A)
    st r st' :
  (∀ ev, ev_grows ev → grows (F ev)) → converges F st r st' → extends st st'.
Proof. intros HF (fuel & H & _). eapply HF; [apply eval_grows|done]. Qed.


Lemma block_extends stmts env st r st' :
  block_evaluates stmts env st r st' → extends st st'.
Proof. apply converges_grows. intros ev Hev. by apply eval_block_grows. Qed.







(** ** [Environment]: lookups, and what a write leaves alone *)

Lemma has_from_owner h name a o n :
  chain_ok h → owner h name a o → (a < n)%nat →
  Env.has_from n h a name = Ret (bool_decide (is_Some o)).
Proof.
  intros Hok Hown. revert n.
  induction Hown as [a e He [v Hv]|a e p o He Hn Hp Hown IH|a e He Hn Hp];
    intros [|n] Hlt; try lia; simpl; rewrite He.
  - by rewrite Hv.
  - rewrite Hn, Hp. apply IH. specialize (Hok _ _ _ He Hp). lia.
  - by rewrite Hn, Hp.
Qed.

(** A lookup of [name] does not see a change made to a scope under another
    name. *)
Lemma get_from_insert n h (b : addr) e e' a name :
  h !! b = Some e → parent e' = parent e →
  bindings e' !! name = bindings e !! name →
  Env.get_from n (<[b := e']> h) a name = Env.get_from n h a name.
Proof.
  intros Hb Hp Hn. pose proof (lookup_lt_Some _ _ _ Hb) as Hlt.
  revert a. induction n as [|n IH]; intros a; simpl; [done|].
  destruct (decide (a = b)) as [->|Hne].
  - rewrite list_lookup_insert_eq by done.
    rewrite Hb, Hn, Hp. repeat case_match; auto.
  - rewrite list_lookup_insert_ne by done. unfold addr in *.
    destruct (h !! a) as [e0|]; [|done].
    destruct (bindings e0 !! name); [done|].
    destruct (parent e0); [apply IH|done].
Qed.

Lemma has_from_insert n h (b : addr) e e' a name :
  h !! b = Some e → parent e' = parent e →
  (bindings e' !! name = None ↔ bindings e !! name = None) →
  Env.has_from n (<[b := e']> h) a name = Env.has_from n h a name.
Proof.
  intros Hb Hp Hn. pose proof (lookup_lt_Some _ _ _ Hb) as Hlt.
  revert a. induction n as [|n IH]; intros a; simpl; [done|].
  destruct (decide (a = b)) as [->|Hne].
  - rewrite list_lookup_insert_eq by done.
    rewrite Hb, Hp.
    destruct (bindings e' !! name), (bindings e !! name); try done;
      [by destruct Hn as [_ Hn]; specialize (Hn eq_refl)
      |by destruct Hn as [Hn _]; specialize (Hn eq_refl)
      |case_match; auto].
  - rewrite list_lookup_insert_ne by done. unfold addr in *.
    destruct (h !! a) as [e0|]; [|done].
    destruct (bindings e0 !! name); [done|].
    destruct (parent e0); [apply IH|done].
Qed.

(** X3.  In a heap where every scope was allocated after its parent,
    [get(name)] from the scope at [self] returns the value bound in the
    nearest scope of the chain that owns [name], and raises
    [UndefinedVariable] exactly when no scope of the chain owns it.  It
    never changes the state. *)
Theorem get_reads_nearest_owner
    (st : state) (self : addr) (name : string) :
  chain_ok (heap st) → (self < length (heap st))%nat →
  ∃ o, owner (heap st) name self o ∧
    match o with
    | Some b =>
        ∃ e v, heap st !! b = Some e ∧ bindings e !! name = Some v
          ∧ Env.get self name st = (Ret v, st)
    | None => Env.get self name st = (Raise (UndefinedVariable name), st)
    end.
Proof.
  intros Hok Hlt.
  destruct (owner_total _ name _ Hok Hlt) as [o Hown].
  exists o. split; [done|].
  unfold Env.get. rewrite (get_from_owner _ _ _ _ _ Hok Hown Hlt).
  destruct o as [b|]; [|done].
  assert (Hb : ∃ e, heap st !! b = Some e ∧ is_Some (bindings e !! name)).
  { clear Hlt. remember (Some b) as o eqn:Ho.
    induction Hown; simplify_eq; eauto. }
  destruct Hb as (e & Hb & v & Hv). exists e, v. by rewrite Hb, Hv.
Qed.

Lemma get_reads_nearest_owner_witness :
  ∃ o, owner (heap two_scopes) "n" 1%nat o ∧
    match o with
    | Some b =>
        ∃ e v, heap two_scopes !! b = Some e ∧ bindings e !! "n" = Some v
          ∧ Env.get 1%nat "n" two_scopes = (Ret v, two_scopes)
    | None =>
        Env.get 1%nat "n" two_scopes
        = (Raise (UndefinedVariable "n"), two_scopes)
    end.
Proof.
  apply (get_reads_nearest_owner two_scopes 1%nat "n").
  - exact two_scopes_chain_ok.
  - vm_compute. lia.
Defined.

(** X4.  [has(name)] answers [True] exactly when [get(name)] from the same
    scope returns a value, and [False] exactly when it raises
    [UndefinedVariable]; it never raises and never changes the state. *)
Theorem has_tells_whether_get_succeeds
    (st : state) (self : addr) (name : string) :
  chain_ok (heap st) → (self < length (heap st))%nat →
  (Env.has self name st = (Ret true, st)
     ∧ ∃ v, Env.get self name st = (Ret v, st))
  ∨ (Env.has self name st = (Ret false, st)
     ∧ Env.get self name st = (Raise (UndefinedVariable name), st)).
Proof.
  intros Hok Hlt.
  destruct (owner_total _ name _ Hok Hlt) as [o Hown].
  unfold Env.has, Env.get.
  rewrite (has_from_owner _ _ _ _ _ Hok Hown Hlt),
          (get_from_owner _ _ _ _ _ Hok Hown Hlt).
  destruct o as [b|]; [left|by right].
  split; [done|].
  assert (Hb : ∃ e, heap st !! b = Some e ∧ is_Some (bindings e !! name)).
  { clear Hlt. remember (Some b) as o eqn:Ho.
    induction Hown; simplify_eq; eauto. }
  destruct Hb as (e & Hb & v & Hv). exists v. by rewrite Hb, Hv.
Qed.

Lemma has_tells_whether_get_succeeds_witness :
  (Env.has 1%nat "m" two_scopes = (Ret true, two_scopes)
     ∧ ∃ v, Env.get 1%nat "m" two_scopes = (Ret v, two_scopes))
  ∨ (Env.has 1%nat "m" two_scopes = (Ret false, two_scopes)
     ∧ Env.get 1%nat "m" two_scopes
       = (Raise (UndefinedVariable "m"), two_scopes)).
Proof.
  apply (has_tells_whether_get_succeeds two_scopes 1%nat "m").
  - exact two_scopes_chain_ok.
  - vm_compute. lia.
Defined.

(** X5.  After a successful [define(name, value)] on the scope at [self],
    [get(name)] from that scope returns [value] and [has(name)] answers
    [True]; every other name reads as before from every scope, and nothing
    but the heap cell of [self] has changed. *)
Theorem define_then_get
    (st : state) (self : addr) (name : string) (v : Value) (mut : bool)
    (st' : state) :
  Env.define self name v mut st = (Ret tt, st') →
  Env.get self name st' = (Ret v, st')
  ∧ Env.has self name st' = (Ret true, st')
  ∧ (∀ a name', name' ≠ name →
       Env.get a name' st' = (fst (Env.get a name' st), st'))
  ∧ (∀ a : addr, a ≠ self → heap st' !! a = heap st !! a)
  ∧ tasks st' = tasks st ∧ stdout st' = stdout st.
Proof.
  unfold Env.define.
  destruct (heap st !! self) as [e|] eqn:He; [|done].
  destruct (bindings e !! name) eqn:Hn; [done|]. intros [= <-].
  pose proof (lookup_lt_Some _ _ _ He) as Hlt.
  assert (Hlen : ∃ n, length (heap st) = S n).
  { destruct (heap st); [simpl in Hlt; lia|by eexists]. }
  destruct Hlen as [n Hlen].
  split_and!; try done.
  - unfold Env.get. simpl. rewrite length_insert, Hlen. simpl.
    rewrite list_lookup_insert_eq by done. simpl. by rewrite lookup_insert_eq.
  - unfold Env.has. simpl. rewrite length_insert, Hlen. simpl.
    rewrite list_lookup_insert_eq by done. simpl. by rewrite lookup_insert_eq.
  - intros a name' Hne. unfold Env.get. simpl. rewrite length_insert.
    rewrite (get_from_insert _ _ _ e); [done..|].
    simpl. by rewrite lookup_insert_ne.
  - intros a Hne. simpl. by rewrite list_lookup_insert_ne.
Qed.

Lemma define_then_get_witness :
  Env.get global_env "n" (snd (Env.define global_env "n" (VInt 0) true
                                 initial_state))
  = (Ret (VInt 0),
     snd (Env.define global_env "n" (VInt 0) true initial_state)).
Proof.
  apply (define_then_get initial_state global_env "n" (VInt 0) true).
  reflexivity.
Defined.

(** X6.  [set(name, value)] changes one binding and nothing else.  A [set]
    that fails leaves the state as it was.  After a [set] that succeeds,
    every other name reads as before from every scope, and [has] answers as
    before for every name: [set] never creates a binding. *)
Theorem set_changes_one_binding
    (st : state) (self : addr) (name : string) (v : Value)
    (r : res unit) (st' : state) :
  Env.set self name v st = (r, st') →
  (r ≠ Ret tt → st' = st)
  ∧ (∀ a name', name' ≠ name →
       Env.get a name' st' = (fst (Env.get a name' st), st'))
  ∧ (∀ a name', Env.has a name' st' = (fst (Env.has a name' st), st'))
  ∧ tasks st' = tasks st ∧ stdout st' = stdout st.
Proof.
  unfold Env.set.
  destruct (Env.set_from _ _ _ _ _) as [h'| | | |] eqn:E; intros [= <- <-];
    try done.
  apply set_from_rebinds in E as (b & e & Hb & Hv & Hm & ->).
  split_and!; try done.
  - intros a name' Hne. unfold Env.get. simpl. rewrite length_insert.
    rewrite (get_from_insert _ _ _ e); [done..|].
    simpl. by rewrite lookup_insert_ne.
  - intros a name'. unfold Env.has. simpl. rewrite length_insert.
    rewrite (has_from_insert _ _ _ e); [done..|]. simpl.
    destruct (decide (name = name')) as [<-|Hne].
    + rewrite lookup_insert_eq. destruct Hv as [w Hw]. by rewrite Hw.
    + by rewrite lookup_insert_ne.
Qed.

Lemma set_changes_one_binding_witness :
  Env.get 1%nat "print" (snd (Env.set 1%nat "n" (VInt 5) two_scopes))
  = (fst (Env.get 1%nat "print" two_scopes),
     snd (Env.set 1%nat "n" (VInt 5) two_scopes)).
Proof.
  apply (set_changes_one_binding two_scopes 1%nat "n" (VInt 5)
           (fst (Env.set 1%nat "n" (VInt 5) two_scopes))
           (snd (Env.set 1%nat "n" (VInt 5) two_scopes))).
  - reflexivity.
  - discriminate.
Defined.

(** ** Blocks *)

Lemma converges_ext {A} (F G : (ASTNode -> addr -> M Value) -> M A)
    st r st' :
  (∀ ev st, F ev st = G ev st) →
  converges F st r st' ↔ converges G st r st'.
Proof.
  intros H. split; intros (n & Hn & Hr); exists n; by rewrite ?H in *.
Qed.

Lemma run_stmts_app ev s1 s2 env result st :
  run_stmts ev (s1 ++ s2) env result st
  = bind (run_stmts ev s1 env result) (fun v => run_stmts ev s2 env v) st.
Proof.
  revert result st. induction s1 as [|s s1 IH]; intros; simpl; [done|].
  unfold bind.
  destruct (ev (Stmt s) env st) as [[a| | | |] st1]; simpl; first [done|apply IH].
Qed.

Lemma run_stmts_app_converges s1 s2 env result st r st' :
  converges (fun ev => run_stmts ev (s1 ++ s2) env result) st r st' ↔
  ∃ r1 st1, converges (fun ev => run_stmts ev s1 env result) st r1 st1 ∧
    match r1 with
    | Ret v => converges (fun ev => run_stmts ev s2 env v) st1 r st'
    | other => r = other ∧ st' = st1
    end.
Proof.
  rewrite (converges_ext _
             (fun ev => bind (run_stmts ev s1 env result)
                          (fun v => run_stmts ev s2 env v)))
    by (intros; apply run_stmts_app).
  rewrite (converges_bind (fun ev => run_stmts ev s1 env result)
             (fun v ev => run_stmts ev s2 env v)) by eauto with mono.
  split; intros (r1 & st1 & H1 & H); exists r1, st1; (split; [done|]);
    by destruct r1.
Qed.

Lemma run_stmts_single s env result st r st' :
  converges (fun ev => run_stmts ev [s] env result) st r st' ↔
  evaluates (Stmt s) env st r st'.
Proof.
  simpl.
  rewrite (converges_bind (fun ev => ev (Stmt s) env) (fun v _ => ret v))
    by eauto with mono.
  split.
  - intros (r1 & st1 & H1 & H).
    destruct r1; try (by destruct H as [-> ->]).
    by apply converges_const in H as [[= <- <-] _].
  - intros H. exists r, st'. split; [done|].
    destruct r; first [done | by apply converges_const].
Qed.

(** X7.  A block evaluates its statements in order.  The first statement
    that does not return a value (it raises, or suspends) ends the block
    with that outcome, and the statements after it are not evaluated.  If
    every statement returns, the value of the block is the value of the last
    one; the value of the empty block is [None]. *)
Theorem block_runs_statements_in_order :
  (∀ stmts1 stmts2 env st r st',
     block_evaluates (stmts1 ++ stmts2) env st r st' ↔
     ∃ r1 st1, block_evaluates stmts1 env st r1 st1 ∧
       match r1 with
       | Ret v => converges (fun ev => run_stmts ev stmts2 env v) st1 r st'
       | other => r = other ∧ st' = st1
       end)
  ∧ (∀ stmts s env st r st',
       block_evaluates (stmts ++ [s]) env st r st' ↔
       ∃ r1 st1, block_evaluates stmts env st r1 st1 ∧
         match r1 with
         | Ret _ => evaluates (Stmt s) env st1 r st'
         | other => r = other ∧ st' = st1
         end)
  ∧ (∀ env st r st',
       block_evaluates [] env st r st' ↔ r = Ret VNone ∧ st' = st).
Proof.
  split_and!.
  - intros. apply run_stmts_app_converges.
  - intros. unfold block_evaluates, eval_block.
    rewrite run_stmts_app_converges.
    split; intros (r1 & st1 & H1 & H); exists r1, st1; (split; [done|]);
      destruct r1; try done.
    + by apply run_stmts_single in H.
    + by apply run_stmts_single.
  - intros. unfold block_evaluates, eval_block. simpl.
    rewrite converges_const. split; [by intros [[= <- <-] _]|].
    by intros [-> ->].
Qed.

(** ** Declarations and assignment *)

Lemma get_own st (a : addr) e name v :
  heap st !! a = Some e → bindings e !! name = Some v →
  Env.get a name st = (Ret v, st).
Proof.
  intros He Hv. unfold Env.get.
  pose proof (lookup_lt_Some _ _ _ He) as Hlt.
  destruct (length (heap st)) as [|n]; [lia|].
  simpl. unfold addr in *. by rewrite He, Hv.
Qed.


(** A declaration once the value of its initialiser is known. *)
Lemma decl_steps (decl : Statement) name value mut env st v st1 r st' :
  (decl, mut) ∈ [(LetDecl name value, false); (VarDecl name value, true);
                 (ConstDecl name value, false)] →
  evaluates (Exp value) env st (Ret v) st1 →
  evaluates (Stmt decl) env st r st' ↔
  (let* _ := Env.define env name v mut in ret VNone) st1 = (r, st')
  ∧ r ≠ OutOfFuel.
Proof.
  intros Hd Hv.
  rewrite (evaluates_unfold _ _
             (fun ev => let* v := ev (Exp value) env in
                        let* _ := Env.define env name v mut in ret VNone)).
  - rewrite (converges_after _ _
               (fun v _ => let* _ := Env.define env name v mut in ret VNone)
               st v st1); [|by eauto with mono|done].
    apply converges_const.
  - repeat (apply elem_of_cons in Hd as [[= -> ->]|Hd]; [done|]).
    by apply elem_of_nil in Hd.
Qed.


Lemma var_ref_own st (env : addr) e name v :
  heap st !! env = Some e → bindings e !! name = Some v →
  evaluates (Exp (VarRef name)) env st (Ret v) st.
Proof.
  intros He Hv. exists 1%nat. split; [|done]. simpl. by eapply get_own.
Qed.

(** X8.  [let], [var] and [const] evaluate their initialiser, bind the name
    to its value in the current scope, and are themselves worth [None];
    reading the name in that scope right afterwards gives the value.  The
    binding is mutable for [var] only. *)
Theorem declaration_binds_the_value
    (name : string) (value : Expr) (env : addr)
    (st : state) (v : Value) (st1 : state) (e1 : Environment) :
  evaluates (Exp value) env st (Ret v) st1 →
  heap st1 !! env = Some e1 → bindings e1 !! name = None →
  let declared mut :=
    with_heap (<[env := extend e1 name v mut]> (heap st1)) st1 in
  evaluates (Stmt (LetDecl name value)) env st (Ret VNone) (declared false)
  ∧ evaluates (Stmt (ConstDecl name value)) env st (Ret VNone) (declared false)
  ∧ evaluates (Stmt (VarDecl name value)) env st (Ret VNone) (declared true)
  ∧ ∀ mut, evaluates (Exp (VarRef name)) env (declared mut) (Ret v)
             (declared mut).
Proof.
  intros Hv He Hn declared.
  assert (Hd : ∀ mut, (let* _ := Env.define env name v mut in ret VNone) st1
                      = (Ret VNone, declared mut)).
  { intros mut. unfold bind. by rewrite (define_unbound _ _ _ _ _ _ He Hn). }
  split_and!.
  - apply (decl_steps _ name value false env st v st1); [set_solver|done|].
    by rewrite Hd.
  - apply (decl_steps _ name value false env st v st1); [set_solver|done|].
    by rewrite Hd.
  - apply (decl_steps _ name value true env st v st1); [set_solver|done|].
    by rewrite Hd.
  - intros mut. eapply var_ref_own.
    + simpl. apply list_lookup_insert_eq. by eapply lookup_lt_Some.
    + simpl. by rewrite lookup_insert_eq.
Qed.

Lemma declaration_binds_the_value_witness :
  evaluates (Stmt (LetDecl "x" (IntLiteral 1))) global_env initial_state
    (Ret VNone)
    (with_heap (<[global_env := extend global_scope "x" (VInt 1) false]>
                  (heap initial_state)) initial_state).
Proof.
  apply (declaration_binds_the_value "x" (IntLiteral 1) global_env
           initial_state (VInt 1) initial_state global_scope).
  - exists 1%nat. split; [reflexivity|discriminate].
  - reflexivity.
  - reflexivity.
Defined.







(** ** Function calls *)

Lemma converges_after_gen {A B}
    (F : (ASTNode -> addr -> M Value) -> M A)
    (K : A -> (ASTNode -> addr -> M Value) -> M B) st a st1 :
  monotone F → (∀ a, monotone (K a)) →
  converges F st (Ret a) st1 →
  ∀ r st',
  converges (fun ev => bind (F ev) (fun a => K a ev)) st r st' ↔
  converges (K a) st1 r st'.
Proof.
  intros HF HK Ha r st'. rewrite (converges_bind F K) by done. split.
  - intros (ra & st2 & Hra & H).
    destruct (converges_det _ _ _ _ _ _ HF Ha Hra) as [<- <-]. done.
  - intros H. by exists (Ret a), st1.
Qed.

Lemma monotone_eval_exprs es env : monotone (fun ev => eval_exprs ev es env).
Proof. intros ev ev' H. by apply eval_exprs_mono. Qed.

Lemma monotone_call_function func args env :
  monotone (fun ev => call_function ev func args env).
Proof. intros ev ev' H. by apply call_function_mono. Qed.

#[local] Hint Resolve monotone_eval_exprs monotone_call_function : mono.

(** A call once the values of the callee and of the arguments are known. *)
Lemma call_steps fe es env st fv st1 vs st2 r st' :
  evaluates (Exp fe) env st (Ret fv) st1 →
  converges (fun ev => eval_exprs ev es env) st1 (Ret vs) st2 →
  evaluates (Exp (Call fe es)) env st r st' ↔
  converges (fun ev => call_function ev fv vs env) st2 r st'.
Proof.
  intros Hf Hvs.
  rewrite (evaluates_unfold _ _ (fun ev => eval_call ev fe es env)) by done.
  unfold eval_call.
  rewrite (converges_after _ _
             (fun f ev => let* vs := eval_exprs ev es env in
                          call_function ev f vs env) st fv st1);
    [|by intros a ev ev' H; mono|done].
  by rewrite (converges_after_gen (fun ev => eval_exprs ev es env)
                (fun vs ev => call_function ev fv vs env) st1 vs st2)
    by eauto with mono.
Qed.

Lemma eval_exprs_length ev es env st vs st' :
  eval_exprs ev es env st = (Ret vs, st') → length vs = length es.
Proof.
  revert st vs. induction es as [|e es IH]; intros st vs; simpl.
  - by intros [= <- <-].
  - unfold bind. destruct (ev (Exp e) env st) as [[v| | | |] st1]; try done.
    destruct (eval_exprs ev es env st1) as [[ws| | | |] st2] eqn:E; try done.
    intros [= <- <-]. simpl. f_equal. by eapply IH.
Qed.

Lemma zip_param_names (ps : list Param) (args : list Value) :
  (fun pa => (param_name (fst pa), snd pa)) <$> zip ps args
  = zip (param_name <$> ps) args.
Proof.
  revert args. induction ps as [|p ps IH]; intros [|a args]; simpl; try done.
  by rewrite IH.
Qed.

(** Binding parameters whose names are distinct and new to the scope. *)
Lemma bind_params_ok st (a : addr) e pairs :
  let kvs := (fun pa => (param_name (fst pa), snd pa)) <$> pairs in
  heap st !! a = Some e →
  NoDup (kvs.*1) →
  (∀ k, k ∈ kvs.*1 → bindings e !! k = None) →
  bind_params a pairs st =
    (Ret tt,
     with_heap
       (<[a := {| parent := parent e;
                  bindings := list_to_map kvs ∪ bindings e;
                  mutable := ((fun _ => false) <$>
                                (list_to_map kvs : gmap string Value))
                             ∪ mutable e |}]> (heap st)) st).
Proof.
  revert st e. induction pairs as [|[p arg] rest IH]; intros st e kvs He Hnd Hnew.
  - simpl. unfold ret. f_equal. unfold with_heap. destruct st as [h ts o].
    simpl in *. f_equal. subst kvs. simpl.
    rewrite fmap_empty, !(left_id_L ∅ (∪)).
    rewrite list_insert_id; [done|]. by destruct e.
  - subst kvs. simpl in *. apply NoDup_cons in Hnd as [Hnotin Hnd].
    unfold bind.
    rewrite (define_unbound _ _ _ _ _ _ He)
      by (apply Hnew, elem_of_cons; by left).
    rewrite (IH _ (extend e (param_name p) arg false)).
    + f_equal. unfold with_heap. simpl. f_equal.
      rewrite list_insert_insert_eq. f_equal. f_equal.
      * rewrite <- insert_union_l, <- insert_union_r; [done|].
        by apply not_elem_of_list_to_map_1.
      * rewrite fmap_insert, <- insert_union_l, <- insert_union_r; [done|].
        rewrite lookup_fmap.
        by rewrite (not_elem_of_list_to_map_1 _ _ Hnotin).
    + simpl. apply list_lookup_insert_eq. by eapply lookup_lt_Some.
    + done.
    + intros k Hk. simpl. rewrite lookup_insert_ne; [|by intros <-].
      apply Hnew, elem_of_cons. by right.
Qed.

(** Binding parameters when a name repeats, or is already in the scope. *)
Lemma bind_params_dup st (a : addr) e pairs :
  let names := (fun pa => param_name (fst pa)) <$> pairs in
  heap st !! a = Some e →
  ¬ (NoDup names ∧ ∀ k, k ∈ names → bindings e !! k = None) →
  ∃ name st',
    bind_params a pairs st = (Raise (DuplicateDefinition name), st')
    ∧ name ∈ names
    ∧ length (heap st') = length (heap st)
    ∧ tasks st' = tasks st ∧ stdout st' = stdout st.
Proof.
  revert st e. induction pairs as [|[p arg] rest IH]; intros st e names He Hbad.
  - destruct Hbad. split; [constructor|]. intros k Hk. by apply elem_of_nil in Hk.
  - subst names. simpl in *. unfold bind.
    destruct (bindings e !! param_name p) as [w|] eqn:Hp.
    + rewrite (define_bound _ _ _ _ _ _ He (mk_is_Some _ _ Hp)).
      exists (param_name p), st. split_and!; try done.
      apply elem_of_cons. by left.
    + rewrite (define_unbound _ _ _ _ _ _ He Hp).
      destruct (IH (with_heap (<[a := extend e (param_name p) arg false]>
                                 (heap st)) st)
                  (extend e (param_name p) arg false))
        as (name & st' & Hb & Hin & Hlen & Ht & Ho).
      * simpl. apply list_lookup_insert_eq. by eapply lookup_lt_Some.
      * intros [Hnd Hnew]. apply Hbad. split.
        -- apply NoDup_cons. split; [|done]. intros Hin.
           specialize (Hnew _ Hin). simpl in Hnew.
           by rewrite lookup_insert_eq in Hnew.
        -- intros k [->|Hk]%elem_of_cons; [done|].
           specialize (Hnew _ Hk). simpl in Hnew.
           destruct (decide (param_name p = k)) as [<-|Hne];
             [by rewrite lookup_insert_eq in Hnew|].
           by rewrite lookup_insert_ne in Hnew.
      * exists name, st'. rewrite Hb.
        split_and!; try done; [apply elem_of_cons; by right|].
        rewrite Hlen. simpl. by rewrite length_insert.
Qed.

Lemma allocate_lookup e st :
  heap (allocate e st) !! length (heap st) = Some e.
Proof. simpl. by rewrite lookup_app_r, Nat.sub_diag. Qed.

Lemma insert_allocated e e' st :
  with_heap (<[length (heap st) := e']> (heap (allocate e st))) (allocate e st)
  = allocate e' st.
Proof.
  unfold allocate, with_heap. simpl. f_equal.
  rewrite <- (Nat.add_0_r (length (heap st))). by rewrite insert_app_r.
Qed.

(** A call of a user function whose parameters are distinct, with as many
    arguments: the body runs in the call's scope. *)
Lemma call_function_body ev f args env st :
  length args = length (func_params f) →
  NoDup (param_name <$> func_params f) →
  call_function ev (VFunc f) args env st
  = catch_return (eval_block ev (func_body f) (length (heap st)))
      (allocate (call_scope f args) st).
Proof.
  intros Hlen Hnd. unfold call_function, bind, Env.new.
  rewrite Hlen, Nat.eqb_refl. simpl.
  change (with_heap (heap st ++ [child_scope (func_closure f)]) st)
    with (allocate (child_scope (func_closure f)) st).
  rewrite (bind_params_ok _ _ (child_scope (func_closure f)));
    [|apply allocate_lookup
     |rewrite zip_param_names, fst_zip by (rewrite length_fmap; lia); done
     |done].
  f_equal.
  etrans; [apply (insert_allocated (child_scope (func_closure f)))|].
  unfold call_scope. simpl.
  by rewrite zip_param_names, !(right_id_L ∅ (∪)).
Qed.

Lemma converges_catch_return
    (C : (ASTNode -> addr -> M Value) -> M Value) st r st' :
  converges (fun ev => catch_return (C ev)) st r st' ↔
  ∃ rb, converges C st rb st' ∧ r = returned rb.
Proof.
  split.
  - intros (n & H & Hr). unfold catch_return in H.
    destruct (C (eval n) st) as [rb st1] eqn:E. exists rb.
    destruct rb as [|[]| | |]; simplify_eq; (split; [by exists n|done]).
  - intros (rb & (n & H & Hrb) & ->). exists n. unfold catch_return.
    rewrite H. by destruct rb as [|[]| | |].
Qed.

(** X12.  A call [fe(es)] of a user function with distinct parameters and as
    many arguments evaluates the callee, then the arguments from left to
    right, and then the function's body in a new scope whose parent is the
    function's closure (the scope where the function was created, not the
    caller's) and in which each parameter is bound immutably to its
    argument.  The value of the call is the value [return] was given, or,
    if the body ends without [return], the value of its last statement
    ([None] for an empty body); any other exception of the body propagates
    to the caller. *)
Theorem call_runs_body_in_closure_scope
    (fe : Expr) (es : list Expr) (env : addr) (f : FloFunction)
    (st st1 st2 : state) (vs : list Value) (r : res Value) (st' : state) :
  evaluates (Exp fe) env st (Ret (VFunc f)) st1 →
  converges (fun ev => eval_exprs ev es env) st1 (Ret vs) st2 →
  length es = length (func_params f) →
  NoDup (param_name <$> func_params f) →
  evaluates (Exp (Call fe es)) env st r st' ↔
  ∃ rb, block_evaluates (func_body f) (length (heap st2))
          (allocate (call_scope f vs) st2) rb st'
        ∧ r = returned rb.
Proof.
  intros Hf Hvs Hlen Hnd.
  rewrite (call_steps _ _ _ _ _ _ _ _ _ _ Hf Hvs).
  assert (Hl : length vs = length (func_params f)).
  { destruct Hvs as (n & Hn & _). rewrite <- Hlen. by eapply eval_exprs_length. }
  unfold block_evaluates.
  rewrite <- (converges_catch_return
                (fun ev => eval_block ev (func_body f) (length (heap st2)))).
  split; intros (n & H & Hr); exists n; (split; [|done]).
  - by rewrite <- (call_function_body _ _ _ env).
  - by rewrite call_function_body.
Qed.

Lemma call_runs_body_in_closure_scope_witness :
  let f := {| func_name := "<lambda>"; func_params := [{| param_name := "a" |}];
              func_body := [ReturnStmt (Some (VarRef "a"))];
              func_closure := global_env |} in
  evaluates
    (Exp (Call (FnExpr [{| param_name := "a" |}]
                  [ReturnStmt (Some (VarRef "a"))])
            [IntLiteral 7]))
    global_env initial_state (Ret (VInt 7))
    (allocate (call_scope f [VInt 7]) initial_state).
Proof.
  intros f.
  apply (call_runs_body_in_closure_scope
           (FnExpr [{| param_name := "a" |}] [ReturnStmt (Some (VarRef "a"))])
           [IntLiteral 7] global_env f
           initial_state initial_state initial_state [VInt 7]).
  - exists 1%nat. split; [reflexivity|discriminate].
  - exists 1%nat. split; [reflexivity|discriminate].
  - reflexivity.
  - apply NoDup_singleton.
  - exists (Raise (ReturnValue (VInt 7))). split; [|reflexivity].
    exists 3%nat. split; [reflexivity|discriminate].
Defined.

(** X13.  A call with the wrong number of arguments fails with
    [ArityMismatch], naming the function, the number of its parameters and
    the number of arguments.  The callee and all the arguments have been
    evaluated by then, and the call's scope has been created, but the body
    is not run. *)
Theorem call_with_wrong_arity_fails
    (fe : Expr) (es : list Expr) (env : addr) (f : FloFunction)
    (st st1 st2 : state) (vs : list Value) :
  evaluates (Exp fe) env st (Ret (VFunc f)) st1 →
  converges (fun ev => eval_exprs ev es env) st1 (Ret vs) st2 →
  length es ≠ length (func_params f) →
  evaluates (Exp (Call fe es)) env st
    (Raise (ArityMismatch (func_name f) (length (func_params f)) (length es)))
    (allocate (child_scope (func_closure f)) st2).
Proof.
  intros Hf Hvs Hlen.
  rewrite (call_steps _ _ _ _ _ _ _ _ _ _ Hf Hvs).
  assert (Hl : length vs = length es).
  { destruct Hvs as (n & Hn & _). by eapply eval_exprs_length. }
  exists 0%nat. split; [|done].
  unfold call_function, bind, Env.new. rewrite Hl.
  by rewrite (proj2 (Nat.eqb_neq _ _) Hlen).
Qed.

Lemma call_with_wrong_arity_fails_witness :
  evaluates
    (Exp (Call (FnExpr [{| param_name := "a" |}] []) []))
    global_env initial_state
    (Raise (ArityMismatch "<lambda>" 1 0))
    (allocate (child_scope global_env) initial_state).
Proof.
  apply (call_with_wrong_arity_fails
           (FnExpr [{| param_name := "a" |}] []) [] global_env
           {| func_name := "<lambda>"; func_params := [{| param_name := "a" |}];
              func_body := []; func_closure := global_env |}
           initial_state initial_state initial_state []).
  - exists 1%nat. split; [reflexivity|discriminate].
  - exists 0%nat. split; [reflexivity|discriminate].
  - discriminate.
Defined.

(** X14.  A function whose parameter list repeats a name can be declared,
    but every call of it with the right number of arguments fails with
    [DuplicateDefinition] of a repeated name while the parameters are being
    bound; the body is not run (nothing is printed, no task is created). *)
Theorem call_with_repeated_parameter_fails
    (fe : Expr) (es : list Expr) (env : addr) (f : FloFunction)
    (st st1 st2 : state) (vs : list Value) :
  evaluates (Exp fe) env st (Ret (VFunc f)) st1 →
  converges (fun ev => eval_exprs ev es env) st1 (Ret vs) st2 →
  length es = length (func_params f) →
  ¬ NoDup (param_name <$> func_params f) →
  ∃ name st',
    name ∈ param_name <$> func_params f
    ∧ evaluates (Exp (Call fe es)) env st
        (Raise (DuplicateDefinition name)) st'
    ∧ length (heap st') = S (length (heap st2))
    ∧ tasks st' = tasks st2 ∧ stdout st' = stdout st2.
Proof.
  intros Hf Hvs Hlen Hdup.
  assert (Hl : length vs = length (func_params f)).
  { destruct Hvs as (n & Hn & _). rewrite <- Hlen. by eapply eval_exprs_length. }
  assert (Hnames : (fun pa => param_name (fst pa)) <$> zip (func_params f) vs
                   = param_name <$> func_params f).
  { rewrite <- (fst_zip (func_params f) vs) at 2 by lia.
    by rewrite <- list_fmap_compose. }
  destruct (bind_params_dup (allocate (child_scope (func_closure f)) st2)
              (length (heap st2)) (child_scope (func_closure f))
              (zip (func_params f) vs))
    as (name & st' & Hb & Hin & Hlen' & Ht & Ho).
  { apply allocate_lookup. }
  { rewrite Hnames. by intros [Hnd _]. }
  exists name, st'. rewrite Hnames in Hin. split_and!; try done.
  - rewrite (call_steps _ _ _ _ _ _ _ _ _ _ Hf Hvs).
    exists 0%nat. split; [|done].
    unfold call_function, bind, Env.new. rewrite Hl, Nat.eqb_refl. simpl.
    unfold allocate, child_scope in Hb. by rewrite Hb.
  - rewrite Hlen'. simpl. rewrite length_app. simpl. lia.
Qed.

Lemma call_with_repeated_parameter_fails_witness :
  ∃ name st',
    name ∈ ["a"; "a"]
    ∧ evaluates
        (Exp (Call (FnExpr [{| param_name := "a" |}; {| param_name := "a" |}] [])
                [IntLiteral 1; IntLiteral 2]))
        global_env initial_state (Raise (DuplicateDefinition name)) st'
    ∧ length (heap st') = 2%nat
    ∧ tasks st' = [] ∧ stdout st' = [].
Proof.
  apply (call_with_repeated_parameter_fails
           (FnExpr [{| param_name := "a" |}; {| param_name := "a" |}] [])
           [IntLiteral 1; IntLiteral 2] global_env
           {| func_name := "<lambda>";
              func_params := [{| param_name := "a" |}; {| param_name := "a" |}];
              func_body := []; func_closure := global_env |}
           initial_state initial_state initial_state [VInt 1; VInt 2]).
  - exists 1%nat. split; [reflexivity|discriminate].
  - exists 1%nat. split; [reflexivity|discriminate].
  - reflexivity.
  - intros H. apply NoDup_cons in H as [H _]. apply H. simpl. left.
Defined.

(** ** Pipelines *)

Lemma call_builtin_returns b args st st' :
  Py.call_builtin b args st ≠ (OutOfFuel, st').
Proof.
  destruct b; simpl; [done|..];
    repeat (destruct args as [|? args]; try done);
    unfold lift, Py.range, Py.len, Py.str, Py.int, Py.float, Py.Z_to_float,
      rbind;
    repeat case_match; done.
Qed.

Lemma binary_expr_steps l op r env st vl st1 vr st2
    (K : Value -> Value -> (ASTNode -> addr -> M Value) -> M Value) res st' :
  (∀ ev, eval_binary_expr ev l op r env
         = let* a := ev (Exp l) env in let* b := ev (Exp r) env in K a b ev) →
  (∀ a b, monotone (K a b)) →
  evaluates (Exp l) env st (Ret vl) st1 →
  evaluates (Exp r) env st1 (Ret vr) st2 →
  evaluates (Exp (BinaryExpr l op r)) env st res st' ↔
  converges (K vl vr) st2 res st'.
Proof.
  intros HK Hmono Hl Hr.
  rewrite (evaluates_unfold _ _
             (fun ev => let* a := ev (Exp l) env in
                        let* b := ev (Exp r) env in K a b ev))
    by (intros; simpl; apply HK).
  rewrite (converges_after _ _
             (fun a ev => let* b := ev (Exp r) env in K a b ev) st vl st1);
    [|intros a ev ev' H; apply refines_bind; [apply H|intros b; by apply Hmono]
     |done].
  by rewrite (converges_after _ _ (fun b ev => K vl b ev) st1 vr st2).
Qed.

(** X15.  [l |> r] evaluates [l], then [r], and applies the value of [r] to
    the value of [l] only if Python's [callable] accepts it.  A builtin
    passes; a function written in Flo does not, because [FloFunction] has no
    [__call__]: piping into a user function, a lambda, or anything else
    fails with the "must be callable" error.  [l <| r] does the same with
    the roles exchanged, still evaluating [l] first. *)
Theorem pipeline_applies_builtins_only
    (l r : Expr) (env : addr) (st : state) (vl : Value) (st1 : state)
    (vr : Value) (st2 : state) (res : res Value) (st' : state) :
  evaluates (Exp l) env st (Ret vl) st1 →
  evaluates (Exp r) env st1 (Ret vr) st2 →
  (evaluates (Exp (BinaryExpr l PIPELINE_FORWARD r)) env st res st' ↔
   match vr with
   | VBuiltin b => Py.call_builtin b [vl] st2 = (res, st')
   | _ => res = Raise (PipelineNotCallable PIPELINE_FORWARD) ∧ st' = st2
   end)
  ∧ (evaluates (Exp (BinaryExpr l PIPELINE_BACKWARD r)) env st res st' ↔
     match vl with
     | VBuiltin b => Py.call_builtin b [vr] st2 = (res, st')
     | _ => res = Raise (PipelineNotCallable PIPELINE_BACKWARD) ∧ st' = st2
     end).
Proof.
  intros Hl Hr. split.
  - rewrite (binary_expr_steps l PIPELINE_FORWARD r env st vl st1 vr st2
               (fun a b ev => if Py.callable b then call_function ev b [a] env
                              else raise (PipelineNotCallable PIPELINE_FORWARD)));
      [|done|by intros a b ev ev' H; mono|done|done].
    destruct vr; simpl; rewrite converges_const; unfold raise;
      try (split; [by intros [[= <- <-] _]|by intros [-> ->]]).
    split; [by intros [? _]|]. intros H. split; [done|]. intros ->.
    by apply call_builtin_returns in H.
  - rewrite (binary_expr_steps l PIPELINE_BACKWARD r env st vl st1 vr st2
               (fun a b ev => if Py.callable a then call_function ev a [b] env
                              else raise (PipelineNotCallable PIPELINE_BACKWARD)));
      [|done|by intros a b ev ev' H; mono|done|done].
    destruct vl; simpl; rewrite converges_const; unfold raise;
      try (split; [by intros [[= <- <-] _]|by intros [-> ->]]).
    split; [by intros [? _]|]. intros H. split; [done|]. intros ->.
    by apply call_builtin_returns in H.
Qed.

Lemma pipeline_applies_builtins_only_witness :
  evaluates
    (Exp (BinaryExpr (IntLiteral 1) PIPELINE_FORWARD
            (FnExpr [{| param_name := "x" |}] [ExprStmt (VarRef "x")])))
    global_env initial_state
    (Raise (PipelineNotCallable PIPELINE_FORWARD)) initial_state.
Proof.
  apply (proj1 (pipeline_applies_builtins_only
                  (IntLiteral 1)
                  (FnExpr [{| param_name := "x" |}] [ExprStmt (VarRef "x")])
                  global_env initial_state (VInt 1) initial_state
                  (VFunc {| func_name := "<lambda>";
                            func_params := [{| param_name := "x" |}];
                            func_body := [ExprStmt (VarRef "x")];
                            func_closure := global_env |})
                  initial_state _ _
                  ltac:(exists 1%nat; split; [reflexivity|discriminate])
                  ltac:(exists 1%nat; split; [reflexivity|discriminate]))).
  split; reflexivity.
Defined.

(** ** Match expressions *)

Lemma match_expr_steps e arms env st v st1 r st' :
  evaluates (Exp e) env st (Ret v) st1 →
  evaluates (Exp (MatchExpr e arms)) env st r st' ↔
  converges (fun ev => match_arms ev arms v env) st1 r st'.
Proof.
  intros Hv.
  rewrite (evaluates_unfold _ _ (fun ev => eval_match_expr ev e arms env))
    by done.
  unfold eval_match_expr.
  by rewrite (converges_after _ _ (fun v ev => match_arms ev arms v env)
                st v st1) by eauto with mono.
Qed.

Lemma match_arms_skip skipped rest v env st r st' :
  Forall (declines v env st) skipped →
  converges (fun ev => match_arms ev (skipped ++ rest) v env) st r st' ↔
  converges (fun ev => match_arms ev rest v env) st r st'.
Proof.
  induction 1 as [|[p body] skipped (m & Hm & Ht) _ IH]; [done|].
  rewrite <- app_comm_cons.
  rewrite (match_arms_first p body (skipped ++ rest) v env st m st r st' Hm).
  by rewrite Ht.
Qed.

(** X16.  A [match] evaluates its scrutinee once and then tries the arms in
    order.  Arms whose pattern does not accept the value are passed over; the
    body of the first arm whose pattern accepts it is evaluated, and its
    outcome is the outcome of the [match]; the arms after it are not looked
    at.  When no arm accepts the value, the [match] raises [NoMatchError]
    carrying the value. *)
Theorem match_takes_first_matching_arm :
  (∀ e arms env st v st1 r st',
     evaluates (Exp e) env st (Ret v) st1 →
     evaluates (Exp (MatchExpr e arms)) env st r st' ↔
     converges (fun ev => match_arms ev arms v env) st1 r st')
  ∧ (∀ skipped p body rest v env st m st1 r st',
       Forall (declines v env st) skipped →
       match_pattern p v env st = (Ret m, st1) → Py.truthy m = true →
       converges (fun ev => match_arms ev (skipped ++ mkMatchArm p body :: rest)
                              v env) st r st' ↔
       evaluates (Exp body) env st1 r st')
  ∧ (∀ arms v env st r st',
       Forall (declines v env st) arms →
       converges (fun ev => match_arms ev arms v env) st r st' ↔
       r = Raise (NoMatchError v) ∧ st' = st).
Proof.
  split_and!.
  - intros. by apply match_expr_steps.
  - intros * Hskip Hm Ht. rewrite (match_arms_skip _ _ _ _ _ _ _ Hskip).
    rewrite (match_arms_first p body rest v env st m st1 r st' Hm).
    by rewrite Ht.
  - intros * Hskip.
    rewrite <- (app_nil_r arms), (match_arms_skip _ _ _ _ _ _ _ Hskip).
    simpl. rewrite converges_const. unfold raise.
    split; [by intros [[= <- <-] _]|by intros [-> ->]].
Qed.

Lemma match_takes_first_matching_arm_witness :
  evaluates
    (Exp (MatchExpr (IntLiteral 2)
            [mkMatchArm (LiteralPattern (LitInt 1)) (StringLiteral "one");
             mkMatchArm (LiteralPattern (LitInt 2)) (StringLiteral "two");
             mkMatchArm WildcardPattern (StringLiteral "many")]))
    global_env initial_state (Ret (VStr "two")) initial_state.
Proof.
  apply (proj1 match_takes_first_matching_arm (IntLiteral 2) _ global_env
           initial_state (VInt 2) initial_state);
    [exists 1%nat; split; [reflexivity|discriminate]|].
  apply (proj1 (proj2 match_takes_first_matching_arm)
           [mkMatchArm (LiteralPattern (LitInt 1)) (StringLiteral "one")]
           (LiteralPattern (LitInt 2)) (StringLiteral "two")
           [mkMatchArm WildcardPattern (StringLiteral "many")]
           (VInt 2) global_env initial_state (VBool true) initial_state).
  - constructor; [|constructor]. exists (VBool false). split; reflexivity.
  - reflexivity.
  - reflexivity.
  - exists 1%nat. split; [reflexivity|discriminate].
Defined.



(** ** For loops *)

Lemma monotone_for_items var body env items result :
  monotone (fun ev => for_items ev var body env items result).
Proof. intros ev ev' H. by apply for_items_mono. Qed.

#[local] Hint Resolve monotone_for_items : mono.

Lemma define_in_fresh_scope (p : addr) name v st :
  (let* loop_env := Env.new (Some p) in
   let* _ := Env.define loop_env name v false in ret loop_env) st
  = (Ret (length (heap st)), allocate (scope_with p name v) st).
Proof.
  unfold bind, Env.new.
  rewrite (define_unbound _ _ (child_scope p)); [|apply allocate_lookup|done].
  unfold ret. f_equal.
  etrans; [apply (insert_allocated (child_scope p))|].
  unfold scope_with, extend. simpl. by rewrite !insert_empty.
Qed.




(** ** Rescue *)

Lemma rescue_handler_scope ev var block env e st :
  rescue_handler ev (Some (mkRescueClause var block)) env e st
  = eval_block ev block (length (heap st))
      (allocate (scope_with env var (VExn e)) st).
Proof.
  pose proof (define_in_fresh_scope env var (VExn e) st) as H.
  unfold rescue_handler, bind in *. unfold Env.new in *.
  destruct (Env.define _ _ _ _ _) as [[[]| | | |] st1];
    unfold ret in H; by simplify_eq.
Qed.

(** X19.  An attempt without [finally] whose body returns a value has that
    value, and its rescue clause is not touched.  When the body raises any
    exception (an error of the evaluator, an error of the host, or the
    [ReturnValue] of a [return]) and there is a rescue clause, the exception
    object is bound immutably to the clause's variable in a new child scope
    and the rescue block is evaluated there; its outcome is the outcome of
    the attempt, so the exception is gone unless the block raises. *)
Theorem rescue_binds_the_exception_in_a_new_scope
    (body : list Statement) (var : string) (block : list Statement)
    (env : addr) (st st1 : state) :
  (∀ v, block_evaluates body env st (Ret v) st1 →
        evaluates
          (Exp (AttemptExpr body (Some (mkRescueClause var block)) None))
          env st (Ret v) st1)
  ∧ (∀ e r st',
       block_evaluates body env st (Raise e) st1 →
       evaluates
         (Exp (AttemptExpr body (Some (mkRescueClause var block)) None))
         env st r st' ↔
       block_evaluates block (length (heap st1))
         (allocate (scope_with env var (VExn e)) st1) r st').
Proof.
  split.
  - intros v Hb. rewrite attempt_without_finally, try_part_outcome.
    by exists (Ret v), st1.
  - intros e r st' Hb. rewrite attempt_without_finally, try_part_outcome.
    split.
    + intros (rb & stb & Hrb & H).
      destruct (converges_det _ _ _ _ _ _ (block_monotone body env) Hb Hrb)
        as [<- <-].
      destruct H as (n & H & Hr). exists n. split; [|done].
      by rewrite <- rescue_handler_scope.
    + intros (n & H & Hr). exists (Raise e), st1. split; [done|].
      exists n. split; [|done]. by rewrite rescue_handler_scope.
Qed.

Lemma rescue_binds_the_exception_in_a_new_scope_witness :
  evaluates
    (Exp (AttemptExpr [ExprStmt (VarRef "x")]
            (Some (mkRescueClause "err" [ExprStmt (VarRef "err")])) None))
    global_env initial_state
    (Ret (VExn (UndefinedVariable "x")))
    (allocate (scope_with global_env "err" (VExn (UndefinedVariable "x")))
       initial_state).
Proof.
  apply (proj2 (rescue_binds_the_exception_in_a_new_scope
                  [ExprStmt (VarRef "x")] "err" [ExprStmt (VarRef "err")]
                  global_env initial_state initial_state)
           (UndefinedVariable "x")).
  - exists 3%nat. split; [reflexivity|discriminate].
  - exists 3%nat. split; [reflexivity|discriminate].
Defined.

(** ** Result values, indexing and attribute access *)

Lemma getitem_returns obj index : Py.getitem obj index ≠ OutOfFuel.
Proof.
  destruct obj; simpl; try done; unfold Py.seq_item;
    repeat case_match; done.
Qed.

Lemma index_steps e i env st obj st1 iv st2 r st' :
  evaluates (Exp e) env st (Ret obj) st1 →
  evaluates (Exp i) env st1 (Ret iv) st2 →
  evaluates (Exp (Index e i)) env st r st' ↔
  r = Py.getitem obj iv ∧ st' = st2.
Proof.
  intros He Hi.
  rewrite (evaluates_unfold _ _ (fun ev => eval_index ev e i env)) by done.
  unfold eval_index.
  rewrite (converges_after _ _
             (fun obj ev => let* i := ev (Exp i) env in lift (Py.getitem obj i))
             st obj st1); [|by intros a ev ev' H; mono|done].
  rewrite (converges_after _ _ (fun i _ => lift (Py.getitem obj i))
             st1 iv st2); [|by eauto with mono|done].
  rewrite converges_const. unfold lift. split.
  - by intros [[= <- <-] _].
  - intros [-> ->]. split; [done|apply getitem_returns].
Qed.

Lemma result_expr_value variant e env st v st1 :
  evaluates (Exp e) env st (Ret v) st1 →
  evaluates (Exp (ResultExpr variant e)) env st
    (Ret (if String.eqb variant "Ok" then VTuple [VStr "Ok"; v]
          else if String.eqb variant "Err" then VTuple [VStr "Err"; v]
          else VNone)) st1.
Proof.
  intros Hv.
  rewrite (evaluates_unfold _ _ (fun ev => eval_result_expr ev variant e env))
    by done.
  unfold eval_result_expr.
  rewrite (converges_after _ _
             (fun v _ => if String.eqb variant "Ok"
                         then ret (VTuple [VStr "Ok"; v])
                         else if String.eqb variant "Err"
                              then ret (VTuple [VStr "Err"; v])
                              else ret VNone) st v st1);
    [|by intros a ev ev' H; mono|done].
  apply converges_const. by repeat case_match.
Qed.

(** X20.  [Ok(e)] and [Err(e)] evaluate [e] and build the two-element tuple
    of the tag (the string ["Ok"] or ["Err"]) and the value.  Indexing the
    result with 0 gives the tag back, indexing it with 1 gives the value
    back.  Being a non-empty tuple, a Result is truthy whatever it holds: an
    [if] on [Err(e)] takes its then-block.  With any other variant the node
    still evaluates [e], and yields [None]. *)
Theorem result_values_are_tagged_pairs
    (e : Expr) (env : addr) (st : state) (v : Value) (st1 : state) :
  evaluates (Exp e) env st (Ret v) st1 →
  (∀ tag, tag = "Ok" ∨ tag = "Err" →
     evaluates (Exp (ResultExpr tag e)) env st
       (Ret (VTuple [VStr tag; v])) st1
     ∧ evaluates (Exp (Index (ResultExpr tag e) (IntLiteral 0))) env st
         (Ret (VStr tag)) st1
     ∧ evaluates (Exp (Index (ResultExpr tag e) (IntLiteral 1))) env st
         (Ret v) st1
     ∧ ∀ thn elifs els r st',
         evaluates (Exp (IfExpr (ResultExpr tag e) thn elifs els)) env st r st'
         ↔ block_evaluates thn env st1 r st')
  ∧ (∀ variant, variant ≠ "Ok" → variant ≠ "Err" →
       evaluates (Exp (ResultExpr variant e)) env st (Ret VNone) st1).
Proof.
  intros Hv. split.
  - intros tag Htag.
    assert (Ht : evaluates (Exp (ResultExpr tag e)) env st
                   (Ret (VTuple [VStr tag; v])) st1).
    { pose proof (result_expr_value tag e env st v st1 Hv) as H.
      by destruct Htag as [-> | ->]. }
    assert (Hlit : ∀ z, evaluates (Exp (IntLiteral z)) env st1
                          (Ret (VInt z)) st1).
    { intros z. exists 1%nat. by split. }
    split_and!; [done|by eapply index_steps..|].
    intros. by rewrite (if_expr_branch _ _ _ _ _ _ _ _ _ _ Ht).
  - intros variant H1 H2.
    pose proof (result_expr_value variant e env st v st1 Hv) as H.
    apply String.eqb_neq in H1, H2. by rewrite H1, H2 in H.
Qed.

Lemma result_values_are_tagged_pairs_witness :
  evaluates (Exp (Index (ResultExpr "Err" (IntLiteral 4)) (IntLiteral 1)))
    global_env initial_state (Ret (VInt 4)) initial_state.
Proof.
  apply (proj1 (result_values_are_tagged_pairs
                  (IntLiteral 4) global_env initial_state (VInt 4)
                  initial_state
                  ltac:(exists 1%nat; split; [reflexivity|discriminate]))
           "Err" (or_intror eq_refl)).
Defined.

(** X21.  Indexing a list with an int [k]: for [0 <= k < len] the element at
    position [k]; for [-len <= k < 0] the element at position [len + k],
    counting from the end; otherwise [IndexError].  The two operands are
    evaluated first, the list before the index. *)
Theorem list_index_bounds
    (e i : Expr) (env : addr) (st : state) (l : list Value) (st1 : state)
    (k : Z) (st2 : state) :
  evaluates (Exp e) env st (Ret (VList l)) st1 →
  evaluates (Exp i) env st1 (Ret (VInt k)) st2 →
  let n := Z.of_nat (length l) in
  (0 ≤ k < n →
     ∃ x, l !! Z.to_nat k = Some x
        ∧ evaluates (Exp (Index e i)) env st (Ret x) st2)
  ∧ (- n ≤ k < 0 →
     ∃ x, l !! Z.to_nat (n + k) = Some x
        ∧ evaluates (Exp (Index e i)) env st (Ret x) st2)
  ∧ (k < - n ∨ n ≤ k →
     evaluates (Exp (Index e i)) env st (Raise (PyExc IndexError)) st2).
Proof.
  intros He Hi n.
  assert (Hidx : ∀ r, Py.seq_item l k = r →
                      evaluates (Exp (Index e i)) env st r st2).
  { intros r <-. by eapply index_steps. }
  unfold Py.seq_item in Hidx. fold n in Hidx.
  split_and!.
  - intros Hk.
    destruct (lookup_lt_is_Some_2 l (Z.to_nat k)) as [x Hx]; [lia|].
    exists x. split; [done|]. apply Hidx.
    rewrite (proj2 (Z.ltb_ge k 0)) by lia.
    replace ((k <? 0) || (n <=? k)) with false by lia.
    by rewrite Hx.
  - intros Hk.
    destruct (lookup_lt_is_Some_2 l (Z.to_nat (n + k))) as [x Hx]; [lia|].
    exists x. split; [done|]. apply Hidx.
    rewrite (proj2 (Z.ltb_lt k 0)) by lia.
    replace ((k + n <? 0) || (n <=? k + n)) with false by lia.
    by rewrite (Z.add_comm k n), Hx.
  - intros Hk. apply Hidx.
    destruct (k <? 0) eqn:E.
    + apply Z.ltb_lt in E.
      by replace ((k + n <? 0) || (n <=? k + n)) with true by lia.
    + apply Z.ltb_ge in E.
      by replace ((k <? 0) || (n <=? k)) with true by lia.
Qed.

Lemma list_index_bounds_witness :
  ∃ x, [VInt 10; VInt 20; VInt 30] !! Z.to_nat (3 + -1) = Some x
     ∧ evaluates
         (Exp (Index (ListExpr [IntLiteral 10; IntLiteral 20; IntLiteral 30])
                 (IntLiteral (-1))))
         global_env initial_state (Ret x) initial_state.
Proof.
  apply (proj1 (proj2 (list_index_bounds
                  (ListExpr [IntLiteral 10; IntLiteral 20; IntLiteral 30])
                  (IntLiteral (-1)) global_env initial_state
                  [VInt 10; VInt 20; VInt 30] initial_state (-1) initial_state
                  ltac:(exists 2%nat; split; [reflexivity|discriminate])
                  ltac:(exists 1%nat; split; [reflexivity|discriminate])))).
  simpl. lia.
Defined.

(** X22.  On a map, attribute access [m.name] is [dict.get]: the value under
    [name], or [None] when the key is missing.  Indexing [m["name"]] gives
    the same value when the key is there and raises [KeyError] when it is
    not. *)
Theorem attribute_of_missing_key_is_none
    (e : Expr) (name : string) (env : addr) (st : state)
    (d : list (string * Value)) (st1 : state) :
  evaluates (Exp e) env st (Ret (VDict d)) st1 →
  evaluates (Exp (Attr e name)) env st
    (Ret (default VNone (Py.dict_get d name))) st1
  ∧ evaluates (Exp (Index e (StringLiteral name))) env st
      (match Py.dict_get d name with
       | Some x => Ret x
       | None => Raise (PyExc KeyError)
       end) st1.
Proof.
  intros He. split.
  - rewrite (evaluates_unfold _ _ (fun ev => eval_attr ev e name env)) by done.
    unfold eval_attr.
    rewrite (converges_after _ _
               (fun obj _ => match obj with
                             | VDict d => ret (default VNone (Py.dict_get d name))
                             | _ => lift (Py.getattr obj name)
                             end) st (VDict d) st1);
      [|by eauto with mono|done].
    by apply converges_const.
  - eapply index_steps; [done|by exists 1%nat|]. by split.
Qed.

Lemma attribute_of_missing_key_is_none_witness :
  evaluates (Exp (Attr (MapExpr [("a", IntLiteral 1)]) "b"))
    global_env initial_state (Ret VNone) initial_state.
Proof.
  apply (attribute_of_missing_key_is_none
           (MapExpr [("a", IntLiteral 1)]) "b" global_env initial_state
           [("a", VInt 1)] initial_state).
  exists 2%nat. split; [reflexivity|discriminate].
Defined.

(** ** Map literals *)

Lemma dict_get_cons k' y rest k :
  Py.dict_get ((k', y) :: rest) k
  = if String.eqb k' k then Some y else Py.dict_get rest k.
Proof.
  unfold Py.dict_get. simpl.
  destruct (String.eqb k' k); simpl; [done|].
  by destruct (list_find _ rest) as [[? [? ?]]|].
Qed.

Lemma dict_get_set_eq d k x : Py.dict_get (Py.dict_set d k x) k = Some x.
Proof.
  induction d as [|[k' y] d IH]; simpl.
  - by rewrite dict_get_cons, String.eqb_refl.
  - destruct (String.eqb k' k) eqn:E; rewrite dict_get_cons, E; [done|apply IH].
Qed.

Lemma dict_get_set_ne d k x k' :
  k' ≠ k → Py.dict_get (Py.dict_set d k x) k' = Py.dict_get d k'.
Proof.
  intros Hne. induction d as [|[k0 y] d IH]; simpl.
  - rewrite dict_get_cons.
    by rewrite (proj2 (String.eqb_neq k k')) by done.
  - destruct (String.eqb k0 k) eqn:E; rewrite !dict_get_cons; [|by rewrite IH].
    apply String.eqb_eq in E as ->.
    by rewrite (proj2 (String.eqb_neq k k')) by done.
Qed.

Lemma dict_set_keys d k x :
  (Py.dict_set d k x).*1 = if bool_decide (k ∈ d.*1) then d.*1 else (d.*1 ++ [k])%list.
Proof.
  induction d as [|[k' y] d IH]; [done|]. cbn [Py.dict_set].
  destruct (String.eqb k' k) eqn:E; rewrite !fmap_cons; cbn [fst].
  - apply String.eqb_eq in E as ->.
    rewrite bool_decide_eq_true_2; [done|]. apply elem_of_cons. by left.
  - apply String.eqb_neq in E. rewrite IH.
    destruct (bool_decide (k ∈ d.*1)) eqn:B.
    + apply bool_decide_eq_true in B.
      rewrite bool_decide_eq_true_2; [done|]. apply elem_of_cons. by right.
    + apply bool_decide_eq_false in B.
      rewrite bool_decide_eq_false_2; [done|].
      intros [->|?]%elem_of_cons; done.
Qed.

Lemma dict_set_NoDup d k x : NoDup (d.*1) → NoDup ((Py.dict_set d k x).*1).
Proof.
  intros Hnd. rewrite dict_set_keys. case_bool_decide; [done|].
  apply NoDup_app. split_and!; [done| |apply NoDup_singleton].
  intros y Hy [->|Hin]%elem_of_cons; [done|by apply elem_of_nil in Hin].
Qed.

Lemma map_entries_eval_exprs ev entries env acc st :
  map_entries ev entries env acc st
  = (let* vs := eval_exprs ev (entries.*2) env in
     ret (VDict (foldl (fun d kv => Py.dict_set d (fst kv) (snd kv)) acc
                   (zip (entries.*1) vs)))) st.
Proof.
  revert acc st. induction entries as [|[k e] rest IH]; intros acc st; [done|].
  simpl. unfold bind.
  destruct (ev (Exp e) env st) as [[v| | | |] st1]; try done.
  rewrite IH. unfold bind.
  change (list_fmap (string * Expr)%type Expr snd rest) with (rest.*2).
  by destruct (eval_exprs ev rest.*2 env st1) as [[vs| | | |] st2].
Qed.

Lemma foldl_dict_set_NoDup acc (kvs : list (string * Value)) :
  NoDup (acc.*1) →
  NoDup ((foldl (fun d kv => Py.dict_set d (fst kv) (snd kv)) acc kvs).*1).
Proof.
  revert acc. induction kvs as [|[k x] kvs IH]; intros acc Hnd; [done|].
  simpl. by apply IH, dict_set_NoDup.
Qed.

Lemma foldl_dict_set_get acc (kvs : list (string * Value)) k :
  Py.dict_get (foldl (fun d kv => Py.dict_set d (fst kv) (snd kv)) acc kvs) k
  = match last (filter (fun kv => fst kv = k) kvs) with
    | Some kv => Some (snd kv)
    | None => Py.dict_get acc k
    end.
Proof.
  revert acc. induction kvs as [|[k' x] kvs IH]; intros acc; [done|].
  simpl. rewrite IH. rewrite filter_cons. simpl.
  destruct (decide (k' = k)) as [->|Hne].
  - destruct (filter _ kvs) as [|kv F] eqn:E; simpl.
    + apply dict_get_set_eq.
    + destruct (last (kv :: F)) eqn:L; [done|]. by apply last_None in L.
  - destruct (last _); [done|]. by apply dict_get_set_ne.
Qed.

(** X23.  A map literal evaluates its value expressions from left to right,
    as a list literal would, and builds the dict entry by entry.  The keys
    of the result are distinct, and the value under a key is the value of
    the last entry written with that key: when a key occurs twice, the later
    entry wins. *)
Theorem map_literal_keeps_last_value_per_key
    (entries : list (string * Expr)) (env : addr)
    (st : state) (vs : list Value) (st' : state) :
  converges (fun ev => eval_exprs ev (entries.*2) env) st (Ret vs) st' →
  ∃ d, evaluates (Exp (MapExpr entries)) env st (Ret (VDict d)) st'
     ∧ NoDup (d.*1)
     ∧ ∀ k, Py.dict_get d k
            = snd <$> last (filter (fun kv => fst kv = k)
                              (zip (entries.*1) vs)).
Proof.
  intros (n & Hn & _).
  exists (foldl (fun d kv => Py.dict_set d (fst kv) (snd kv)) []
            (zip (entries.*1) vs)).
  split_and!.
  - exists (S n). split; [|done]. simpl. unfold eval_map_expr.
    rewrite map_entries_eval_exprs. unfold bind. by rewrite Hn.
  - apply foldl_dict_set_NoDup. constructor.
  - intros k. rewrite foldl_dict_set_get. by destruct (last _).
Qed.

Lemma map_literal_keeps_last_value_per_key_witness :
  ∃ d, evaluates
         (Exp (MapExpr [("a", IntLiteral 1); ("b", IntLiteral 2);
                        ("a", IntLiteral 3)]))
         global_env initial_state (Ret (VDict d)) initial_state
     ∧ NoDup (d.*1)
     ∧ ∀ k, Py.dict_get d k
            = snd <$> last (filter (fun kv => fst kv = k)
                              [("a", VInt 1); ("b", VInt 2); ("a", VInt 3)]).
Proof.
  apply (map_literal_keeps_last_value_per_key
           [("a", IntLiteral 1); ("b", IntLiteral 2); ("a", IntLiteral 3)]
           global_env initial_state [VInt 1; VInt 2; VInt 3] initial_state).
  exists 1%nat. split; [reflexivity|discriminate].
Defined.

(** ** Division *)

Lemma truediv_outcome v w :
  match Py.truediv v w with
  | Ret x => ∃ f, x = VFloat f
  | Raise e =>
      e = PyExc TypeError ∨ e = PyExc ZeroDivisionError
      ∨ e = PyExc OverflowError
  | _ => False
  end.
Proof.
  unfold Py.truediv, Py.num_truediv, Py.to_float, Py.Z_to_float, rbind.
  repeat case_match; simpl in *; simplify_eq; eauto.
Qed.

Lemma truediv_by_zero v :
  Py.as_num v ≠ None → Py.truediv v (VInt 0) = Raise (PyExc ZeroDivisionError).
Proof.
  unfold Py.truediv. destruct (Py.as_num v) as [[z|f]|]; [done| |done].
  intros _. simpl. unfold Py.Z_to_float.
  by vm_compute (SF2Prim (binary_normalize prec emax 0 0 false)).
Qed.

(** X24.  [l / r] evaluates both operands and hands them to Python's true
    division.  The result is always a float, also for two ints that divide
    exactly; the only other outcomes are [TypeError] (an operand is not a
    number), [ZeroDivisionError] and [OverflowError].  Dividing a number by
    the int 0 raises [ZeroDivisionError]. *)
Theorem division_yields_a_float
    (l r : Expr) (env : addr) (st : state) (vl : Value) (st1 : state)
    (vr : Value) (st2 : state) (res : res Value) (st' : state) :
  evaluates (Exp l) env st (Ret vl) st1 →
  evaluates (Exp r) env st1 (Ret vr) st2 →
  evaluates (Exp (BinaryExpr l DIV r)) env st res st' →
  st' = st2
  ∧ match res with
    | Ret x => ∃ f, x = VFloat f
    | Raise e =>
        e = PyExc TypeError ∨ e = PyExc ZeroDivisionError
        ∨ e = PyExc OverflowError
    | _ => False
    end
  ∧ (vr = VInt 0 → Py.as_num vl ≠ None →
     res = Raise (PyExc ZeroDivisionError)).
Proof.
  intros Hl Hr H.
  apply (binary_expr_steps l DIV r env st vl st1 vr st2
           (fun a b _ => lift (Py.truediv a b))) in H;
    [|done|by eauto with mono|done|done].
  apply converges_const in H as [[= <- <-] _].
  split_and!; [done|apply truediv_outcome|].
  intros -> Hn. by apply truediv_by_zero.
Qed.

Lemma division_yields_a_float_witness :
  match fst (run 2 (Exp (BinaryExpr (IntLiteral 10) DIV (IntLiteral 2)))) with
  | Ret x => ∃ f, x = VFloat f
  | Raise e =>
      e = PyExc TypeError ∨ e = PyExc ZeroDivisionError
      ∨ e = PyExc OverflowError
  | _ => False
  end.
Proof.
  apply (proj1 (proj2 (division_yields_a_float
           (IntLiteral 10) (IntLiteral 2) global_env initial_state
           (VInt 10) initial_state (VInt 2) initial_state
           (fst (run 2 (Exp (BinaryExpr (IntLiteral 10) DIV (IntLiteral 2)))))
           (snd (run 2 (Exp (BinaryExpr (IntLiteral 10) DIV (IntLiteral 2)))))
           ltac:(exists 1%nat; split; [reflexivity|discriminate])
           ltac:(exists 1%nat; split; [reflexivity|discriminate])
           ltac:(exists 2%nat; split; [reflexivity|discriminate])))).
Defined.

(** ** Patterns that are literals *)

(** X25.  A literal pattern accepts a value when Python's [==] says the
    literal equals it.  Python's [bool] is a kind of [int], so the pattern
    [true] accepts the int 1 and the pattern [false] the int 0, and an int
    pattern accepts the boolean of the same numeric value; a string pattern
    accepts exactly the equal string. *)
Theorem literal_patterns_compare_by_host_equality
    (env : addr) (st : state) :
  (∀ b z,
     match_pattern (LiteralPattern (LitBool b)) (VInt z) env st
     = (Ret (VBool (bool_decide (z = if b then 1 else 0))), st))
  ∧ (∀ z b,
       match_pattern (LiteralPattern (LitInt z)) (VBool b) env st
       = (Ret (VBool (bool_decide (z = if b then 1 else 0))), st))
  ∧ (∀ z z',
       match_pattern (LiteralPattern (LitInt z)) (VInt z') env st
       = (Ret (VBool (bool_decide (z = z'))), st))
  ∧ (∀ s t,
       match_pattern (LiteralPattern (LitStr s)) (VStr t) env st
       = (Ret (VBool (bool_decide (s = t))), st))
  ∧ (∀ s v, (∀ t, v ≠ VStr t) →
       match_pattern (LiteralPattern (LitStr s)) v env st
       = (Ret (VBool false), st)).
Proof.
  assert (Hcmp : ∀ x y : Z,
            bool_decide (Py.num_compare (Py.NInt x) (Py.NInt y) = Some Eq)
            = bool_decide (y = x)).
  { intros x y. apply bool_decide_ext. simpl. split.
    - intros [= H]. by apply Z.compare_eq_iff in H.
    - intros ->. by rewrite Z.compare_refl. }
  assert (Hsym : ∀ x y : Z, bool_decide (y = x) = bool_decide (x = y)).
  { intros x y. by apply bool_decide_ext. }
  split_and!.
  - intros b z. cbn. unfold lift. do 3 f_equal.
    apply (Hcmp (if b then 1 else 0) z).
  - intros z b. cbn. unfold lift. do 3 f_equal.
    etrans; [apply (Hcmp z (if b then 1 else 0))|apply Hsym].
  - intros z z'. cbn. unfold lift. do 3 f_equal.
    etrans; [apply (Hcmp z z')|apply Hsym].
  - intros s t. simpl. unfold lift. do 2 f_equal.
    destruct (String.eqb s t) eqn:E.
    + apply String.eqb_eq in E as ->. by rewrite bool_decide_eq_true_2.
    + apply String.eqb_neq in E. by rewrite bool_decide_eq_false_2.
  - intros s v Hv. destruct v; try done. by destruct (Hv s0).
Qed.

(** ** Return at module level *)

Lemma return_stmt_steps value env st v st1 :
  evaluates (Exp value) env st (Ret v) st1 →
  evaluates (Stmt (ReturnStmt (Some value))) env st (Raise (ReturnValue v)) st1.
Proof.
  intros Hv.
  rewrite (evaluates_unfold _ _
             (fun ev => eval_return_stmt ev (Some value) env)) by done.
  unfold eval_return_stmt.
  rewrite (converges_after _ _ (fun v _ => raise (ReturnValue v)) st v st1);
    [|by eauto with mono|done].
  by apply converges_const.
Qed.

(** X26.  Nothing at module level catches a [return].  A module whose
    statements evaluate up to a [return e] ends there: the value of [e] is
    computed, the evaluation of the module raises [ReturnValue] carrying it
    (which is what the caller of [eval] gets), and the statements after the
    [return] are not evaluated. *)
Theorem return_at_module_level_escapes
    (stmts1 : list Statement) (value : Expr) (stmts2 : list Statement)
    (env : addr) (st : state) (w : Value) (st1 : state)
    (v : Value) (st2 : state) :
  block_evaluates stmts1 env st (Ret w) st1 →
  evaluates (Exp value) env st1 (Ret v) st2 →
  evaluates (Module (stmts1 ++ ReturnStmt (Some value) :: stmts2)) env st
    (Raise (ReturnValue v)) st2.
Proof.
  intros H1 Hv.
  rewrite (evaluates_unfold _ _
             (fun ev => eval_block ev
                          (stmts1 ++ ReturnStmt (Some value) :: stmts2) env))
    by done.
  apply run_stmts_app_converges. exists (Ret w), st1. split; [done|].
  simpl.
  apply (converges_bind
           (fun ev => ev (Stmt (ReturnStmt (Some value))) env)
           (fun r ev => run_stmts ev stmts2 env r)); [by eauto with mono..|].
  exists (Raise (ReturnValue v)), st2. split; [|done].
  by apply return_stmt_steps.
Qed.

Lemma return_at_module_level_escapes_witness :
  evaluates
    (Module ([ExprStmt (IntLiteral 1)]
             ++ ReturnStmt (Some (IntLiteral 2))
             :: [ExprStmt (Call (VarRef "print") [IntLiteral 3])]))
    global_env initial_state (Raise (ReturnValue (VInt 2))) initial_state.
Proof.
  apply (return_at_module_level_escapes
           [ExprStmt (IntLiteral 1)] (IntLiteral 2)
           [ExprStmt (Call (VarRef "print") [IntLiteral 3])]
           global_env initial_state (VInt 1) initial_state (VInt 2)
           initial_state).
  - exists 2%nat. split; [reflexivity|discriminate].
  - exists 1%nat. split; [reflexivity|discriminate].
Defined.

(** ** Strands *)



(** ** The store invariant, from any well-formed state *)



(** ** String literals and map keys in the parser *)

Lemma drop_last_snoc s c : Parser.drop_last (s +:+ String c "") = s.
Proof.
  induction s as [|d s IH]; [done|].
  change (String d s +:+ String c "") with (String d (s +:+ String c "")).
  destruct (s +:+ String c "") as [|e r] eqn:E; [by destruct s|].
  change (Parser.drop_last (String d (String e r)))
    with (String d (Parser.drop_last (String e r))).
  by rewrite IH.
Qed.

Lemma replace_cons_plain c b new u :
  Ascii.eqb c Parser.backslash = false →
  Parser.replace Parser.backslash b new (String c u)
  = String c (Parser.replace Parser.backslash b new u).
Proof. intros Hc. destruct u; simpl; [done|]. by rewrite Hc. Qed.

Lemma replace_plain b new s :
  plain_text s = true → Parser.replace Parser.backslash b new s = s.
Proof.
  induction s as [|c s IH]; [done|].
  intros [Hc Hs]%andb_true_iff. apply negb_true_iff in Hc.
  by rewrite replace_cons_plain, IH.
Qed.

Lemma replace_app_plain b new s t :
  plain_text s = true →
  Parser.replace Parser.backslash b new (s +:+ t)
  = s +:+ Parser.replace Parser.backslash b new t.
Proof.
  induction s as [|c s IH]; [done|].
  intros [Hc Hs]%andb_true_iff. apply negb_true_iff in Hc.
  change (String c s +:+ t) with (String c (s +:+ t)).
  by rewrite replace_cons_plain, IH.
Qed.

Lemma plain_text_cons c t :
  c ≠ Parser.backslash → plain_text t = true → plain_text (String c t) = true.
Proof.
  intros Hc Ht. simpl. by rewrite (proj2 (Ascii.eqb_neq _ _) Hc), Ht.
Qed.

Lemma append_assoc_text (s t u : string) : (s +:+ t) +:+ u = s +:+ t +:+ u.
Proof.
  induction s as [|c s IH]; [done|].
  change (String c ((s +:+ t) +:+ u) = String c (s +:+ t +:+ u)).
  by rewrite IH.
Qed.

Lemma append_one c t : String c "" +:+ t = String c t.
Proof. done. Qed.

Lemma replace_hit b new t :
  Parser.replace Parser.backslash b new (String Parser.backslash (String b t))
  = new +:+ Parser.replace Parser.backslash b new t.
Proof. simpl. by rewrite Ascii.eqb_refl. Qed.

Lemma replace_miss b x new t :
  x ≠ b → x ≠ Parser.backslash → plain_text t = true →
  Parser.replace Parser.backslash b new (String Parser.backslash (String x t))
  = String Parser.backslash (String x t).
Proof.
  intros Hb Hx Ht.
  change (Parser.replace Parser.backslash b new
            (String Parser.backslash (String x t)))
    with (if Ascii.eqb Parser.backslash Parser.backslash && Ascii.eqb x b
          then new +:+ Parser.replace Parser.backslash b new t
          else String Parser.backslash
                 (Parser.replace Parser.backslash b new (String x t))).
  rewrite (proj2 (Ascii.eqb_neq x b) Hb), andb_false_r.
  rewrite (replace_plain b new (String x t)); [done|].
  simpl. by rewrite (proj2 (Ascii.eqb_neq x Parser.backslash) Hx).
Qed.

Lemma plain_text_app s t :
  plain_text (s +:+ t) = plain_text s && plain_text t.
Proof.
  induction s as [|c s IH]; [done|]. simpl. by rewrite IH, andb_assoc.
Qed.

(** One escape sequence between two texts without backslash. *)
Lemma unescape_one a x y b :
  (x, y) ∈ escapes → plain_text a = true → plain_text b = true →
  Parser.unescape (a +:+ String Parser.backslash (String x b))
  = a +:+ String y b.
Proof.
  intros Hxy Ha Hb. unfold Parser.unescape, escapes in *.
  assert (Hy : plain_text (a +:+ String y b) = true).
  { rewrite plain_text_app, Ha. simpl. rewrite Hb.
    repeat (apply elem_of_cons in Hxy as [[= -> ->]|Hxy]; [done|]).
    by apply elem_of_nil in Hxy. }
  assert (Hcases : (x, y) = (Parser.letter_n, Parser.newline)
                   ∨ (x, y) = (Parser.letter_t, Parser.tab)
                   ∨ (x, y) = (Parser.dquote, Parser.dquote)
                   ∨ (x, y) = (Parser.squote, Parser.squote)).
  { repeat (apply elem_of_cons in Hxy as [->|Hxy]; [tauto|]).
    by apply elem_of_nil in Hxy. }
  destruct Hcases as [[= -> ->]|[[= -> ->]|[[= -> ->]|[= -> ->]]]];
    repeat first
      [ rewrite (replace_app_plain _ _ a) by done
      | rewrite replace_hit
      | rewrite replace_miss by done
      | rewrite (replace_plain _ _ b) by done
      | rewrite append_one
      | rewrite (replace_plain _ _ (String _ b))
          by (by apply plain_text_cons) ];
    done.
Qed.

(** X29.  [string_lit] removes the first and the last character of a token
    that starts with a quote (whatever the last character is) and then
    decodes escapes.  A text without backslash is returned as it is.  Each
    of backslash-n, backslash-t, backslash-double-quote and
    backslash-single-quote standing between two such texts becomes the one
    character it names.  A backslash is no escape for itself: in
    backslash-backslash-n the second backslash and the n are decoded to a
    newline and the first backslash stays. *)
Theorem string_lit_decodes_escapes
    (q c : Ascii.ascii) (a b : string) :
  q = Parser.dquote ∨ q = Parser.squote →
  plain_text a = true → plain_text b = true →
  Parser.string_lit (String q (a +:+ String c "")) = StringLiteral a
  ∧ (∀ x y, (x, y) ∈ escapes →
       Parser.string_lit
         (String q (a +:+ String Parser.backslash (String x b)
                    +:+ String c ""))
       = StringLiteral (a +:+ String y b))
  ∧ Parser.string_lit
      (String q (a +:+ "\\n" +:+ b +:+ String c ""))
    = StringLiteral (a +:+ String Parser.backslash (String Parser.newline b)).
Proof.
  intros Hq Ha Hb.
  assert (Hquoted : ∀ s, Parser.quoted (String q s) = true).
  { intros s. by destruct Hq as [-> | ->]. }
  unfold Parser.string_lit. split_and!.
  - rewrite Hquoted. unfold Parser.inner. rewrite drop_last_snoc.
    unfold Parser.unescape. by rewrite !(replace_plain _ _ a) by done.
  - intros x y Hxy. rewrite Hquoted. unfold Parser.inner.
    rewrite <- append_assoc_text, drop_last_snoc.
    by rewrite (unescape_one a x y b).
  - rewrite Hquoted. unfold Parser.inner.
    rewrite <- !append_assoc_text, (append_assoc_text a).
    rewrite drop_last_snoc. unfold Parser.unescape.
    change ("\\n" +:+ b)
      with (String Parser.backslash
              (String Parser.backslash (String Parser.letter_n b))).
    rewrite (replace_app_plain _ _ a) by done.
    change (Parser.replace Parser.backslash Parser.letter_n
              (String Parser.newline "")
              (String Parser.backslash
                 (String Parser.backslash (String Parser.letter_n b))))
      with (String Parser.backslash
              (Parser.replace Parser.backslash Parser.letter_n
                 (String Parser.newline "")
                 (String Parser.backslash (String Parser.letter_n b)))).
    rewrite replace_hit, (replace_plain _ _ b) by done.
    assert (Hp : plain_text (String Parser.newline b) = true) by done.
    change (String Parser.newline "" +:+ b) with (String Parser.newline b).
    rewrite !(replace_app_plain _ _ a) by done.
    assert (Hend : ∀ x new, x ≠ Parser.newline →
              Parser.replace Parser.backslash x new
                (String Parser.backslash (String Parser.newline b))
              = String Parser.backslash (String Parser.newline b)).
    { intros x new Hx. by apply replace_miss. }
    by rewrite !Hend.
Qed.

Lemma string_lit_decodes_escapes_witness :
  Parser.string_lit (String Parser.dquote ("a\nb" +:+ String Parser.dquote ""))
  = StringLiteral ("a" +:+ String Parser.newline "b").
Proof.
  apply (proj1 (proj2 (string_lit_decodes_escapes
                         Parser.dquote Parser.dquote "a" "b"
                         (or_introl eq_refl) eq_refl eq_refl))
           Parser.letter_n Parser.newline).
  apply elem_of_cons. by left.
Defined.

Lemma map_literal_single key e env st v st1 :
  evaluates (Exp e) env st (Ret v) st1 →
  evaluates (Exp (MapExpr [(key, e)])) env st (Ret (VDict [(key, v)])) st1.
Proof.
  intros Hv.
  rewrite (evaluates_unfold _ _ (fun ev => eval_map_expr ev [(key, e)] env))
    by done.
  unfold eval_map_expr. simpl.
  rewrite (converges_after _ _
             (fun v _ => ret (VDict (Py.dict_set [] key v))) st v st1);
    [|by eauto with mono|done].
  by apply converges_const.
Qed.

(** X30.  [map_entry] strips the quotes of a quoted key and decodes nothing,
    while [string_lit] decodes the escapes of the same token.  So a map
    entry written with the key [a\nb] (backslash, n) is stored under the
    text with a backslash and an n: attribute access with that text finds
    it, and indexing the map with the string literal written the same way,
    which denotes the text with a newline, raises [KeyError]. *)
Theorem map_keys_keep_their_escapes
    (q c : Ascii.ascii) (a b : string) (value : Expr) (env : addr)
    (st : state) (v : Value) (st1 : state) :
  q = Parser.dquote ∨ q = Parser.squote →
  plain_text a = true → plain_text b = true →
  evaluates (Exp value) env st (Ret v) st1 →
  let token := String q (a +:+ "\n" +:+ b +:+ String c "") in
  let map := MapExpr [Parser.map_entry token value] in
  Parser.map_entry token value = (a +:+ "\n" +:+ b, value)
  ∧ Parser.string_lit token = StringLiteral (a +:+ String Parser.newline b)
  ∧ evaluates (Exp (Attr map (a +:+ "\n" +:+ b))) env st (Ret v) st1
  ∧ evaluates (Exp (Index map (Parser.string_lit token))) env st
      (Raise (PyExc KeyError)) st1.
Proof.
  intros Hq Ha Hb Hv token map.
  assert (Hquoted : Parser.quoted token = true).
  { subst token. by destruct Hq as [-> | ->]. }
  assert (Hinner : Parser.inner token = a +:+ "\n" +:+ b).
  { subst token. unfold Parser.inner.
    by rewrite <- !append_assoc_text, drop_last_snoc, append_assoc_text. }
  assert (Hentry : Parser.map_entry token value = (a +:+ "\n" +:+ b, value)).
  { unfold Parser.map_entry. by rewrite Hquoted, Hinner. }
  assert (Hlit : Parser.string_lit token
                 = StringLiteral (a +:+ String Parser.newline b)).
  { unfold Parser.string_lit. rewrite Hquoted, Hinner.
    change ("\n" +:+ b)
      with (String Parser.backslash (String Parser.letter_n b)).
    rewrite (unescape_one a Parser.letter_n Parser.newline b); try done.
    apply elem_of_cons. by left. }
  assert (Hmap : evaluates (Exp map) env st
                   (Ret (VDict [(a +:+ "\n" +:+ b, v)])) st1).
  { subst map. rewrite Hentry. by apply map_literal_single. }
  assert (Hne : String.eqb (a +:+ "\n" +:+ b)
                  (a +:+ String Parser.newline b) = false).
  { apply String.eqb_neq. by intros H%(inj (String.app a)). }
  split_and!; [done..| |].
  - rewrite (evaluates_unfold _ _
               (fun ev => eval_attr ev map (a +:+ "\n" +:+ b) env)) by done.
    unfold eval_attr.
    rewrite (converges_after _ _
               (fun obj _ =>
                  match obj with
                  | VDict d =>
                      ret (default VNone (Py.dict_get d (a +:+ "\n" +:+ b)))
                  | _ => lift (Py.getattr obj (a +:+ "\n" +:+ b))
                  end) st (VDict [(a +:+ "\n" +:+ b, v)]) st1);
      [|by eauto with mono|done].
    apply converges_const. split; [|done].
    by rewrite dict_get_cons, String.eqb_refl.
  - rewrite Hlit.
    eapply index_steps; [done|by exists 1%nat|].
    split; [|done]. cbn [Py.getitem Py.hashable negb].
    by rewrite dict_get_cons, Hne.
Qed.

Lemma map_keys_keep_their_escapes_witness :
  let token := String Parser.dquote ("a\nb" +:+ String Parser.dquote "") in
  evaluates
    (Exp (Index (MapExpr [Parser.map_entry token (IntLiteral 1)])
            (Parser.string_lit token)))
    global_env initial_state (Raise (PyExc KeyError)) initial_state.
Proof.
  apply (map_keys_keep_their_escapes
           Parser.dquote Parser.dquote "a" "b" (IntLiteral 1) global_env
           initial_state (VInt 1) initial_state
           (or_introl eq_refl) eq_refl eq_refl).
  exists 1%nat. split; [reflexivity|discriminate].
Defined.
